(** * json2tszod: schema inference, merging, naming and emitters

    A shallow embedding of the inference pipeline of json2tszod
    (lib/infer/merge.ts, lib/infer/naming.ts, lib/infer/infer.ts,
    lib/generate/{typescript,zod,example}.ts, and [positionToLineCol] of
    lib/infer/parse.ts) together with the properties its specification
    states about it and further properties read off the code.

    Modelling conventions.
    - JavaScript strings are modelled by [string]; the case mappings and
      the character classes of the regular expressions are the ASCII ones.
    - A JavaScript object used as a record of properties ([PropertyMap],
      the input objects of [infer]) is the association list of its own
      enumerable properties in enumeration order.  [get_prop] is the
      lookup of an own property, [set_prop] the assignment [o[k] = v] in
      insertion order, and the functions built on them describe the code
      on plain keys.  The functions prefixed [js_] follow the code on
      every key: a read [o[k]] goes on to [Object.prototype], an
      assignment to [__proto__] replaces the prototype, and own keys that
      are array indices are enumerated first.
    - [NameGenerator.usedNames], a [Map<string, number>], is a [gmap].
    - The closure state of [inferType] (diagnostics, name generator, field
      counter) is threaded explicitly as [InferState].
    - An exception thrown by an emitter is [None]. *)

From Stdlib Require Import String Ascii List Bool Arith Lia DecimalString.
From Stdlib Require Import DecimalNat DecimalFacts Sorted Permutation.
From stdpp Require Import gmap strings.
Import ListNotations.
Local Open Scope string_scope.
Local Open Scope list_scope.

(** ** Strings *)

Definition is_lower (c : ascii) : bool :=
  let n := nat_of_ascii c in (97 <=? n)%nat && (n <=? 122)%nat.

Definition is_upper (c : ascii) : bool :=
  let n := nat_of_ascii c in (65 <=? n)%nat && (n <=? 90)%nat.

Definition is_digit (c : ascii) : bool :=
  let n := nat_of_ascii c in (48 <=? n)%nat && (n <=? 57)%nat.

(** [\s] restricted to ASCII: TAB, LF, VT, FF, CR and space. *)
Definition is_space (c : ascii) : bool :=
  let n := nat_of_ascii c in ((9 <=? n)%nat && (n <=? 13)%nat) || (n =? 32)%nat.

Definition upper_char (c : ascii) : ascii :=
  if is_lower c then ascii_of_nat (nat_of_ascii c - 32) else c.

Definition lower_char (c : ascii) : ascii :=
  if is_upper c then ascii_of_nat (nat_of_ascii c + 32) else c.

Fixpoint toLowerCase (s : string) : string :=
  match s with
  | EmptyString => EmptyString
  | String c r => String (lower_char c) (toLowerCase r)
  end.

(** [arr.join(sep)] *)
Fixpoint join (sep : string) (l : list string) : string :=
  match l with
  | [] => ""
  | [x] => x
  | x :: r => x +:+ sep +:+ join sep r
  end.

(** [`${n}`] for a non-negative integer. *)
Definition string_of_nat (n : nat) : string :=
  NilZero.string_of_uint (Nat.to_uint n).

(** [s.repeat(n)] *)
Fixpoint repeat_string (s : string) (n : nat) : string :=
  match n with
  | O => ""
  | S k => s +:+ repeat_string s k
  end.

(** [s || d] on strings: the empty string is falsy. *)
Definition or_default (s d : string) : string :=
  match s with
  | EmptyString => d
  | _ => s
  end.

(** [s.startsWith("[")] *)
Definition startsWith_bracket (s : string) : bool :=
  match s with
  | String c _ => Ascii.eqb c "["%char
  | EmptyString => false
  end.

(** [arr.sort()] on strings: ascending code-unit order. *)
Fixpoint sort_insert (x : string) (l : list string) : list string :=
  match l with
  | [] => [x]
  | y :: r => if String.leb x y then x :: y :: r else y :: sort_insert x r
  end.

Fixpoint sort_strings (l : list string) : list string :=
  match l with
  | [] => []
  | x :: r => sort_insert x (sort_strings r)
  end.

(** ** The intermediate representation (lib/infer/types.ts) *)

Inductive PrimKind : Type := PString | PNumber | PBoolean | PNull.

Definition PrimKind_eqb (a b : PrimKind) : bool :=
  match a, b with
  | PString, PString | PNumber, PNumber
  | PBoolean, PBoolean | PNull, PNull => true
  | _, _ => false
  end.

Record PropertyInfoOf (T : Type) : Type := mkPropertyInfo {
  type : T;
  optional : bool;
  nullable : bool
}.
Arguments mkPropertyInfo {T} _ _ _.
Arguments type {T} _.
Arguments optional {T} _.
Arguments nullable {T} _.

#[local] Unset Elimination Schemes.
Inductive InferredType : Type :=
  | Primitive (k : PrimKind)
  | Array (elementType : InferredType)
  | Object (properties : list (string * PropertyInfoOf InferredType))
           (typeName : string)
  | Union (variants : list InferredType)
  | Unknown
  | DateString.

#[local] Set Elimination Schemes.

Abbreviation PropertyInfo := (PropertyInfoOf InferredType).
Abbreviation PropertyMap := (list (string * PropertyInfoOf InferredType)).

Record ObjectType : Type := mkObjectType {
  properties : PropertyMap;
  typeName : string
}.

Definition ObjectT (o : ObjectType) : InferredType :=
  Object (properties o) (typeName o).

Inductive DiagnosticLevel : Type := error | warning | info.

Record Diagnostic : Type := mkDiagnostic {
  level : DiagnosticLevel;
  message : string;
  path : string
}.

Record InferSettings : Type := mkInferSettings {
  rootTypeName : string;
  detectDates : bool
}.

Record InferResult : Type := mkInferResult {
  result_type : InferredType;
  diagnostics : list Diagnostic;
  fieldCount : nat
}.

Inductive OutputStyle : Type := StyleType | StyleInterface.

Record GenerateSettings : Type := mkGenerateSettings {
  gen_rootTypeName : string;
  outputStyle : OutputStyle;
  strictObjects : bool;
  gen_detectDates : bool;
  gen_snakeToCamel : bool
}.

(** ** Property maps *)

(** [Object.keys(m)] *)
Definition keys {V : Type} (m : list (string * V)) : list string :=
  map fst m.

(** [m[k]]; [None] is [undefined]. *)
Fixpoint get_prop {V : Type} (m : list (string * V)) (k : string) : option V :=
  match m with
  | [] => None
  | (k', v) :: r => if String.eqb k' k then Some v else get_prop r k
  end.

(** [m[k] = v] *)
Fixpoint set_prop {V : Type} (m : list (string * V)) (k : string) (v : V)
  : list (string * V) :=
  match m with
  | [] => [(k, v)]
  | (k', v') :: r =>
      if String.eqb k' k then (k', v) :: r else (k', v') :: set_prop r k v
  end.

(** [m[k]] handed to a continuation, [d] when the key is absent. *)
Fixpoint with_prop {V R : Type} (f : V -> R) (d : R) (k : string)
  (m : list (string * V)) : R :=
  match m with
  | [] => d
  | (k', v) :: r => if String.eqb k' k then f v else with_prop f d k r
  end.

(** [arr.every((x, i) => f(x, i))], [i] counted from [start]. *)
Fixpoint every_from {A : Type} (f : A -> nat -> bool) (start : nat)
  (l : list A) : bool :=
  match l with
  | [] => true
  | x :: r => f x start && every_from f (S start) r
  end.

(** ** Structural equality (merge.ts, typesEqual) *)

Fixpoint typesEqual (a b : InferredType) {struct a} : bool :=
  match a with
  | Primitive ka =>
      match b with
      | Primitive kb => PrimKind_eqb ka kb
      | _ => false
      end
  | Unknown => match b with Unknown => true | _ => false end
  | DateString => match b with DateString => true | _ => false end
  | Array ea =>
      match b with
      | Array eb => typesEqual ea eb
      | _ => false
      end
  | Union avs =>
      match b with
      | Union bvs =>
          if negb (Nat.eqb (length avs) (length bvs)) then false
          else every_from
                 (fun av i =>
                    match nth_error bvs i with
                    | Some bv => typesEqual av bv
                    | None => false
                    end) 0 avs
      | _ => false
      end
  | Object aprops _ =>
      match b with
      | Object bprops _ =>
          let aKeys := sort_strings (keys aprops) in
          let bKeys := sort_strings (keys bprops) in
          if negb (Nat.eqb (length aKeys) (length bKeys)) then false
          else every_from
                 (fun k i =>
                    match nth_error bKeys i with
                    | Some k' => String.eqb k k'
                    | None => false
                    end
                    && with_prop
                         (fun pa =>
                            match get_prop bprops k with
                            | Some pb => typesEqual (type pa) (type pb)
                            | None => false
                            end) false k aprops) 0 aKeys
      | _ => false
      end
  end.

(** ** Union normalisation and merging (merge.ts) *)

Definition is_union (t : InferredType) : bool :=
  match t with Union _ => true | _ => false end.

Definition is_unknown (t : InferredType) : bool :=
  match t with Unknown => true | _ => false end.

(** [v.kind === "primitive" && v.type === "null"] *)
Definition is_null (t : InferredType) : bool :=
  match t with Primitive PNull => true | _ => false end.

(** One iteration of the loop of [flattenUnions]: what is pushed for [t]. *)
Fixpoint flatten_one (t : InferredType) : list InferredType :=
  match t with
  | Union variants => flat_map flatten_one variants
  | _ => [t]
  end.

Definition flattenUnions (types : list InferredType) : list InferredType :=
  flat_map flatten_one types.

Definition deduplicateTypes (types : list InferredType) : list InferredType :=
  fold_left
    (fun result t =>
       if negb (existsb (fun r => typesEqual r t) result)
       then result ++ [t] else result)
    types [].

Definition mergeTypes (types : list InferredType) : InferredType :=
  match types with
  | [] => Unknown
  | _ =>
      let flat := flattenUnions types in
      let deduped := deduplicateTypes flat in
      let meaningful := List.filter (fun t => negb (is_unknown t)) deduped in
      let finalTypes :=
        if (0 <? length meaningful)%nat then meaningful else deduped in
      match finalTypes with
      | [t] => t
      | _ => Union finalTypes
      end
  end.

(** [allKeys.add(key)] on an insertion-ordered [Set]. *)
Definition set_add (s : list string) (k : string) : list string :=
  if existsb (String.eqb k) s then s else s ++ [k].

Definition collect_keys (objects : list ObjectType) : list string :=
  fold_left
    (fun allKeys obj => fold_left set_add (keys (properties obj)) allKeys)
    objects [].

(** The inner loop of [mergeObjectTypes] for one key:
    [(typesForKey, presentCount, nullableCount)]. *)
Definition scan_key (objects : list ObjectType) (key : string)
  : list InferredType * nat * nat :=
  fold_left
    (fun '(typesForKey, presentCount, nullableCount) obj =>
       match get_prop (properties obj) key with
       | Some prop =>
           (typesForKey ++ [type prop], S presentCount,
            if nullable prop then S nullableCount else nullableCount)
       | None => (typesForKey, presentCount, nullableCount)
       end)
    objects ([], 0%nat, 0%nat).

(** "If the merged type is a union containing null, separate it":
    [(finalType, finalNullable)]. *)
Definition separate_null (mergedType : InferredType) (isNullable : bool)
  : InferredType * bool :=
  match mergedType with
  | Union variants =>
      let nonNullVariants :=
        List.filter (fun v => negb (is_null v)) variants in
      let hasNullVariant := existsb is_null variants in
      if hasNullVariant then
        (match nonNullVariants with
         | [t] => t
         | [] => Primitive PNull
         | _ => Union nonNullVariants
         end, true)
      else (mergedType, isNullable)
  | _ => (mergedType, isNullable)
  end.

(** The body of the loop over [allKeys]: the merged property for [key]. *)
Definition merge_key (objects : list ObjectType) (key : string)
  : PropertyInfo :=
  let '(typesForKey, presentCount, nullableCount) := scan_key objects key in
  let totalObjects := length objects in
  let isOptional := (presentCount <? totalObjects)%nat in
  let isNullable := (0 <? nullableCount)%nat in
  let mergedType := mergeTypes typesForKey in
  let '(finalType, finalNullable) := separate_null mergedType isNullable in
  mkPropertyInfo finalType isOptional finalNullable.

Definition mergeObjectTypes (objects : list ObjectType) (typeName : string)
  : ObjectType :=
  match objects with
  | [] => mkObjectType [] typeName
  | [o] => mkObjectType (properties o) typeName
  | _ =>
      let allKeys := collect_keys objects in
      let mergedProperties :=
        fold_left
          (fun mergedProperties key =>
             set_prop mergedProperties key (merge_key objects key))
          allKeys [] in
      mkObjectType mergedProperties typeName
  end.

(** ** Regular expressions

    The patterns of the program ([ISO_DATE_REGEX], [isSnakeCase]) are
    anchored at both ends and use no back-reference, so [RegExp.test]
    decides membership in a regular language; it is computed here with
    Brzozowski derivatives. *)

Module Regex.

Inductive regex : Type :=
  | RNone
  | REps
  | RClass (p : ascii -> bool)
  | RSeq (r1 r2 : regex)
  | RAlt (r1 r2 : regex)
  | RStar (r : regex).

Fixpoint accepts_empty (r : regex) : bool :=
  match r with
  | RNone => false
  | REps => true
  | RClass _ => false
  | RSeq r1 r2 => accepts_empty r1 && accepts_empty r2
  | RAlt r1 r2 => accepts_empty r1 || accepts_empty r2
  | RStar _ => true
  end.

Fixpoint deriv (c : ascii) (r : regex) : regex :=
  match r with
  | RNone => RNone
  | REps => RNone
  | RClass p => if p c then REps else RNone
  | RSeq r1 r2 =>
      if accepts_empty r1
      then RAlt (RSeq (deriv c r1) r2) (deriv c r2)
      else RSeq (deriv c r1) r2
  | RAlt r1 r2 => RAlt (deriv c r1) (deriv c r2)
  | RStar r1 => RSeq (deriv c r1) (RStar r1)
  end.

(** [/^r$/.test(s)] *)
Fixpoint test (r : regex) (s : string) : bool :=
  match s with
  | EmptyString => accepts_empty r
  | String c s' => test (deriv c r) s'
  end.

Definition chr (c : ascii) : regex := RClass (Ascii.eqb c).
Definition opt (r : regex) : regex := RAlt r REps.
Definition plus (r : regex) : regex := RSeq r (RStar r).

Fixpoint rep (n : nat) (r : regex) : regex :=
  match n with
  | O => REps
  | S k => RSeq r (rep k r)
  end.

Fixpoint seq (l : list regex) : regex :=
  match l with
  | [] => REps
  | r :: l' => RSeq r (seq l')
  end.

End Regex.

(** ** Naming (naming.ts) *)

(** [str.replace(/([a-z])([A-Z])/g, "$1_$2")] *)
Fixpoint insert_humps (s : string) : string :=
  match s with
  | EmptyString => EmptyString
  | String a r =>
      match r with
      | String c r' =>
          if is_lower a && is_upper c
          then String a (String "_" (String c (insert_humps r')))
          else String a (insert_humps r)
      | EmptyString => String a EmptyString
      end
  end.

(** The separator class [[_\-\s]]. *)
Definition is_separator (c : ascii) : bool :=
  Ascii.eqb c "_" || Ascii.eqb c "-" || is_space c.

(** [str.split(/[_\-\s]+/)]: [cur] is the piece being read, [in_sep] says
    that the previous character belonged to a separator run. *)
Fixpoint split_from (cur : string) (in_sep : bool) (s : string)
  : list string :=
  match s with
  | EmptyString => [cur]
  | String c r =>
      if is_separator c
      then (if in_sep then split_from cur true r
            else cur :: split_from "" true r)
      else split_from (cur +:+ String c "") false r
  end.

Definition split_separators (s : string) : list string :=
  split_from "" false s.

(** [Boolean(s)] on a string. *)
Definition nonempty (s : string) : bool :=
  match s with EmptyString => false | _ => true end.

(** [word.charAt(0).toUpperCase() + word.slice(1).toLowerCase()] *)
Definition capitalize (word : string) : string :=
  match word with
  | EmptyString => ""
  | String c r => String (upper_char c) (toLowerCase r)
  end.

Definition toPascalCase (str : string) : string :=
  join "" (map capitalize
             (List.filter nonempty (split_separators (insert_humps str)))).

(** [NameGenerator.generate]; the generator's [usedNames] is passed in and
    returned. *)
Definition generate (pathSegments : list string) (usedNames : gmap string nat)
  : string * gmap string nat :=
  let base := join "" (map toPascalCase pathSegments) in
  let candidateName := or_default base "Root" in
  let count := default 0%nat (usedNames !! candidateName) in
  let usedNames' := <[candidateName := S count]> usedNames in
  if (count =? 0)%nat then (candidateName, usedNames')
  else (candidateName +:+ string_of_nat (count + 1), usedNames').

(** [NameGenerator.reset] *)
Definition reset (usedNames : gmap string nat) : gmap string nat := ∅.

(** [str.replace(/_([a-z])/g, (_, letter) => letter.toUpperCase())] *)
Fixpoint snakeToCamel (str : string) : string :=
  match str with
  | EmptyString => EmptyString
  | String a r =>
      match r with
      | String c r' =>
          if Ascii.eqb a "_" && is_lower c
          then String (upper_char c) (snakeToCamel r')
          else String a (snakeToCamel r)
      | EmptyString => String a EmptyString
      end
  end.

Definition is_lower_or_digit (c : ascii) : bool := is_lower c || is_digit c.

(** [/^[a-z][a-z0-9]*(_[a-z0-9]+)+$/] *)
Definition SNAKE_CASE_REGEX : Regex.regex :=
  Regex.seq
    [ Regex.RClass is_lower;
      Regex.RStar (Regex.RClass is_lower_or_digit);
      Regex.plus
        (Regex.RSeq (Regex.chr "_")
                    (Regex.plus (Regex.RClass is_lower_or_digit))) ].

Definition isSnakeCase (str : string) : bool :=
  Regex.test SNAKE_CASE_REGEX str.

(** ** Inference (infer.ts) *)

(** [/^\d{4}-\d{2}-\d{2}(T\d{2}:\d{2}(:\d{2}(\.\d+)?)?(Z|[+-]\d{2}:?\d{2})?)?$/] *)
Definition ISO_DATE_REGEX : Regex.regex :=
  let d := Regex.RClass is_digit in
  let sign := Regex.RAlt (Regex.chr "+") (Regex.chr "-") in
  Regex.seq
    [ Regex.rep 4 d; Regex.chr "-"; Regex.rep 2 d; Regex.chr "-";
      Regex.rep 2 d;
      Regex.opt
        (Regex.seq
           [ Regex.chr "T"; Regex.rep 2 d; Regex.chr ":"; Regex.rep 2 d;
             Regex.opt
               (Regex.seq
                  [ Regex.chr ":"; Regex.rep 2 d;
                    Regex.opt (Regex.RSeq (Regex.chr ".") (Regex.plus d)) ]);
             Regex.opt
               (Regex.RAlt (Regex.chr "Z")
                  (Regex.seq
                     [ sign; Regex.rep 2 d; Regex.opt (Regex.chr ":");
                       Regex.rep 2 d ])) ]) ].

(** The values [inferType] can be handed.  [VNumber] stands for any number;
    [VOther] for the values whose [typeof] is neither ["string"],
    ["number"], ["boolean"] nor ["object"] ([undefined], functions, ...).
    An object is the list of its own enumerable entries, keys distinct. *)
#[local] Unset Elimination Schemes.
Inductive Value : Type :=
  | VNull
  | VString (s : string)
  | VNumber
  | VBoolean (b : bool)
  | VArray (arr : list Value)
  | VObject (obj : list (string * Value))
  | VOther.
#[local] Set Elimination Schemes.

Record InferState : Type := mkInferState {
  st_diagnostics : list Diagnostic;
  st_usedNames : gmap string nat;
  st_fieldCount : nat
}.

(** [diagnostics.push(d)] *)
Definition push_diagnostic (d : Diagnostic) (st : InferState) : InferState :=
  mkInferState (st_diagnostics st ++ [d]) (st_usedNames st) (st_fieldCount st).

(** [nameGen.generate(segments)] *)
Definition nameGen_generate (segments : list string) (st : InferState)
  : string * InferState :=
  let '(name, used) := generate segments (st_usedNames st) in
  (name, mkInferState (st_diagnostics st) used (st_fieldCount st)).

(** [fieldCount++] *)
Definition incr_fieldCount (st : InferState) : InferState :=
  mkInferState (st_diagnostics st) (st_usedNames st) (S (st_fieldCount st)).

Definition dquote : string := String (ascii_of_nat 34) "".
Definition nl : string := String (ascii_of_nat 10) "".

(** [path.filter((p) => !p.startsWith("["))] *)
Definition name_segments (path : list string) : list string :=
  List.filter (fun p => negb (startsWith_bracket p)) path.

Definition as_object (t : InferredType) : option ObjectType :=
  match t with
  | Object props name => Some (mkObjectType props name)
  | _ => None
  end.

Section InferBody.

Variable settings : InferSettings.

(** The recursive reference to [infer] made by [inferArray] and
    [inferObject]. *)
Variable infer :
  Value -> list string -> InferState -> InferredType * InferState.

(** The [for] loop of [inferArray], from index [i] on. *)
Fixpoint infer_elements (path : list string) (i : nat)
  (objectElements : list ObjectType) (otherElements : list InferredType)
  (st : InferState) (arr : list Value) {struct arr}
  : list ObjectType * list InferredType * InferState :=
  match arr with
  | [] => (objectElements, otherElements, st)
  | v :: rest =>
      let '(elemType, st1) :=
        infer v (path ++ ["[" +:+ string_of_nat i +:+ "]"]) st in
      match as_object elemType with
      | Some o =>
          infer_elements path (S i) (objectElements ++ [o]) otherElements
            st1 rest
      | None =>
          infer_elements path (S i) objectElements
            (otherElements ++ [elemType]) st1 rest
      end
  end.

Definition inferArray_body (arr : list Value) (path : list string)
  (st : InferState) : InferredType * InferState :=
  match arr with
  | [] =>
      (Array Unknown,
       push_diagnostic
         (mkDiagnostic warning
            ("Empty array at " +:+ dquote
             +:+ or_default (join "." path) "root" +:+ dquote
             +:+ ". Defaulting to unknown[].")
            (join "." path)) st)
  | _ =>
      let '(objectElements, otherElements, st1) :=
        infer_elements path 0 [] [] st arr in
      if (length objectElements =? length arr)%nat then
        let '(itemName, st2) :=
          nameGen_generate (name_segments path ++ ["item"]) st1 in
        let mergedObj := mergeObjectTypes objectElements itemName in
        (Array (ObjectT mergedObj), st2)
      else if (length objectElements =? 0)%nat then
        let merged := mergeTypes otherElements in
        let st2 :=
          if is_union merged then
            push_diagnostic
              (mkDiagnostic warning
                 ("Mixed element types in array at " +:+ dquote
                  +:+ or_default (join "." path) "root" +:+ dquote +:+ ".")
                 (join "." path)) st1
          else st1 in
        (Array merged, st2)
      else
        let st2 :=
          push_diagnostic
            (mkDiagnostic warning
               ("Mixed element types (objects and primitives) in array at "
                +:+ dquote +:+ or_default (join "." path) "root" +:+ dquote
                +:+ ".")
               (join "." path)) st1 in
        let '(mergedObjects, st3) :=
          if (0 <? length objectElements)%nat then
            let '(itemName, st3) :=
              nameGen_generate (name_segments path ++ ["item"]) st2 in
            ([ObjectT (mergeObjectTypes objectElements itemName)], st3)
          else ([], st2) in
        let allTypes := otherElements ++ mergedObjects in
        (Array (mergeTypes allTypes), st3)
  end.

(** The [for] loop of [inferObject] over the entries of [obj]. *)
Fixpoint infer_properties (path : list string) (properties : PropertyMap)
  (st : InferState) (obj : list (string * Value)) {struct obj}
  : PropertyMap * InferState :=
  match obj with
  | [] => (properties, st)
  | (key, val) :: rest =>
      let st1 := incr_fieldCount st in
      let childPath := path ++ [key] in
      let '(childType, st2) := infer val childPath st1 in
      let prop :=
        if is_null childType
        then mkPropertyInfo Unknown false true
        else mkPropertyInfo childType false false in
      infer_properties path (set_prop properties key prop) st2 rest
  end.

Definition inferObject_body (obj : list (string * Value))
  (path : list string) (st : InferState) : ObjectType * InferState :=
  let '(properties, st1) := infer_properties path [] st obj in
  let '(typeName, st2) :=
    nameGen_generate
      (match path with
       | [] => [rootTypeName settings]
       | _ => name_segments path
       end) st1 in
  (mkObjectType properties typeName, st2).

End InferBody.

Fixpoint infer (settings : InferSettings) (val : Value) (path : list string)
  (st : InferState) {struct val} : InferredType * InferState :=
  match val with
  | VNull => (Primitive PNull, st)
  | VString s =>
      if detectDates settings && Regex.test ISO_DATE_REGEX s then
        (DateString,
         push_diagnostic
           (mkDiagnostic info
              ("Detected ISO date string at " +:+ dquote +:+ join "." path
               +:+ dquote)
              (join "." path)) st)
      else (Primitive PString, st)
  | VNumber => (Primitive PNumber, st)
  | VBoolean _ => (Primitive PBoolean, st)
  | VArray arr => inferArray_body (infer settings) arr path st
  | VObject obj =>
      let '(o, st') := inferObject_body settings (infer settings) obj path st in
      (ObjectT o, st')
  | VOther => (Unknown, st)
  end.

Definition inferArray (settings : InferSettings) :=
  inferArray_body (infer settings).


(** [typeof value !== "object" || value === null] *)
Definition root_rejected (value : Value) : bool :=
  match value with
  | VArray _ | VObject _ => false
  | _ => true
  end.

Definition initial_state : InferState := mkInferState [] ∅ 0.

Definition inferType (value : Value) (settings : InferSettings)
  : InferResult :=
  if root_rejected value then
    let st0 :=
      push_diagnostic
        (mkDiagnostic error "Root value must be an object or array." "")
        initial_state in
    let '(t, st) := infer settings value [] st0 in
    mkInferResult t (st_diagnostics st) (st_fieldCount st)
  else
    let '(rootType, st) := infer settings value [] initial_state in
    let rootType' :=
      match rootType with
      | Object props _ => Object props (rootTypeName settings)
      | _ => rootType
      end in
    mkInferResult rootType' (st_diagnostics st) (st_fieldCount st).

(** ** Emitters (generate/typescript.ts, zod.ts, example.ts) *)

Definition prim_name (k : PrimKind) : string :=
  match k with
  | PString => "string"
  | PNumber => "number"
  | PBoolean => "boolean"
  | PNull => "null"
  end.

(** [typeName.charAt(0).toLowerCase() + typeName.slice(1) + "Schema"] *)
Definition toSchemaName (typeName : string) : string :=
  match typeName with
  | EmptyString => "Schema"
  | String c r => String (lower_char c) r +:+ "Schema"
  end.

(** The key an emitter that honours [snakeToCamel] prints for [key]. *)
Definition tsKey_of (settings : GenerateSettings) (key : string) : string :=
  if gen_snakeToCamel settings && isSnakeCase key
  then snakeToCamel key else key.

(** [collectObjects] of the emitters: the [Object] nodes of a tree in
    depth-first discovery order. *)
Fixpoint collectObjects (t : InferredType) : list ObjectType :=
  match t with
  | Object props name =>
      mkObjectType props name
      :: flat_map (fun kp => collectObjects (type (snd kp))) props
  | Array elementType => collectObjects elementType
  | Union variants => flat_map collectObjects variants
  | _ => []
  end.

(** *** Declarations *)

Fixpoint typeToTS (t : InferredType) (settings : GenerateSettings) : string :=
  match t with
  | Primitive k => prim_name k
  | Unknown => "unknown"
  | DateString => "string"
  | Array elementType =>
      let inner := typeToTS elementType settings in
      if is_union elementType then "(" +:+ inner +:+ ")[]"
      else inner +:+ "[]"
  | Union variants =>
      join " | " (map (fun v => typeToTS v settings) variants)
  | Object _ typeName => typeName
  end.

(** The [fields] array of [generateObjectDeclaration]. *)
Definition declaration_fields (obj : ObjectType) (settings : GenerateSettings)
  : list string :=
  map (fun '(key, prop) =>
         let tsKey := tsKey_of settings key in
         let tsType := typeToTS (type prop) settings in
         let nullable_s := if nullable prop then " | null" else "" in
         let optional_s := if optional prop then "?" else "" in
         "  " +:+ tsKey +:+ optional_s +:+ ": " +:+ tsType +:+ nullable_s
         +:+ ";")
      (properties obj).

(** The [snakeConversions] array of [generateObjectDeclaration]. *)
Definition snakeConversions (obj : ObjectType) (settings : GenerateSettings)
  : list string :=
  flat_map (fun '(key, _) =>
              if gen_snakeToCamel settings && isSnakeCase key
              then ["  // " +:+ dquote +:+ snakeToCamel key +:+ dquote
                    +:+ " maps to JSON key " +:+ dquote +:+ key +:+ dquote]
              else [])
           (properties obj).

Definition generateObjectDeclaration (obj : ObjectType)
  (settings : GenerateSettings) : string :=
  let fields := declaration_fields obj settings in
  let conversions := snakeConversions obj settings in
  let comment :=
    if (0 <? length conversions)%nat
    then "/**" +:+ nl +:+ join nl conversions +:+ nl +:+ " */" +:+ nl
    else "" in
  match outputStyle settings with
  | StyleInterface =>
      comment +:+ "export interface " +:+ typeName obj +:+ " {" +:+ nl
      +:+ join nl fields +:+ nl +:+ "}"
  | StyleType =>
      comment +:+ "export type " +:+ typeName obj +:+ " = {" +:+ nl
      +:+ join nl fields +:+ nl +:+ "};"
  end.

(** *** Schemas *)

Fixpoint typeToZod (t : InferredType) (settings : GenerateSettings) : string :=
  match t with
  | Primitive PString => "z.string()"
  | Primitive PNumber => "z.number()"
  | Primitive PBoolean => "z.boolean()"
  | Primitive PNull => "z.null()"
  | Unknown => "z.unknown()"
  | DateString =>
      if gen_detectDates settings then "z.string().datetime()"
      else "z.string()"
  | Array elementType => "z.array(" +:+ typeToZod elementType settings +:+ ")"
  | Union variants =>
      let vs := map (fun v => typeToZod v settings) variants in
      if (length vs =? 2)%nat then "z.union([" +:+ join ", " vs +:+ "])"
      else "z.union([" +:+ join ", " vs +:+ "])"
  | Object _ typeName => toSchemaName typeName
  end.

(** The [fields] array of [generateObjectSchema]. *)
Definition schema_fields (obj : ObjectType) (settings : GenerateSettings)
  : list string :=
  map (fun '(key, prop) =>
         let zodType := typeToZod (type prop) settings in
         let zodType :=
           if nullable prop then zodType +:+ ".nullable()" else zodType in
         let zodType :=
           if optional prop then zodType +:+ ".optional()" else zodType in
         "  " +:+ key +:+ ": " +:+ zodType +:+ ",")
      (properties obj).

Definition generateObjectSchema (obj : ObjectType)
  (settings : GenerateSettings) : string :=
  let fields := schema_fields obj settings in
  let strict := if strictObjects settings then ".strict()" else "" in
  let schemaName := toSchemaName (typeName obj) in
  "export const " +:+ schemaName +:+ " = z.object({" +:+ nl
  +:+ join nl fields +:+ nl +:+ "})" +:+ strict +:+ ";".

(** *** Examples

    [generateValue] throws on a [Union] without variants (it reads
    [variants[0].kind]); [None] stands for that exception. *)

(** [f(l.find(p))], [d] when nothing is found. *)
Fixpoint find_with {A R : Type} (f : A -> R) (d : R) (p : A -> bool)
  (l : list A) : R :=
  match l with
  | [] => d
  | x :: r => if p x then f x else find_with f d p r
  end.

(** [l.map(f)] where [f] may throw. *)
Fixpoint map_throwing {A B : Type} (f : A -> option B) (l : list A)
  : option (list B) :=
  match l with
  | [] => Some []
  | x :: r =>
      match f x with
      | Some y =>
          match map_throwing f r with
          | Some ys => Some (y :: ys)
          | None => None
          end
      | None => None
      end
  end.

Fixpoint generateValue (t : InferredType) (settings : GenerateSettings)
  (indent : nat) {struct t} : option string :=
  let pad := repeat_string "  " indent in
  let innerPad := repeat_string "  " (indent + 1) in
  match t with
  | Primitive PString => Some (dquote +:+ dquote)
  | Primitive PNumber => Some "0"
  | Primitive PBoolean => Some "false"
  | Primitive PNull => Some "null"
  | Unknown => Some "undefined"
  | DateString => Some (dquote +:+ "2025-01-01T00:00:00.000Z" +:+ dquote)
  | Array elementType =>
      match generateValue elementType settings indent with
      | Some v => Some ("[" +:+ v +:+ "]")
      | None => None
      end
  | Union variants =>
      find_with (fun nonNull => generateValue nonNull settings indent)
        (match variants with
         | v0 :: _ => generateValue v0 settings indent
         | [] => None
         end)
        (fun v => negb (is_null v)) variants
  | Object props _ =>
      match props with
      | [] => Some "{}"
      | _ =>
          match
            map_throwing
              (fun '(key, prop) =>
                 let tsKey := tsKey_of settings key in
                 match
                   (if nullable prop then Some "null"
                    else generateValue (type prop) settings (indent + 1))
                 with
                 | Some val =>
                     Some (innerPad +:+ tsKey +:+ ": " +:+ val +:+ ",")
                 | None => None
                 end)
              props
          with
          | Some fields =>
              Some ("{" +:+ nl +:+ join nl fields +:+ nl +:+ pad +:+ "}")
          | None => None
          end
      end
  end.

(** *** Whole outputs

    [generateTypeScript], [generateZod] and [generateExample] hand their
    text to the formatter; what is modelled is the array [lines] and the
    string [raw] they build before that. *)

(** The loop [for (const obj of reversed)] with [render] as its body. *)
Definition emit_reversed (render : ObjectType -> string)
  (objects : list ObjectType) : list string :=
  flat_map (fun obj => [render obj; ""]) (rev objects).

Definition generateTypeScript_lines (t : InferredType)
  (settings : GenerateSettings) : list string :=
  match t with
  | Object _ _ =>
      emit_reversed (fun obj => generateObjectDeclaration obj settings)
        (collectObjects t)
  | Array elementType =>
      emit_reversed (fun obj => generateObjectDeclaration obj settings)
        (collectObjects t)
      ++ ["export type " +:+ gen_rootTypeName settings +:+ " = "
          +:+ typeToTS elementType settings +:+ "[];"; ""]
  | _ =>
      ["export type " +:+ gen_rootTypeName settings +:+ " = "
       +:+ typeToTS t settings +:+ ";"; ""]
  end.

Definition generateTypeScript_raw (t : InferredType)
  (settings : GenerateSettings) : string :=
  join nl (generateTypeScript_lines t settings).

Definition generateZod_lines (t : InferredType) (settings : GenerateSettings)
  : list string :=
  let rootSchemaName := toSchemaName (gen_rootTypeName settings) in
  let inferred :=
    "export type " +:+ gen_rootTypeName settings +:+ " = z.infer<typeof "
    +:+ rootSchemaName +:+ ">;" in
  ["import { z } from " +:+ dquote +:+ "zod" +:+ dquote +:+ ";"; ""]
  ++ match t with
     | Object _ _ =>
         emit_reversed (fun obj => generateObjectSchema obj settings)
           (collectObjects t)
         ++ [inferred; ""]
     | Array elementType =>
         emit_reversed (fun obj => generateObjectSchema obj settings)
           (collectObjects t)
         ++ ["export const " +:+ rootSchemaName +:+ " = z.array("
             +:+ typeToZod elementType settings +:+ ");"; "";
             inferred; ""]
     | _ =>
         ["export const " +:+ rootSchemaName +:+ " = "
          +:+ typeToZod t settings +:+ ";"; "";
          inferred; ""]
     end.

Definition generateZod_raw (t : InferredType) (settings : GenerateSettings)
  : string :=
  join nl (generateZod_lines t settings).

Definition generateExample_lines (t : InferredType)
  (settings : GenerateSettings) : option (list string) :=
  let rootName := gen_rootTypeName settings in
  let rootSchemaName := toSchemaName rootName in
  match generateValue t settings 0 with
  | Some exampleValue =>
      Some
        [ "// Import your generated types and schemas:";
          "// import type { " +:+ rootName +:+ " } from " +:+ dquote
          +:+ "./types" +:+ dquote +:+ ";";
          "// import { " +:+ rootSchemaName +:+ " } from " +:+ dquote
          +:+ "./schema" +:+ dquote +:+ ";";
          "";
          "// Using TypeScript type directly:";
          "const example: " +:+ rootName +:+ " = " +:+ exampleValue +:+ ";";
          "";
          "// Using Zod inferred type (equivalent):";
          "// type " +:+ rootName +:+ "Inferred = z.infer<typeof "
          +:+ rootSchemaName +:+ ">;";
          "";
          "// Validating at runtime:";
          "// const parsed = " +:+ rootSchemaName +:+ ".parse(example);";
          "// const safeParsed = " +:+ rootSchemaName
          +:+ ".safeParse(example);";
          "" ]
  | None => None
  end.

Definition generateExample_raw (t : InferredType) (settings : GenerateSettings)
  : option string :=
  match generateExample_lines t settings with
  | Some lines => Some (join nl lines)
  | None => None
  end.

(** ** Parsing (parse.ts)

    [parseJSON] itself rests on [JSON.parse] and on the wording of its
    error messages; what is modelled is [positionToLineCol], the part that
    is the program's own.  A position is a natural number, as [parseInt]
    of a run of digits gives it. *)

(** The loop of [positionToLineCol]: [pos] counts the iterations that the
    bound [i < pos] still allows, [input] is what is left from index [i]. *)
Fixpoint scan_position (input : string) (pos line column : nat) : nat * nat :=
  match input, pos with
  | String c rest, S pos' =>
      if Ascii.eqb c (ascii_of_nat 10)
      then scan_position rest pos' (S line) 1
      else scan_position rest pos' line (S column)
  | _, _ => (line, column)
  end.

(** [positionToLineCol(input, pos)] as the pair [(line, column)]. *)
Definition positionToLineCol (input : string) (pos : nat) : nat * nat :=
  scan_position input pos 1 1.

(** ** The run of the code on property objects

    A property object of the program is a plain JavaScript object: a
    read [o[k]] that finds no own property goes on to [Object.prototype],
    an assignment [o["__proto__"] = p] replaces the prototype instead of
    recording a property, and own keys that are array indices are
    enumerated first, in ascending order.  The definitions of this
    section follow the code through these cases; on keys that are none of
    them they agree with the definitions above.  A property object is
    represented by its own properties in enumeration order and has
    [Object.prototype] as its prototype. *)

(** The own property names of [Object.prototype]. *)
Definition prototype_members : list string :=
  ["constructor"; "__defineGetter__"; "__defineSetter__"; "hasOwnProperty";
   "__lookupGetter__"; "__lookupSetter__"; "isPrototypeOf";
   "propertyIsEnumerable"; "toString"; "valueOf"; "__proto__";
   "toLocaleString"].

Definition is_inherited (k : string) : bool :=
  existsb (String.eqb k) prototype_members.

(** The number written by a string of digits, read after [acc]. *)
Fixpoint digits_value (acc : N) (s : string) : option N :=
  match s with
  | EmptyString => Some acc
  | String c r =>
      if is_digit c
      then digits_value (10 * acc + N.of_nat (nat_of_ascii c - 48)) r
      else None
  end.

(** [k] as an array index: the canonical numeral of an integer from 0 to
    2^32 - 2. *)
Definition array_index (k : string) : option N :=
  match k with
  | EmptyString => None
  | String c r =>
      if Ascii.eqb c "0"
      then match r with EmptyString => Some 0%N | _ => None end
      else match digits_value 0 k with
           | Some n => if (n <=? 4294967294)%N then Some n else None
           | None => None
           end
  end.

Definition is_array_index (k : string) : bool :=
  match array_index k with Some _ => true | None => false end.

(** A key on which a plain object behaves as a map: it is not named like a
    member of [Object.prototype] and is no array index. *)
Definition plain_key (k : string) : bool :=
  negb (is_inherited k) && negb (is_array_index k).

(** No key of the objects is named like a member of [Object.prototype]. *)
Definition own_named (objects : list ObjectType) : bool :=
  forallb
    (fun o => forallb (fun k => negb (is_inherited k)) (keys (properties o)))
    objects.

(** Every key of the objects is plain. *)
Definition plain_objects (objects : list ObjectType) : bool :=
  forallb (fun o => forallb plain_key (keys (properties o))) objects.

(** Every key of every [Object] node of the tree is plain. *)
Fixpoint plain_type (t : InferredType) : bool :=
  match t with
  | Object props _ =>
      forallb (fun kp => plain_key (fst kp) && plain_type (type (snd kp)))
        props
  | Array e => plain_type e
  | Union vs => forallb plain_type vs
  | _ => true
  end.

(** Every key of every object of the value is plain. *)
Fixpoint plain_value (v : Value) : bool :=
  match v with
  | VArray arr => forallb plain_value arr
  | VObject obj =>
      forallb (fun kv => plain_key (fst kv) && plain_value (snd kv)) obj
  | _ => true
  end.

(** How a call ends: it returns, it throws a [TypeError], or it replaces
    the prototype of a property object, beyond which the run is not
    followed. *)
Inductive Outcome (A : Type) : Type :=
  | Returns (a : A)
  | Throws
  | Beyond.
Arguments Returns {A} _.
Arguments Throws {A}.
Arguments Beyond {A}.

Definition bind {A B : Type} (x : Outcome A) (f : A -> Outcome B)
  : Outcome B :=
  match x with
  | Returns a => f a
  | Throws => Throws
  | Beyond => Beyond
  end.

(** What [o[k]] finds on a property object. *)
Inductive Looked : Type :=
  | Own (prop : PropertyInfo)
  | Inherited
  | Undefined.

(** [m[key]] through the prototype chain: an own property, else a member
    of [Object.prototype] (a function, or the prototype itself for
    [__proto__]: truthy, without [type] and [nullable]), else
    [undefined]. *)
Definition js_lookup (m : PropertyMap) (key : string) : Looked :=
  match get_prop m key with
  | Some prop => Own prop
  | None => if is_inherited key then Inherited else Undefined
  end.

(** Where a new own property is enumerated: an array index before the
    first key that is no array index or a larger one, any other key
    last. *)
Fixpoint js_insert {V : Type} (m : list (string * V)) (k : string) (v : V)
  : list (string * V) :=
  match m with
  | [] => [(k, v)]
  | (k', v') :: r =>
      match array_index k, array_index k' with
      | Some n, Some n' =>
          if (n <? n')%N then (k, v) :: m else (k', v') :: js_insert r k v
      | Some _, None => (k, v) :: m
      | None, _ => (k', v') :: js_insert r k v
      end
  end.

(** [m[k] = v] for a key other than [__proto__]. *)
Definition js_set {V : Type} (m : list (string * V)) (k : string) (v : V)
  : list (string * V) :=
  if existsb (String.eqb k) (keys m) then set_prop m k v else js_insert m k v.

(** [m[k] = v] where [v] is an object. *)
Definition js_assign {V : Type} (m : list (string * V)) (k : string) (v : V)
  : Outcome (list (string * V)) :=
  if String.eqb k "__proto__" then Beyond else Returns (js_set m k v).

(** [flattenUnions] on an array that may hold [undefined] ([None]):
    reading [t.kind] throws there. *)
Fixpoint js_flattenUnions (types : list (option InferredType))
  : Outcome (list InferredType) :=
  match types with
  | [] => Returns []
  | None :: _ => Throws
  | Some t :: rest =>
      bind (js_flattenUnions rest)
        (fun flat => Returns (flatten_one t ++ flat))
  end.

Definition js_mergeTypes (types : list (option InferredType))
  : Outcome InferredType :=
  match types with
  | [] => Returns Unknown
  | _ =>
      bind (js_flattenUnions types)
        (fun flat =>
           let deduped := deduplicateTypes flat in
           let meaningful :=
             List.filter (fun t => negb (is_unknown t)) deduped in
           let finalTypes :=
             if (0 <? length meaningful)%nat then meaningful else deduped in
           Returns
             match finalTypes with
             | [t] => t
             | _ => Union finalTypes
             end)
  end.

(** The inner loop of [mergeObjectTypes] for one key, [prop.type] being
    [undefined] for an inherited member. *)
Definition js_scan_key (objects : list ObjectType) (key : string)
  : list (option InferredType) * nat * nat :=
  fold_left
    (fun '(typesForKey, presentCount, nullableCount) obj =>
       match js_lookup (properties obj) key with
       | Own prop =>
           (typesForKey ++ [Some (type prop)], S presentCount,
            if nullable prop then S nullableCount else nullableCount)
       | Inherited => (typesForKey ++ [None], S presentCount, nullableCount)
       | Undefined => (typesForKey, presentCount, nullableCount)
       end)
    objects ([], 0%nat, 0%nat).

Definition js_merge_key (objects : list ObjectType) (key : string)
  : Outcome PropertyInfo :=
  let '(typesForKey, presentCount, nullableCount) :=
    js_scan_key objects key in
  let totalObjects := length objects in
  let isOptional := (presentCount <? totalObjects)%nat in
  let isNullable := (0 <? nullableCount)%nat in
  bind (js_mergeTypes typesForKey)
    (fun mergedType =>
       let '(finalType, finalNullable) :=
         separate_null mergedType isNullable in
       Returns (mkPropertyInfo finalType isOptional finalNullable)).

Definition js_mergeObjectTypes (objects : list ObjectType) (typeName : string)
  : Outcome ObjectType :=
  match objects with
  | [] => Returns (mkObjectType [] typeName)
  | [o] => Returns (mkObjectType (properties o) typeName)
  | _ =>
      let allKeys := collect_keys objects in
      bind
        (fold_left
           (fun acc key =>
              bind acc
                (fun mergedProperties =>
                   bind (js_merge_key objects key)
                     (fun prop => js_assign mergedProperties key prop)))
           allKeys (Returns []))
        (fun mergedProperties =>
           Returns (mkObjectType mergedProperties typeName))
  end.

Section JsInferBody.

Variable settings : InferSettings.

Variable infer :
  Value -> list string -> InferState -> Outcome (InferredType * InferState).

Fixpoint js_infer_elements (path : list string) (i : nat)
  (objectElements : list ObjectType) (otherElements : list InferredType)
  (st : InferState) (arr : list Value) {struct arr}
  : Outcome (list ObjectType * list InferredType * InferState) :=
  match arr with
  | [] => Returns (objectElements, otherElements, st)
  | v :: rest =>
      bind (infer v (path ++ ["[" +:+ string_of_nat i +:+ "]"]) st)
        (fun '(elemType, st1) =>
           match as_object elemType with
           | Some o =>
               js_infer_elements path (S i) (objectElements ++ [o])
                 otherElements st1 rest
           | None =>
               js_infer_elements path (S i) objectElements
                 (otherElements ++ [elemType]) st1 rest
           end)
  end.

Definition js_inferArray_body (arr : list Value) (path : list string)
  (st : InferState) : Outcome (InferredType * InferState) :=
  match arr with
  | [] =>
      Returns
        (Array Unknown,
         push_diagnostic
           (mkDiagnostic warning
              ("Empty array at " +:+ dquote
               +:+ or_default (join "." path) "root" +:+ dquote
               +:+ ". Defaulting to unknown[].")
              (join "." path)) st)
  | _ =>
      bind (js_infer_elements path 0 [] [] st arr)
        (fun '(objectElements, otherElements, st1) =>
           if (length objectElements =? length arr)%nat then
             let '(itemName, st2) :=
               nameGen_generate (name_segments path ++ ["item"]) st1 in
             bind (js_mergeObjectTypes objectElements itemName)
               (fun mergedObj => Returns (Array (ObjectT mergedObj), st2))
           else if (length objectElements =? 0)%nat then
             bind (js_mergeTypes (map Some otherElements))
               (fun merged =>
                  let st2 :=
                    if is_union merged then
                      push_diagnostic
                        (mkDiagnostic warning
                           ("Mixed element types in array at " +:+ dquote
                            +:+ or_default (join "." path) "root" +:+ dquote
                            +:+ ".")
                           (join "." path)) st1
                    else st1 in
                  Returns (Array merged, st2))
           else
             let st2 :=
               push_diagnostic
                 (mkDiagnostic warning
                    ("Mixed element types (objects and primitives) in array at "
                     +:+ dquote +:+ or_default (join "." path) "root"
                     +:+ dquote +:+ ".")
                    (join "." path)) st1 in
             bind
               (if (0 <? length objectElements)%nat then
                  let '(itemName, st3) :=
                    nameGen_generate (name_segments path ++ ["item"]) st2 in
                  bind (js_mergeObjectTypes objectElements itemName)
                    (fun mergedObj => Returns ([ObjectT mergedObj], st3))
                else Returns ([], st2))
               (fun '(mergedObjects, st3) =>
                  bind (js_mergeTypes (map Some (otherElements ++ mergedObjects)))
                    (fun merged => Returns (Array merged, st3))))
  end.

Fixpoint js_infer_properties (path : list string) (properties : PropertyMap)
  (st : InferState) (obj : list (string * Value)) {struct obj}
  : Outcome (PropertyMap * InferState) :=
  match obj with
  | [] => Returns (properties, st)
  | (key, val) :: rest =>
      let st1 := incr_fieldCount st in
      let childPath := path ++ [key] in
      bind (infer val childPath st1)
        (fun '(childType, st2) =>
           let prop :=
             if is_null childType
             then mkPropertyInfo Unknown false true
             else mkPropertyInfo childType false false in
           bind (js_assign properties key prop)
             (fun properties' =>
                js_infer_properties path properties' st2 rest))
  end.

Definition js_inferObject_body (obj : list (string * Value))
  (path : list string) (st : InferState) : Outcome (ObjectType * InferState) :=
  bind (js_infer_properties path [] st obj)
    (fun '(properties, st1) =>
       let '(typeName, st2) :=
         nameGen_generate
           (match path with
            | [] => [rootTypeName settings]
            | _ => name_segments path
            end) st1 in
       Returns (mkObjectType properties typeName, st2)).

End JsInferBody.

Fixpoint js_infer (settings : InferSettings) (val : Value)
  (path : list string) (st : InferState) {struct val}
  : Outcome (InferredType * InferState) :=
  match val with
  | VNull => Returns (Primitive PNull, st)
  | VString s =>
      if detectDates settings && Regex.test ISO_DATE_REGEX s then
        Returns
          (DateString,
           push_diagnostic
             (mkDiagnostic info
                ("Detected ISO date string at " +:+ dquote +:+ join "." path
                 +:+ dquote)
                (join "." path)) st)
      else Returns (Primitive PString, st)
  | VNumber => Returns (Primitive PNumber, st)
  | VBoolean _ => Returns (Primitive PBoolean, st)
  | VArray arr => js_inferArray_body (js_infer settings) arr path st
  | VObject obj =>
      bind (js_inferObject_body settings (js_infer settings) obj path st)
        (fun '(o, st') => Returns (ObjectT o, st'))
  | VOther => Returns (Unknown, st)
  end.



Definition js_inferType (value : Value) (settings : InferSettings)
  : Outcome InferResult :=
  if root_rejected value then
    let st0 :=
      push_diagnostic
        (mkDiagnostic error "Root value must be an object or array." "")
        initial_state in
    bind (js_infer settings value [] st0)
      (fun '(t, st) =>
         Returns (mkInferResult t (st_diagnostics st) (st_fieldCount st)))
  else
    bind (js_infer settings value [] initial_state)
      (fun '(rootType, st) =>
         let rootType' :=
           match rootType with
           | Object props _ => Object props (rootTypeName settings)
           | _ => rootType
           end in
         Returns
           (mkInferResult rootType' (st_diagnostics st) (st_fieldCount st))).

(** ** Induction principles for the nested types *)

Section InferredType_induction.

Variable P : InferredType -> Prop.
Hypothesis P_primitive : forall k, P (Primitive k).
Hypothesis P_array : forall e, P e -> P (Array e).
Hypothesis P_object :
  forall props name,
    Forall (fun kp => P (type (snd kp))) props -> P (Object props name).
Hypothesis P_union : forall vs, Forall P vs -> P (Union vs).
Hypothesis P_unknown : P Unknown.
Hypothesis P_date : P DateString.

Fixpoint InferredType_ind (t : InferredType) : P t :=
  match t with
  | Primitive k => P_primitive k
  | Array e => P_array e (InferredType_ind e)
  | Object props name =>
      P_object props name
        ((fix go (l : PropertyMap)
            : Forall (fun kp => P (type (snd kp))) l :=
            match l with
            | [] => @List.Forall_nil _ _
            | kp :: r =>
                @List.Forall_cons _ _ kp r
                  (InferredType_ind (type (snd kp))) (go r)
            end) props)
  | Union vs =>
      P_union vs
        ((fix go (l : list InferredType) : Forall P l :=
            match l with
            | [] => @List.Forall_nil _ _
            | v :: r => @List.Forall_cons _ _ v r (InferredType_ind v) (go r)
            end) vs)
  | Unknown => P_unknown
  | DateString => P_date
  end.

End InferredType_induction.

Section Value_induction.

Variable P : Value -> Prop.
Hypothesis P_null : P VNull.
Hypothesis P_string : forall s, P (VString s).
Hypothesis P_number : P VNumber.
Hypothesis P_boolean : forall b, P (VBoolean b).
Hypothesis P_varray : forall arr, Forall P arr -> P (VArray arr).
Hypothesis P_vobject :
  forall obj, Forall (fun kv => P (snd kv)) obj -> P (VObject obj).
Hypothesis P_other : P VOther.

Fixpoint Value_ind (v : Value) : P v :=
  match v with
  | VNull => P_null
  | VString s => P_string s
  | VNumber => P_number
  | VBoolean b => P_boolean b
  | VArray arr =>
      P_varray arr
        ((fix go (l : list Value) : Forall P l :=
            match l with
            | [] => @List.Forall_nil _ _
            | x :: r => @List.Forall_cons _ _ x r (Value_ind x) (go r)
            end) arr)
  | VObject obj =>
      P_vobject obj
        ((fix go (l : list (string * Value))
            : Forall (fun kv => P (snd kv)) l :=
            match l with
            | [] => @List.Forall_nil _ _
            | kv :: r => @List.Forall_cons _ _ kv r (Value_ind (snd kv)) (go r)
            end) obj)
  | VOther => P_other
  end.

End Value_induction.

(** ** Views of the loops

    Names for intermediate values of the source functions, used to state
    what the loops compute. *)

Definition dedupe_step (result : list InferredType) (t : InferredType)
  : list InferredType :=
  if negb (existsb (fun r => typesEqual r t) result)
  then result ++ [t] else result.

(** The list [finalTypes] of [mergeTypes]. *)
Definition finalTypes (types : list InferredType) : list InferredType :=
  let deduped := deduplicateTypes (flattenUnions types) in
  let meaningful := List.filter (fun t => negb (is_unknown t)) deduped in
  if (0 <? length meaningful)%nat then meaningful else deduped.

(** The properties recorded under [key] by the objects that have it. *)
Definition occurrences (objects : list ObjectType) (key : string)
  : list PropertyInfo :=
  flat_map
    (fun obj =>
       match get_prop (properties obj) key with
       | Some prop => [prop]
       | None => []
       end) objects.

(** The number of objects of the list that have [key]. *)
Definition present_in (objects : list ObjectType) (key : string) : nat :=
  length
    (List.filter
       (fun obj => existsb (String.eqb key) (keys (properties obj))) objects).

(** [typesForKey] as the inner loop of [mergeObjectTypes] leaves it. *)
Definition typesForKey (objects : list ObjectType) (key : string)
  : list InferredType :=
  fst (fst (scan_key objects key)).

(** The collapse of the non-null variants made by [mergeObjectTypes]. *)
Definition collapse (nonNullVariants : list InferredType) : InferredType :=
  match nonNullVariants with
  | [] => Primitive PNull
  | [t] => t
  | _ => Union nonNullVariants
  end.

(** The candidate name [generate] derives from a path. *)
Definition candidate_of (pathSegments : list string) : string :=
  or_default (join "" (map toPascalCase pathSegments)) "Root".

(** One entry of the [fields] array of [generateValue] (object case). *)
Definition example_field (settings : GenerateSettings) (indent : nat)
  (kp : string * PropertyInfo) : option string :=
  let '(key, prop) := kp in
  match
    (if nullable prop then Some "null"
     else generateValue (type prop) settings (indent + 1))
  with
  | Some val =>
      Some (repeat_string "  " (indent + 1) +:+ tsKey_of settings key +:+ ": "
            +:+ val +:+ ",")
  | None => None
  end.

(** The key the declaration and example emitters print under
    [snakeToCamel = true]. *)
Definition rewritten_key (key : string) : string :=
  if isSnakeCase key then snakeToCamel key else key.

(** The annotation of the declaration emitter for a rewritten key. *)
Definition key_annotation (key : string) : string :=
  "  // " +:+ dquote +:+ snakeToCamel key +:+ dquote
  +:+ " maps to JSON key " +:+ dquote +:+ key +:+ dquote.

(** What [infer] answers for a value that is neither. *)
Definition best_effort (settings : InferSettings) (value : Value)
  : InferredType :=
  match value with
  | VNull => Primitive PNull
  | VString s =>
      if detectDates settings && Regex.test ISO_DATE_REGEX s
      then DateString else Primitive PString
  | VNumber => Primitive PNumber
  | VBoolean _ => Primitive PBoolean
  | _ => Unknown
  end.

(** [settings] with [snakeToCamel] set to [b]. *)
Definition with_snakeToCamel (settings : GenerateSettings) (b : bool)
  : GenerateSettings :=
  mkGenerateSettings (gen_rootTypeName settings) (outputStyle settings)
    (strictObjects settings) (gen_detectDates settings) b.

(** ** Predicates of the specification *)

Definition props_equal (aprops bprops : PropertyMap) : Prop :=
  sort_strings (keys aprops) = sort_strings (keys bprops)
  /\ forall k, In k (keys aprops) ->
       exists pa pb,
         get_prop aprops k = Some pa /\ get_prop bprops k = Some pb
         /\ typesEqual (type pa) (type pb) = true.

(** The variants are pairwise structurally distinct. *)
Fixpoint pairwise_distinct (l : list InferredType) : bool :=
  match l with
  | [] => true
  | x :: r =>
      forallb (fun y => negb (typesEqual x y)) r && pairwise_distinct r
  end.

(** No variant is itself a [Union]. *)
Definition flat_variants (l : list InferredType) : bool :=
  forallb (fun v => negb (is_union v)) l.

(** Every [Union] node of the tree has flat, pairwise distinct variants. *)
Fixpoint normalized (t : InferredType) : bool :=
  match t with
  | Union vs =>
      flat_variants vs && pairwise_distinct vs && forallb normalized vs
  | Array e => normalized e
  | Object props _ => forallb (fun kp => normalized (type (snd kp))) props
  | _ => true
  end.

(** Every [Union] node of the tree has at least one variant. *)
Fixpoint unions_nonempty (t : InferredType) : bool :=
  match t with
  | Union vs =>
      match vs with [] => false | _ => true end && forallb unions_nonempty vs
  | Array e => unions_nonempty e
  | Object props _ => forallb (fun kp => unions_nonempty (type (snd kp))) props
  | _ => true
  end.



(** No property of any of the objects is marked optional. *)
Definition all_required (objects : list ObjectType) : bool :=
  forallb
    (fun obj => forallb (fun kp => negb (optional (snd kp))) (properties obj))
    objects.

Definition is_error (d : Diagnostic) : bool :=
  match level d with error => true | _ => false end.

(** The diagnostics contain an error-level entry. *)
Definition has_error (ds : list Diagnostic) : bool := existsb is_error ds.

(** The outermost shape of the value is an Object or an Array. *)
Definition is_object_or_array (value : Value) : bool :=
  match value with
  | VObject _ | VArray _ => true
  | _ => false
  end.

(** An underscore stands in front of a lowercase letter somewhere in [s]. *)
Fixpoint has_snake_joint (s : string) : bool :=
  match s with
  | EmptyString => false
  | String a r =>
      match r with
      | String c _ => Ascii.eqb a "_" && is_lower c
      | EmptyString => false
      end || has_snake_joint r
  end.

(** A property as [inferObject] records it. *)
Definition fresh_property (Q : InferredType -> Prop) (p : PropertyInfo)
  : Prop :=
  p = mkPropertyInfo Unknown false true
  \/ (Q (type p) /\ is_null (type p) = false /\ is_union (type p) = false
      /\ optional p = false /\ nullable p = false).

(** What is shown of a result of [infer]: its type satisfies [Q] and is no
    [Union], its state satisfies [I]. *)
Definition good_result (Q : InferredType -> Prop) (I : InferState -> Prop)
  (r : InferredType * InferState) : Prop :=
  Q (fst r) /\ is_union (fst r) = false /\ I (snd r).

Definition good_value_for (settings : InferSettings)
  (Q : InferredType -> Prop) (I : InferState -> Prop) (v : Value) : Prop :=
  forall segments st, I st -> good_result Q I (infer settings v segments st).

(** ** Further views and predicates *)

(** No character of [s] is a line feed. *)
Fixpoint no_newline (s : string) : bool :=
  match s with
  | EmptyString => true
  | String c r => negb (Ascii.eqb c (ascii_of_nat 10)) && no_newline r
  end.

(** The text made of the lines [ls], each closed by a line feed. *)
Fixpoint concat_lines (ls : list string) : string :=
  match ls with
  | [] => ""
  | l :: r => l +:+ nl +:+ concat_lines r
  end.

(** Every leaf of the tree (a [Primitive], [Unknown] or [DateString]
    node) satisfies [p]. *)
Fixpoint leaves_satisfy (p : InferredType -> bool) (t : InferredType) : bool :=
  match t with
  | Array e => leaves_satisfy p e
  | Object props _ =>
      forallb (fun kp => leaves_satisfy p (type (snd kp))) props
  | Union vs => forallb (leaves_satisfy p) vs
  | _ => p t
  end.

Definition not_unknown (t : InferredType) : bool := negb (is_unknown t).

(** What [typesEqual] reads of a property: its key and its type. *)
Definition key_type (kp : string * PropertyInfo) : string * InferredType :=
  (fst kp, type (snd kp)).

Definition not_date (t : InferredType) : bool :=
  match t with DateString => false | _ => true end.

(** The number of object entries of a value, nested ones included. *)
Fixpoint count_fields (v : Value) : nat :=
  match v with
  | VArray arr => list_sum (map count_fields arr)
  | VObject obj => list_sum (map (fun kv => S (count_fields (snd kv))) obj)
  | _ => 0%nat
  end.

(** The diagnostics [infer] can push under [settings]: warnings, and infos
    when dates are detected. *)
Definition pushed_by_infer (settings : InferSettings) (d : Diagnostic)
  : Prop :=
  level d = warning \/ (level d = info /\ detectDates settings = true).

(** [st'] is [st] with diagnostics of [infer] appended. *)
Definition diagnostics_appended (settings : InferSettings)
  (st st' : InferState) : Prop :=
  exists extra,
    st_diagnostics st' = st_diagnostics st ++ extra
    /\ Forall (pushed_by_infer settings) extra.

(** The state after [infer] on [v] is related by [R] to the state before. *)
Definition steps_for (settings : InferSettings)
  (R : InferState -> InferState -> Prop) (v : Value) : Prop :=
  forall segments st, R st (snd (infer settings v segments st)).

(** [infer] adds [count_fields v] to the field counter. *)
Definition counts_fields (settings : InferSettings) (v : Value) : Prop :=
  forall segments st,
    st_fieldCount (snd (infer settings v segments st))
    = (st_fieldCount st + count_fields v)%nat.

(** The value is not one of those [VOther] stands for: it can come out of
    [JSON.parse]. *)
Definition is_json (v : Value) : bool :=
  match v with VOther => false | _ => true end.

(** Every character of [s] satisfies [p]. *)
Fixpoint string_forall (p : ascii -> bool) (s : string) : bool :=
  match s with
  | EmptyString => true
  | String c r => p c && string_forall p r
  end.

(** [s] starts with a lowercase letter. *)
Definition starts_lower (s : string) : bool :=
  match s with
  | String c _ => is_lower c
  | EmptyString => false
  end.

(** [usedNames.get(name) ?? 0] *)
Definition count_of (usedNames : gmap string nat) (name : string) : nat :=
  default 0%nat (usedNames !! name).

(** The states a generator goes through after [usedNames]: those reached
    by further calls of [generate]. *)
Inductive generated_from (usedNames : gmap string nat)
  : gmap string nat -> Prop :=
  | generated_here : generated_from usedNames usedNames
  | generated_step later segs :
      generated_from usedNames later ->
      generated_from usedNames (snd (generate segs later)).

(** A sufficient syntactic test for the empty language. *)
Fixpoint regex_void (r : Regex.regex) : bool :=
  match r with
  | Regex.RNone => true
  | Regex.RSeq r1 r2 => regex_void r1 || regex_void r2
  | Regex.RAlt r1 r2 => regex_void r1 && regex_void r2
  | _ => false
  end.

(** Every character class of [r] lies within [p]. *)
Fixpoint regex_within (p : ascii -> bool) (r : Regex.regex) : Prop :=
  match r with
  | Regex.RClass q => forall c, q c = true -> p c = true
  | Regex.RSeq r1 r2 | Regex.RAlt r1 r2 =>
      regex_within p r1 /\ regex_within p r2
  | Regex.RStar r1 => regex_within p r1
  | _ => True
  end.

(** The characters of a key that [isSnakeCase] accepts. *)
Definition is_snake_char (c : ascii) : bool :=
  is_lower c || is_digit c || Ascii.eqb c "_".

(** [s] starts with four digits, a hyphen, two digits, a hyphen and two
    digits. *)
Definition date_prefix (s : string) : bool :=
  match s with
  | String y1 (String y2 (String y3 (String y4 (String h1
      (String m1 (String m2 (String h2 (String a1 (String a2 _))))))))) =>
      is_digit y1 && is_digit y2 && is_digit y3 && is_digit y4
      && Ascii.eqb h1 "-" && is_digit m1 && is_digit m2
      && Ascii.eqb h2 "-" && is_digit a1 && is_digit a2
  | _ => false
  end.

(** The objects the two generators render: [collectObjects] is called for
    an [Object] or [Array] root only. *)
Definition rendered_objects (t : InferredType) : list ObjectType :=
  match t with
  | Object _ _ | Array _ => collectObjects t
  | _ => []
  end.

(** The [Object] nodes found below the properties of [o]. *)
Definition nested_objects (o : ObjectType) : list ObjectType :=
  flat_map (fun kp => collectObjects (type (snd kp))) (properties o).

(** Two lists of types are structurally equal position by position. *)
Definition equal_types (l l' : list InferredType) : Prop :=
  Forall2 (fun a b => typesEqual a b = true) l l'.

(** Two lists of objects are structurally equal position by position. *)
Definition equal_objects (l l' : list ObjectType) : Prop :=
  Forall2 (fun a b => typesEqual (ObjectT a) (ObjectT b) = true) l l'.



(** A character of the ASCII range, on which [toUpperCase] and
    [toLowerCase] map the letters [a-z] and [A-Z] only. *)
Definition is_ascii_char (c : ascii) : bool := (nat_of_ascii c <? 128)%nat.

Definition ascii_string (s : string) : bool := string_forall is_ascii_char s.

(** [js_infer] returns on [v] what [infer] computes, a tree with plain
    keys. *)
Definition follows_infer (settings : InferSettings) (v : Value) : Prop :=
  forall segments st,
    js_infer settings v segments st = Returns (infer settings v segments st)
    /\ plain_type (fst (infer settings v segments st)) = true.

(** ** Sample inputs *)

Definition plain_settings : InferSettings := mkInferSettings "Root" false.

Definition date_settings : InferSettings := mkInferSettings "Root" true.

Definition date_generate_settings : GenerateSettings :=
  mkGenerateSettings "Root" StyleType false true false.

Definition snake_generate_settings : GenerateSettings :=
  mkGenerateSettings "Root" StyleType false false true.

Definition scenario_A : Value :=
  VObject [("name", VString "Alice"); ("age", VNumber)].

Definition scenario_B : Value :=
  VArray
    [ VObject [("id", VNumber); ("name", VString "Alice");
               ("phone", VString "555-0100")];
      VObject [("id", VNumber); ("name", VString "Bob")];
      VObject [("id", VNumber); ("name", VString "Charlie");
               ("phone", VString "555-0300")] ].

Definition scenario_C : Value := VObject [("items", VArray [])].

Definition scenario_D : Value :=
  VObject [("values", VArray [VNumber; VString "two"; VBoolean true])].

Definition scenario_E : Value :=
  VObject [("createdAt", VString "2025-01-15T09:30:00.000Z")].

Definition three_way_union : InferredType :=
  Union [Primitive PString; Primitive PNumber; Primitive PBoolean].

Definition shape_a : InferredType :=
  Object [("id", mkPropertyInfo (Primitive PNumber) false false);
          ("tag", mkPropertyInfo (Primitive PString) false true)] "A".

Definition shape_b : InferredType :=
  Object [("tag", mkPropertyInfo (Primitive PString) true false);
          ("id", mkPropertyInfo (Primitive PNumber) false false)] "B".

Definition shape_c : InferredType :=
  Object [("id", mkPropertyInfo (Primitive PNumber) true true);
          ("tag", mkPropertyInfo (Primitive PString) false false)] "C".

Definition optional_sample : ObjectType :=
  mkObjectType [("a", mkPropertyInfo (Primitive PString) true false)] "A".

Definition contact_samples : list ObjectType :=
  [ mkObjectType [("id", mkPropertyInfo (Primitive PNumber) false false);
                  ("phone", mkPropertyInfo (Primitive PString) false false)]
      "A";
    mkObjectType [("id", mkPropertyInfo (Primitive PNumber) false false)]
      "B" ].

Definition null_union_sample : ObjectType :=
  mkObjectType
    [("a", mkPropertyInfo (Union [Primitive PNull; Primitive PString])
             false false)] "A".

Definition nullable_samples : list ObjectType :=
  [ mkObjectType [("a", mkPropertyInfo (Primitive PNull) false false)] "A";
    mkObjectType [("a", mkPropertyInfo (Primitive PString) false false)] "B";
    mkObjectType [("a", mkPropertyInfo (Primitive PNumber) false false)] "C" ].

Definition colliding_keys : Value :=
  VObject [("item", VObject [("a", VNumber)]);
           ("Item", VObject [("b", VNumber)]);
           ("item2", VObject [("c", VNumber)])].

Definition root_named_child : Value := VObject [("root", VObject [])].


Definition mixed_with_null : Value := VArray [VNumber; VNull; VString "x"].


Definition snake_sample : ObjectType :=
  mkObjectType
    [("user_name", mkPropertyInfo (Primitive PString) false false);
     ("age", mkPropertyInfo (Primitive PNumber) false false)] "Root".

Definition digit_key_sample : ObjectType :=
  mkObjectType [("line_1", mkPropertyInfo (Primitive PString) false false)]
    "Root".

Definition unknown_mix : list InferredType :=
  [Unknown; Union [Primitive PString; Unknown]; Primitive PNumber].

Definition sparse_samples : list ObjectType :=
  [ mkObjectType [("id", mkPropertyInfo (Primitive PNumber) false false);
                  ("tag", mkPropertyInfo (Primitive PString) false true)]
      "A";
    mkObjectType [("note", mkPropertyInfo (Primitive PString) false false);
                  ("id", mkPropertyInfo (Primitive PNumber) false false)]
      "B" ].

Definition default_generate_settings : GenerateSettings :=
  mkGenerateSettings "Root" StyleType false false false.

Definition address_object : ObjectType :=
  mkObjectType [("city", mkPropertyInfo (Primitive PString) false false)]
    "RootUserAddress".

Definition user_object : ObjectType :=
  mkObjectType
    [("address", mkPropertyInfo (ObjectT address_object) false false)]
    "RootUser".

Definition root_object : ObjectType :=
  mkObjectType [("user", mkPropertyInfo (ObjectT user_object) false false)]
    "Root".

(** Two objects of an array; the second lacks the key [constructor] of
    the first. *)
Definition chain_samples : list ObjectType :=
  [ mkObjectType [("constructor", mkPropertyInfo (Primitive PNumber) false false)]
      "Root";
    mkObjectType [("a", mkPropertyInfo (Primitive PNumber) false false)]
      "Root2" ].

Definition chain_input : Value :=
  VArray [VObject [("constructor", VNumber)]; VObject [("a", VNumber)]].

(** ** Tactics *)

(** Reads the next character [c] of the string tested in [H], which
    becomes a test of the derivative. *)
Ltac regex_step H c :=
  match type of H with
  | Regex.test _ ?s = true =>
      destruct s as [|c s];
      [vm_compute in H; discriminate H|];
      cbn [Regex.test Regex.deriv Regex.accepts_empty andb orb] in H
  end.

(** Decides the character class met in [H]; [void] is the lemma that a
    void expression matches nothing. *)
Ltac regex_class H E void :=
  match type of H with
  | context [if ?b then Regex.REps else Regex.RNone] =>
      destruct b eqn:E;
      [|rewrite void in H by reflexivity; discriminate H]
  end.

(** * Properties *)

(** ** The scenarios of the specification

    The embedding evaluates; these are the scenarios A to D of the
    specification and the naming tests of the repository. *)

Example scenario_A_inferred :
  inferType scenario_A plain_settings
  = mkInferResult
      (Object [("name", mkPropertyInfo (Primitive PString) false false);
               ("age", mkPropertyInfo (Primitive PNumber) false false)]
         "Root")
      [] 2.
Proof. reflexivity. Qed.

Example scenario_B_inferred :
  result_type (inferType scenario_B plain_settings)
  = Array
      (Object [("id", mkPropertyInfo (Primitive PNumber) false false);
               ("name", mkPropertyInfo (Primitive PString) false false);
               ("phone", mkPropertyInfo (Primitive PString) true false)]
         "Item").
Proof. reflexivity. Qed.

Example scenario_C_inferred :
  result_type (inferType scenario_C plain_settings)
  = Object [("items", mkPropertyInfo (Array Unknown) false false)] "Root"
  /\ map level (diagnostics (inferType scenario_C plain_settings))
     = [warning].
Proof. split; reflexivity. Qed.

Example scenario_D_inferred :
  result_type (inferType scenario_D plain_settings)
  = Object
      [("values",
        mkPropertyInfo
          (Array
             (Union [Primitive PNumber; Primitive PString; Primitive PBoolean]))
          false false)] "Root"
  /\ map level (diagnostics (inferType scenario_D plain_settings))
     = [warning].
Proof. split; reflexivity. Qed.

Example mixed_with_null_inferred :
  result_type (inferType mixed_with_null plain_settings)
  = Array (Union [Primitive PNumber; Primitive PNull; Primitive PString]).
Proof. reflexivity. Qed.

Example toPascalCase_samples :
  map toPascalCase ["root"; "userName"; "user_name"; "created-at"; "HTMLParser"]
  = ["Root"; "UserName"; "UserName"; "CreatedAt"; "Htmlparser"].
Proof. reflexivity. Qed.

Example generate_paths :
  fst (generate ["root"; "user"; "address"] ∅) = "RootUserAddress"
  /\ fst (generate [] ∅) = "Root".
Proof. split; reflexivity. Qed.

Example generate_after_reset :
  fst (generate ["item"] (reset (snd (generate ["item"] ∅)))) = "Item".
Proof. reflexivity. Qed.

(** ** Property maps and indexed iteration *)

Lemma with_prop_get {V R : Type} (f : V -> R) (d : R) k
  (m : list (string * V)) :
  with_prop f d k m = match get_prop m k with Some v => f v | None => d end.
Proof.
  induction m as [|[k' v] m IH]; simpl; [reflexivity|].
  destruct (String.eqb k' k); [reflexivity | exact IH].
Qed.

Lemma get_prop_In {V : Type} (m : list (string * V)) k v :
  get_prop m k = Some v -> In (k, v) m.
Proof.
  induction m as [|[k' v'] m IH]; simpl; [discriminate|].
  destruct (String.eqb_spec k' k) as [->|Hne].
  - intros [= ->]. now left.
  - intros H. right. now apply IH.
Qed.

Lemma get_prop_keys {V : Type} (m : list (string * V)) k :
  In k (keys m) <-> exists v, get_prop m k = Some v.
Proof.
  induction m as [|[k' v'] m IH]; simpl.
  - split; [tauto | intros [v Hv]; discriminate].
  - destruct (String.eqb_spec k' k) as [->|Hne].
    + split; [eauto | tauto].
    + rewrite <- IH. tauto.
Qed.

Lemma every_from_Forall2 {A B : Type} (R : A -> B -> bool) (bs : list B) :
  forall (l : list A) (s : nat),
    length l = length (skipn s bs) ->
    (every_from
       (fun x i =>
          match nth_error bs i with Some y => R x y | None => false end) s l
     = true
     <-> Forall2 (fun x y => R x y = true) l (skipn s bs)).
Proof.
  induction l as [|x l IH]; intros s Hlen; simpl in *.
  - destruct (skipn s bs); [|discriminate]. split; [constructor | reflexivity].
  - destruct (skipn s bs) as [|y rest] eqn:Hskip; [discriminate|].
    assert (Hnth : nth_error bs s = Some y).
    { rewrite <- (Nat.add_0_r s), <- nth_error_skipn, Hskip. reflexivity. }
    assert (Hrest : skipn (S s) bs = rest).
    { replace (S s) with (1 + s)%nat by lia.
      rewrite <- skipn_skipn, Hskip. reflexivity. }
    rewrite Hnth, andb_true_iff, IH by (rewrite Hrest; simpl in Hlen; lia).
    rewrite Hrest. split.
    + intros [? ?]. now constructor.
    + intros H. inversion H; subst. now split.
Qed.

Lemma every_from_ext {A : Type} (f g : A -> nat -> bool) :
  (forall x i, f x i = g x i) ->
  forall l s, every_from f s l = every_from g s l.
Proof.
  intros Hfg. induction l as [|x l IH]; intros s; simpl; [reflexivity|].
  now rewrite Hfg, IH.
Qed.

Lemma Forall2_eqb_and (g : string -> bool) (l l' : list string) :
  Forall2 (fun k k' => String.eqb k k' && g k = true) l l'
  <-> l = l' /\ Forall (fun k => g k = true) l.
Proof.
  split.
  - induction 1 as [|k k' l l' Hk _ [IH1 IH2]];
      [split; [reflexivity | constructor]|].
    apply andb_true_iff in Hk as [Hk1 Hk2].
    apply String.eqb_eq in Hk1. subst k'.
    split; [now f_equal | now constructor].
  - intros [<- Hall]. induction Hall as [|k l Hk _ IH]; constructor.
    + now rewrite String.eqb_refl.
    + exact IH.
Qed.

Lemma sort_insert_In x y l : In y (sort_insert x l) <-> y = x \/ In y l.
Proof.
  induction l as [|z l IH]; simpl.
  - intuition.
  - destruct (String.leb x z); simpl; [intuition | rewrite IH; intuition].
Qed.

Lemma sort_strings_In y l : In y (sort_strings l) <-> In y l.
Proof.
  induction l as [|x l IH]; simpl; [tauto|].
  rewrite sort_insert_In, IH. intuition.
Qed.

(** ** Structural equality *)

Lemma typesEqual_union avs bvs :
  typesEqual (Union avs) (Union bvs) = true
  <-> Forall2 (fun a b => typesEqual a b = true) avs bvs.
Proof.
  simpl.
  destruct (Nat.eqb_spec (length avs) (length bvs)) as [Hlen|Hlen]; simpl.
  - apply (every_from_Forall2 typesEqual bvs avs 0). exact Hlen.
  - split; [discriminate|]. intros H. apply Forall2_length in H. contradiction.
Qed.

Lemma typesEqual_object aprops an bprops bn :
  typesEqual (Object aprops an) (Object bprops bn) = true
  <-> props_equal aprops bprops.
Proof.
  unfold props_equal. simpl.
  set (aKeys := sort_strings (keys aprops)).
  set (bKeys := sort_strings (keys bprops)).
  set (g := fun k : string =>
              with_prop
                (fun pa : PropertyInfo =>
                   match get_prop bprops k with
                   | Some pb => typesEqual (type pa) (type pb)
                   | None => false
                   end) false k aprops).
  assert (Hg : forall k, g k = true <->
             exists pa pb, get_prop aprops k = Some pa
               /\ get_prop bprops k = Some pb
               /\ typesEqual (type pa) (type pb) = true).
  { intros k. unfold g. rewrite with_prop_get.
    destruct (get_prop aprops k) as [pa|]; [|split; [discriminate|]].
    - destruct (get_prop bprops k) as [pb|]; [|split; [discriminate|]].
      + split; [eauto|]. intros (? & ? & [= <-] & [= <-] & H). exact H.
      + intros (? & ? & _ & [=] & _).
    - intros (? & ? & [=] & _). }
  destruct (Nat.eqb_spec (length aKeys) (length bKeys)) as [Hlen|Hlen]; simpl.
  - rewrite (every_from_ext _
               (fun k i =>
                  match nth_error bKeys i with
                  | Some k' => String.eqb k k' && g k
                  | None => false
                  end))
      by (intros k i; fold (g k); now destruct (nth_error bKeys i)).
    rewrite (every_from_Forall2 (fun k k' => String.eqb k k' && g k)
               bKeys aKeys 0 Hlen). simpl.
    change (skipn 0 bKeys) with bKeys.
    rewrite Forall2_eqb_and, List.Forall_forall. split.
    + intros [Heq Hall]. split; [exact Heq|]. intros k Hk. apply Hg, Hall.
      apply (proj2 (sort_strings_In k (keys aprops))). exact Hk.
    + intros [Heq Hall]. split; [exact Heq|]. intros k Hk. apply Hg, Hall.
      apply (proj1 (sort_strings_In k (keys aprops))). exact Hk.
  - split; [discriminate|]. intros [Heq _]. now rewrite Heq in Hlen.
Qed.

Lemma typesEqual_refl a : typesEqual a a = true.
Proof.
  induction a as [k|e IH|props name IH|vs IH| |] using InferredType_ind.
  - now destruct k.
  - exact IH.
  - apply typesEqual_object. split; [reflexivity|].
    intros k Hk. apply get_prop_keys in Hk as [pa Hpa].
    exists pa, pa. repeat split; try assumption.
    rewrite List.Forall_forall in IH.
    apply (IH (k, pa)). now apply get_prop_In.
  - apply typesEqual_union. induction IH; now constructor.
  - reflexivity.
  - reflexivity.
Qed.

Lemma typesEqual_sym_true a :
  forall b, typesEqual a b = true -> typesEqual b a = true.
Proof.
  induction a as [k|e IH|props name IH|vs IH| |] using InferredType_ind;
    intros b H; destruct b as [kb|eb|bprops bname|bvs| |]; try discriminate H;
    try reflexivity.
  - simpl in *. now destruct k, kb.
  - simpl in *. now apply IH.
  - apply typesEqual_object. apply typesEqual_object in H as [Hkeys Hprops].
    split; [now symmetry|]. intros k Hk.
    assert (Hk' : In k (keys props)).
    { apply sort_strings_In. rewrite Hkeys. now apply sort_strings_In. }
    destruct (Hprops k Hk') as (pa & pb & Ha & Hb & Heq).
    exists pb, pa. repeat split; try assumption.
    rewrite List.Forall_forall in IH.
    apply (IH (k, pa)); [now apply get_prop_In | exact Heq].
  - apply typesEqual_union. apply typesEqual_union in H.
    revert IH. induction H as [|x y l l' Hxy _ IHF]; intros IH; constructor.
    + inversion IH; subst. auto.
    + apply IHF. now inversion IH.
Qed.

Lemma typesEqual_sym a b : typesEqual a b = typesEqual b a.
Proof.
  destruct (typesEqual a b) eqn:Hab.
  - symmetry. now apply typesEqual_sym_true.
  - destruct (typesEqual b a) eqn:Hba; [|reflexivity].
    apply typesEqual_sym_true in Hba. congruence.
Qed.

Lemma typesEqual_trans a :
  forall b c,
    typesEqual a b = true -> typesEqual b c = true -> typesEqual a c = true.
Proof.
  induction a as [k|e IH|props name IH|vs IH| |] using InferredType_ind;
    intros b c Hab Hbc;
    destruct b as [kb|eb|bprops bname|bvs| |]; try discriminate Hab;
    destruct c as [kc|ec|cprops cname|cvs| |]; try discriminate Hbc;
    try reflexivity.
  - simpl in *. now destruct k, kb, kc.
  - simpl in *. eapply IH; eassumption.
  - apply typesEqual_object. apply typesEqual_object in Hab as [Hk1 Hp1].
    apply typesEqual_object in Hbc as [Hk2 Hp2].
    split; [congruence|]. intros k Hk.
    destruct (Hp1 k Hk) as (pa & pb & Ha & Hb & Hab).
    assert (Hkb : In k (keys bprops)) by (apply get_prop_keys; eauto).
    destruct (Hp2 k Hkb) as (pb' & pc & Hb' & Hc & Hbc).
    assert (pb' = pb) by congruence. subst pb'.
    exists pa, pc. repeat split; try assumption.
    rewrite List.Forall_forall in IH.
    apply (IH (k, pa)) with (b := type pb);
      [now apply get_prop_In | exact Hab | exact Hbc].
  - apply typesEqual_union. apply typesEqual_union in Hab, Hbc.
    revert cvs Hbc IH.
    induction Hab as [|x y l l' Hxy _ IHF]; intros cvs Hbc IH;
      inversion Hbc; subst; constructor.
    + inversion IH; subst. eauto.
    + apply IHF; [assumption | now inversion IH].
Qed.

(** C10. Structural equality is an equivalence relation on [InferredType]:
    [typesEqual a a] holds for every type; [typesEqual a b] and
    [typesEqual b a] always agree; and [typesEqual a b] together with
    [typesEqual b c] gives [typesEqual a c]. *)
Theorem typesEqual_equivalence :
  (forall a, typesEqual a a = true)
  /\ (forall a b, typesEqual a b = typesEqual b a)
  /\ (forall a b c,
        typesEqual a b = true -> typesEqual b c = true ->
        typesEqual a c = true).
Proof.
  split; [exact typesEqual_refl|].
  split; [exact typesEqual_sym | exact typesEqual_trans].
Qed.

Lemma typesEqual_equivalence_witness : typesEqual shape_a shape_c = true.
Proof.
  exact (proj2 (proj2 typesEqual_equivalence) shape_a shape_b shape_c
           eq_refl eq_refl).
Defined.

(** ** Union normalisation *)

Lemma deduplicateTypes_fold types :
  deduplicateTypes types = fold_left dedupe_step types [].
Proof. reflexivity. Qed.

Lemma flatten_one_flat t : flat_variants (flatten_one t) = true.
Proof.
  unfold flat_variants.
  induction t as [k|e IH|props name IH|vs IH| |] using InferredType_ind;
    try reflexivity.
  simpl. induction IH as [|v vs Hv _ IHvs]; simpl; [reflexivity|].
  rewrite forallb_app, Hv, IHvs. reflexivity.
Qed.

Lemma flattenUnions_flat types : flat_variants (flattenUnions types) = true.
Proof.
  unfold flattenUnions, flat_variants.
  induction types as [|t types IH]; simpl; [reflexivity|].
  rewrite forallb_app, IH. pose proof (flatten_one_flat t) as H.
  unfold flat_variants in H. now rewrite H.
Qed.

Lemma flatten_one_id t : is_union t = false -> flatten_one t = [t].
Proof. destruct t; simpl; congruence. Qed.

Lemma flattenUnions_id types :
  flat_variants types = true -> flattenUnions types = types.
Proof.
  unfold flat_variants, flattenUnions.
  induction types as [|t types IH]; simpl; [reflexivity|].
  intros H. apply andb_true_iff in H as [Ht Hts].
  apply negb_true_iff in Ht.
  rewrite (flatten_one_id t Ht), IH by assumption. reflexivity.
Qed.

Lemma pairwise_distinct_app l1 l2 :
  pairwise_distinct (l1 ++ l2)
  = pairwise_distinct l1 && pairwise_distinct l2
    && forallb (fun x => forallb (fun y => negb (typesEqual x y)) l2) l1.
Proof.
  induction l1 as [|x l1 IH]; simpl.
  - now rewrite andb_true_r.
  - rewrite forallb_app, IH.
    destruct (forallb (fun y => negb (typesEqual x y)) l1),
      (forallb (fun y => negb (typesEqual x y)) l2),
      (pairwise_distinct l1), (pairwise_distinct l2); reflexivity.
Qed.

Lemma not_among_forallb acc t :
  existsb (fun r => typesEqual r t) acc = false
  <-> forallb (fun x => forallb (fun y => negb (typesEqual x y)) [t]) acc
      = true.
Proof.
  induction acc as [|x acc IH]; simpl; [tauto|].
  rewrite orb_false_iff, andb_true_iff, IH, andb_true_r, negb_true_iff.
  tauto.
Qed.

Lemma dedupe_fold_prefix types :
  forall acc, exists extra, fold_left dedupe_step types acc = acc ++ extra.
Proof.
  induction types as [|t types IH]; intros acc; simpl.
  - exists []. now rewrite app_nil_r.
  - unfold dedupe_step at 2.
    destruct (negb (existsb (fun r => typesEqual r t) acc)).
    + destruct (IH (acc ++ [t])) as [extra ->].
      exists (t :: extra). now rewrite <- app_assoc.
    + apply IH.
Qed.

Lemma dedupe_fold_In types :
  forall acc x,
    In x (fold_left dedupe_step types acc) -> In x acc \/ In x types.
Proof.
  induction types as [|t types IH]; intros acc x; simpl; [tauto|].
  intros H. apply IH in H as [H|H]; [|tauto].
  unfold dedupe_step in H.
  destruct (negb (existsb (fun r => typesEqual r t) acc)); [|tauto].
  apply in_app_or in H as [H|[H|[]]]; tauto.
Qed.

Lemma dedupe_fold_distinct types :
  forall acc,
    pairwise_distinct acc = true ->
    pairwise_distinct (fold_left dedupe_step types acc) = true.
Proof.
  induction types as [|t types IH]; intros acc Hacc; simpl; [exact Hacc|].
  apply IH. unfold dedupe_step.
  destruct (existsb (fun r => typesEqual r t) acc) eqn:Hex; simpl;
    [exact Hacc|].
  rewrite pairwise_distinct_app, Hacc. simpl.
  now apply not_among_forallb.
Qed.

Lemma dedupe_fold_id types :
  forall acc,
    pairwise_distinct (acc ++ types) = true ->
    fold_left dedupe_step types acc = acc ++ types.
Proof.
  induction types as [|t types IH]; intros acc H; simpl.
  - now rewrite app_nil_r.
  - assert (Hnew : existsb (fun r => typesEqual r t) acc = false).
    { apply not_among_forallb.
      rewrite pairwise_distinct_app in H.
      apply andb_true_iff in H as [_ H].
      rewrite List.forallb_forall in H |- *. intros x Hx.
      specialize (H x Hx). simpl in *.
      apply andb_true_iff in H as [H _]. now rewrite H. }
    unfold dedupe_step at 2. rewrite Hnew. simpl.
    rewrite IH; rewrite <- app_assoc; [reflexivity | exact H].
Qed.

Lemma dedupe_fold_absorb types :
  forall acc,
    Forall (fun t => existsb (fun r => typesEqual r t) acc = true) types ->
    fold_left dedupe_step types acc = acc.
Proof.
  induction types as [|t types IH]; intros acc H; simpl; [reflexivity|].
  inversion H as [|? ? Ht Hts]; subst.
  unfold dedupe_step at 2. rewrite Ht. simpl. now apply IH.
Qed.

Lemma deduplicateTypes_In types x :
  In x (deduplicateTypes types) -> In x types.
Proof.
  rewrite deduplicateTypes_fold. intros H.
  apply dedupe_fold_In in H as [[]|H]. exact H.
Qed.

Lemma deduplicateTypes_distinct types :
  pairwise_distinct (deduplicateTypes types) = true.
Proof. rewrite deduplicateTypes_fold. now apply dedupe_fold_distinct. Qed.

Lemma deduplicateTypes_id types :
  pairwise_distinct types = true -> deduplicateTypes types = types.
Proof. intros H. rewrite deduplicateTypes_fold. now apply dedupe_fold_id. Qed.

Lemma deduplicateTypes_nonempty t types : deduplicateTypes (t :: types) <> [].
Proof.
  rewrite deduplicateTypes_fold. simpl.
  destruct (dedupe_fold_prefix types (dedupe_step [] t)) as [extra ->].
  discriminate.
Qed.

Lemma pairwise_distinct_filter (p : InferredType -> bool) l :
  pairwise_distinct l = true -> pairwise_distinct (List.filter p l) = true.
Proof.
  induction l as [|x l IH]; simpl; [reflexivity|].
  intros H. apply andb_true_iff in H as [Hx Hl].
  destruct (p x); simpl; [|now apply IH].
  rewrite IH by assumption. rewrite andb_true_r.
  rewrite List.forallb_forall in Hx |- *.
  intros y Hy. apply Hx. now apply List.filter_In in Hy.
Qed.

Lemma forallb_filter {A : Type} (q p : A -> bool) l :
  forallb q l = true -> forallb q (List.filter p l) = true.
Proof.
  rewrite !List.forallb_forall. intros H x Hx.
  apply H. now apply List.filter_In in Hx.
Qed.

Lemma mergeTypes_finalTypes t types :
  mergeTypes (t :: types)
  = match finalTypes (t :: types) with
    | [x] => x
    | l => Union l
    end.
Proof.
  change (mergeTypes (t :: types))
    with (let f := finalTypes (t :: types) in
          match f with [x] => x | _ => Union f end).
  cbv zeta. now destruct (finalTypes (t :: types)) as [|x [|y l]].
Qed.

Lemma finalTypes_In types x :
  In x (finalTypes types) -> In x (flattenUnions types).
Proof.
  unfold finalTypes.
  destruct (0 <? length _)%nat; intros H.
  - apply List.filter_In in H as [H _]. now apply deduplicateTypes_In.
  - now apply deduplicateTypes_In.
Qed.

Lemma finalTypes_flat types : flat_variants (finalTypes types) = true.
Proof.
  unfold flat_variants. apply List.forallb_forall. intros x Hx.
  apply finalTypes_In in Hx.
  pose proof (flattenUnions_flat types) as H. unfold flat_variants in H.
  rewrite List.forallb_forall in H. now apply H.
Qed.

Lemma finalTypes_distinct types : pairwise_distinct (finalTypes types) = true.
Proof.
  unfold finalTypes. destruct (0 <? length _)%nat.
  - apply pairwise_distinct_filter, deduplicateTypes_distinct.
  - apply deduplicateTypes_distinct.
Qed.

(** [mergeTypes] never answers with a one-variant [Union]. *)
Lemma mergeTypes_not_singleton types v : mergeTypes types <> Union [v].
Proof.
  destruct types as [|t types]; [discriminate|].
  rewrite mergeTypes_finalTypes.
  pose proof (finalTypes_flat (t :: types)) as Hflat.
  destruct (finalTypes (t :: types)) as [|x [|y l]]; try discriminate.
  unfold flat_variants in Hflat. simpl in Hflat.
  destruct x; try discriminate. 
Qed.

Lemma mergeTypes_all_distinct types :
  (2 <= length types)%nat ->
  flat_variants types = true ->
  forallb (fun t => negb (is_unknown t)) types = true ->
  pairwise_distinct types = true ->
  mergeTypes types = Union types.
Proof.
  intros Hlen Hflat Hknown Hdist.
  destruct types as [|t types]; [simpl in Hlen; lia|].
  rewrite mergeTypes_finalTypes. unfold finalTypes.
  rewrite (flattenUnions_id _ Hflat), (deduplicateTypes_id _ Hdist).
  assert (Hfilter : List.filter (fun t => negb (is_unknown t)) (t :: types)
                    = t :: types).
  { clear -Hknown. induction (t :: types) as [|x l IH]; simpl in *;
      [reflexivity|].
    apply andb_true_iff in Hknown as [Hx Hl]. now rewrite Hx, IH. }
  rewrite Hfilter. simpl.
  destruct types as [|t' types]; [simpl in Hlen; lia | reflexivity].
Qed.

Lemma mergeTypes_all_equal t0 rest :
  is_union t0 = false ->
  Forall (fun t => typesEqual t0 t = true) rest ->
  mergeTypes (t0 :: rest) = t0.
Proof.
  intros Hnu Heq.
  assert (Hflat : flat_variants (t0 :: rest) = true).
  { unfold flat_variants. simpl. rewrite Hnu. simpl.
    apply List.forallb_forall. intros x Hx.
    rewrite List.Forall_forall in Heq. specialize (Heq x Hx).
    destruct t0, x; try discriminate; reflexivity. }
  rewrite mergeTypes_finalTypes. unfold finalTypes.
  rewrite (flattenUnions_id _ Hflat), deduplicateTypes_fold. simpl.
  rewrite dedupe_fold_absorb.
  - unfold dedupe_step. simpl. destruct (is_unknown t0); reflexivity.
  - unfold dedupe_step. simpl.
    eapply List.Forall_impl; [|exact Heq]. simpl. intros x Hx. now rewrite Hx.
Qed.

(** C3 (as stated, refuted).  A one-element list is a list of [k = 1]
    structurally distinct, non-[Unknown] types, yet [mergeTypes] answers
    with the type itself and not with a [Union] of one variant; and an
    input that is itself a [Union] is flattened, so two distinct inputs can
    yield three variants. *)
Lemma mergeTypes_distinct_counterexample :
  (pairwise_distinct [Primitive PString] = true
   /\ forallb (fun t => negb (is_unknown t)) [Primitive PString] = true
   /\ ~ (exists vs,
           mergeTypes [Primitive PString] = Union vs
           /\ length vs = length [Primitive PString]))
  /\ (pairwise_distinct [three_way_union; Primitive PNull] = true
      /\ forallb (fun t => negb (is_unknown t))
            [three_way_union; Primitive PNull] = true
      /\ ~ (exists vs,
              mergeTypes [three_way_union; Primitive PNull] = Union vs
              /\ length vs = length [three_way_union; Primitive PNull])).
Proof.
  split; (split; [reflexivity|]); (split; [reflexivity|]).
  - intros (vs & H & _). discriminate H.
  - intros (vs & H & Hlen). vm_compute in H. injection H as <-.
    discriminate Hlen.
Qed.

(** C3 (amended).  For every list of [k >= 2] pairwise structurally
    distinct types, none [Unknown] and none itself a [Union], [mergeTypes]
    returns the [Union] of exactly these [k] types in first-seen order; for
    every list of [k >= 1] structurally equal types, none a [Union], it
    returns the first of them unwrapped; and it never returns a [Union] of a
    single variant. *)
Theorem mergeTypes_distinct_or_equal :
  (forall types,
      (2 <= length types)%nat ->
      flat_variants types = true ->
      forallb (fun t => negb (is_unknown t)) types = true ->
      pairwise_distinct types = true ->
      mergeTypes types = Union types)
  /\ (forall t0 rest,
        is_union t0 = false ->
        Forall (fun t => typesEqual t0 t = true) rest ->
        mergeTypes (t0 :: rest) = t0)
  /\ (forall types v, mergeTypes types <> Union [v]).
Proof.
  split; [exact mergeTypes_all_distinct|].
  split; [exact mergeTypes_all_equal | exact mergeTypes_not_singleton].
Qed.

Lemma mergeTypes_distinct_or_equal_witness :
  mergeTypes [Primitive PNumber; Primitive PString; Primitive PBoolean]
  = Union [Primitive PNumber; Primitive PString; Primitive PBoolean]
  /\ mergeTypes [Array (Primitive PString); Array (Primitive PString)]
     = Array (Primitive PString).
Proof.
  split.
  - apply (proj1 mergeTypes_distinct_or_equal); try reflexivity.
    simpl. lia.
  - apply (proj1 (proj2 mergeTypes_distinct_or_equal)); [reflexivity|].
    constructor; [reflexivity | constructor].
Defined.


(** ** Normalisation is preserved by merging *)

Lemma normalized_union vs :
  normalized (Union vs) = true
  <-> flat_variants vs = true /\ pairwise_distinct vs = true
      /\ forallb normalized vs = true.
Proof. simpl. rewrite !andb_true_iff. tauto. Qed.

Lemma normalized_flatten_one t :
  normalized t = true -> forallb normalized (flatten_one t) = true.
Proof.
  induction t as [k|e IH|props name IH|vs IH| |] using InferredType_ind;
    intros H; try (simpl in *; rewrite ?H; reflexivity).
  apply normalized_union in H as (_ & _ & H).
  simpl. induction IH as [|v vs Hv _ IHvs]; simpl in *; [reflexivity|].
  apply andb_true_iff in H as [H1 H2].
  rewrite forallb_app, Hv, IHvs by assumption. reflexivity.
Qed.

Lemma normalized_flattenUnions types :
  forallb normalized types = true ->
  forallb normalized (flattenUnions types) = true.
Proof.
  unfold flattenUnions.
  induction types as [|t types IH]; simpl; [reflexivity|].
  intros H. apply andb_true_iff in H as [H1 H2].
  rewrite forallb_app, normalized_flatten_one, IH by assumption. reflexivity.
Qed.

Lemma mergeTypes_normalized_flat types :
  forallb normalized (flattenUnions types) = true ->
  normalized (mergeTypes types) = true.
Proof.
  intros H. destruct types as [|t types]; [reflexivity|].
  rewrite mergeTypes_finalTypes.
  assert (Hall : forallb normalized (finalTypes (t :: types)) = true).
  { apply List.forallb_forall. intros x Hx. apply finalTypes_In in Hx.
    rewrite List.forallb_forall in H. now apply H. }
  pose proof (finalTypes_flat (t :: types)) as Hflat.
  pose proof (finalTypes_distinct (t :: types)) as Hdist.
  destruct (finalTypes (t :: types)) as [|x [|y l]].
  - reflexivity.
  - simpl in Hall. now apply andb_true_iff in Hall as [Hx _].
  - apply normalized_union. auto.
Qed.

Lemma mergeTypes_normalized types :
  forallb normalized types = true -> normalized (mergeTypes types) = true.
Proof.
  intros H. now apply mergeTypes_normalized_flat, normalized_flattenUnions.
Qed.

(** ** Object merging *)

Lemma existsb_eqb_In k l : existsb (String.eqb k) l = true <-> In k l.
Proof.
  rewrite List.existsb_exists. split.
  - intros (x & Hx & Heq). apply String.eqb_eq in Heq. now subst.
  - intros H. exists k. split; [exact H | apply String.eqb_refl].
Qed.

Lemma get_prop_None {V : Type} (m : list (string * V)) k :
  get_prop m k = None <-> ~ In k (keys m).
Proof.
  rewrite get_prop_keys. destruct (get_prop m k) as [v|].
  - split; [discriminate|]. intros H. exfalso. apply H. eauto.
  - split; [|reflexivity]. intros _ [v Hv]. discriminate.
Qed.

Lemma scan_key_fold objects key :
  forall ts pc nc,
    fold_left
      (fun '(typesForKey, presentCount, nullableCount) obj =>
         match get_prop (properties obj) key with
         | Some prop =>
             (typesForKey ++ [type prop], S presentCount,
              if nullable prop then S nullableCount else nullableCount)
         | None => (typesForKey, presentCount, nullableCount)
         end) objects (ts, pc, nc)
    = (ts ++ map type (occurrences objects key),
       pc + length (occurrences objects key),
       nc + length (List.filter nullable (occurrences objects key)))%nat.
Proof.
  induction objects as [|obj objects IH]; intros ts pc nc; simpl.
  - now rewrite app_nil_r, !Nat.add_0_r.
  - destruct (get_prop (properties obj) key) as [prop|]; simpl.
    + rewrite IH, <- app_assoc. simpl.
      destruct (nullable prop); simpl; repeat f_equal; lia.
    + apply IH.
Qed.

Lemma scan_key_occurrences objects key :
  scan_key objects key
  = (map type (occurrences objects key),
     length (occurrences objects key),
     length (List.filter nullable (occurrences objects key))).
Proof. unfold scan_key. now rewrite scan_key_fold. Qed.

Lemma occurrences_length objects key :
  length (occurrences objects key) = present_in objects key.
Proof.
  unfold occurrences, present_in.
  induction objects as [|obj objects IH]; simpl; [reflexivity|].
  destruct (get_prop (properties obj) key) as [prop|] eqn:Hget.
  - assert (H : existsb (String.eqb key) (keys (properties obj)) = true).
    { apply existsb_eqb_In, get_prop_keys. eauto. }
    rewrite H. simpl. now rewrite IH.
  - assert (H : existsb (String.eqb key) (keys (properties obj)) = false).
    { apply not_true_is_false. rewrite existsb_eqb_In.
      now apply get_prop_None. }
    rewrite H. simpl. exact IH.
Qed.

Lemma occurrences_In objects key prop :
  In prop (occurrences objects key)
  <-> exists obj, In obj objects /\ get_prop (properties obj) key = Some prop.
Proof.
  unfold occurrences. rewrite in_flat_map. split.
  - intros (obj & Hobj & H). exists obj. split; [exact Hobj|].
    destruct (get_prop (properties obj) key) as [p|]; [|destruct H].
    destruct H as [->|[]]. reflexivity.
  - intros (obj & Hobj & H). exists obj. split; [exact Hobj|].
    rewrite H. now left.
Qed.

Lemma merge_key_unfold objects key :
  merge_key objects key
  = let occ := occurrences objects key in
    let merged :=
      separate_null (mergeTypes (map type occ))
        (0 <? length (List.filter nullable occ))%nat in
    mkPropertyInfo (fst merged) (present_in objects key <? length objects)%nat
      (snd merged).
Proof.
  unfold merge_key. rewrite scan_key_occurrences, occurrences_length.
  cbv zeta. now destruct (separate_null _ _).
Qed.

Lemma get_set_prop_eq {V : Type} (m : list (string * V)) k v :
  get_prop (set_prop m k v) k = Some v.
Proof.
  induction m as [|[k' v'] m IH]; simpl.
  - now rewrite String.eqb_refl.
  - destruct (String.eqb k' k) eqn:E; simpl; rewrite E; [reflexivity|exact IH].
Qed.

Lemma get_set_prop_ne {V : Type} (m : list (string * V)) k k' v :
  k <> k' -> get_prop (set_prop m k v) k' = get_prop m k'.
Proof.
  intros Hne. induction m as [|[k0 v0] m IH]; simpl.
  - destruct (String.eqb_spec k k'); [contradiction | reflexivity].
  - destruct (String.eqb_spec k0 k) as [->|Hk]; simpl.
    + destruct (String.eqb_spec k k'); [contradiction | reflexivity].
    + now rewrite IH.
Qed.

Lemma set_prop_Forall {V : Type} (Q : string * V -> Prop) m k v :
  Forall Q m -> Q (k, v) -> Forall Q (set_prop m k v).
Proof.
  intros Hm Hkv. induction Hm as [|[k' v'] m Hx Hm IH]; simpl.
  - now constructor.
  - destruct (String.eqb_spec k' k) as [->|Hne]; now constructor.
Qed.

Section FoldSetProp.

Context {V : Type} (f : string -> V).

Lemma fold_set_prop_Forall (Q : string * V -> Prop) ks :
forall m,
  Forall Q m -> (forall k, In k ks -> Q (k, f k)) ->
  Forall Q (fold_left (fun m key => set_prop m key (f key)) ks m).
Proof.
induction ks as [|k ks IH]; intros m Hm Hks; simpl; [exact Hm|].
apply IH.
- apply set_prop_Forall; [exact Hm|]. apply Hks. now left.
- intros k' Hk'. apply Hks. now right.
Qed.

Lemma fold_set_prop_get ks :
forall m k,
  get_prop (fold_left (fun m key => set_prop m key (f key)) ks m) k
  = if existsb (String.eqb k) ks then Some (f k) else get_prop m k.
Proof.
induction ks as [|k0 ks IH]; intros m k; simpl; [reflexivity|].
rewrite IH. destruct (existsb (String.eqb k) ks) eqn:E.
- now rewrite orb_true_r.
- rewrite orb_false_r. destruct (String.eqb_spec k k0) as [->|Hne].
  + apply get_set_prop_eq.
  + apply get_set_prop_ne. congruence.
Qed.

End FoldSetProp.

Lemma set_add_In s k k' : In k' (set_add s k) <-> k' = k \/ In k' s.
Proof.
  unfold set_add. destruct (existsb (String.eqb k) s) eqn:E.
  - apply existsb_eqb_In in E. split; [tauto|]. intros [->|H]; assumption.
  - rewrite in_app_iff. simpl. intuition.
Qed.

Lemma fold_set_add_In ks :
  forall s k, In k (fold_left set_add ks s) <-> In k s \/ In k ks.
Proof.
  induction ks as [|k0 ks IH]; intros s k; simpl; [tauto|].
  rewrite IH, set_add_In. intuition.
Qed.

Lemma collect_keys_fold_In objects :
  forall s k,
    In k (fold_left
            (fun allKeys obj =>
               fold_left set_add (keys (properties obj)) allKeys) objects s)
    <-> In k s \/ exists obj, In obj objects /\ In k (keys (properties obj)).
Proof.
  induction objects as [|obj objects IH]; intros s k; simpl.
  - split; [tauto|]. intros [H|(obj & [] & _)]. exact H.
  - rewrite IH, fold_set_add_In. split.
    + intros [[H|H]|(o & Ho & Hk)]; eauto.
    + intros [H|(o & [<-|Ho] & Hk)]; eauto.
Qed.

Lemma collect_keys_In objects k :
  In k (collect_keys objects)
  <-> exists obj, In obj objects /\ In k (keys (properties obj)).
Proof.
  unfold collect_keys. rewrite collect_keys_fold_In. simpl. tauto.
Qed.

Lemma present_in_positive objects k :
  (0 < present_in objects k)%nat
  <-> exists obj, In obj objects /\ In k (keys (properties obj)).
Proof.
  unfold present_in. split.
  - intros H.
    destruct (List.filter _ objects) as [|obj l] eqn:E; [simpl in H; lia|].
    assert (Hin : In obj (List.filter
              (fun obj => existsb (String.eqb k) (keys (properties obj)))
              objects)) by (rewrite E; now left).
    apply List.filter_In in Hin as [Hin Hk]. apply existsb_eqb_In in Hk.
    eauto.
  - intros (obj & Hobj & Hk).
    assert (Hin : In obj (List.filter
              (fun obj => existsb (String.eqb k) (keys (properties obj)))
              objects)).
    { apply List.filter_In. split; [exact Hobj | now apply existsb_eqb_In]. }
    destruct (List.filter _ objects); [destruct Hin | simpl; lia].
Qed.

(** The merged property map, for two or more objects. *)
Lemma mergeObjectTypes_get o1 o2 objects name k :
  get_prop (properties (mergeObjectTypes (o1 :: o2 :: objects) name)) k
  = if (0 <? present_in (o1 :: o2 :: objects) k)%nat
    then Some (merge_key (o1 :: o2 :: objects) k)
    else None.
Proof.
  unfold mergeObjectTypes. cbn [properties].
  rewrite (fold_set_prop_get (merge_key (o1 :: o2 :: objects))).
  destruct (existsb _ (collect_keys _)) eqn:E.
  - apply existsb_eqb_In, collect_keys_In, present_in_positive in E.
    apply Nat.ltb_lt in E. now rewrite E.
  - destruct (0 <? present_in _ k)%nat eqn:E'; [|reflexivity].
    apply Nat.ltb_lt, present_in_positive, collect_keys_In, existsb_eqb_In
      in E'. congruence.
Qed.

Lemma mergeObjectTypes_Forall (Q : string * PropertyInfo -> Prop)
  o1 o2 objects name :
  (forall k, (0 < present_in (o1 :: o2 :: objects) k)%nat ->
             Q (k, merge_key (o1 :: o2 :: objects) k)) ->
  Forall Q (properties (mergeObjectTypes (o1 :: o2 :: objects) name)).
Proof.
  intros H. unfold mergeObjectTypes. cbn [properties].
  apply (fold_set_prop_Forall (merge_key (o1 :: o2 :: objects)));
    [constructor|].
  intros k Hk. apply H. now apply present_in_positive, collect_keys_In.
Qed.

Lemma typesForKey_occurrences objects key :
  typesForKey objects key = map type (occurrences objects key).
Proof. unfold typesForKey. now rewrite scan_key_occurrences. Qed.

Lemma present_in_all objects k :
  (forall obj, In obj objects -> In k (keys (properties obj))) ->
  present_in objects k = length objects.
Proof.
  unfold present_in. induction objects as [|obj objects IH]; intros H;
    simpl; [reflexivity|].
  assert (Hk : existsb (String.eqb k) (keys (properties obj)) = true).
  { apply existsb_eqb_In, H. now left. }
  rewrite Hk. simpl. f_equal. apply IH. intros o Ho. apply H. now right.
Qed.

Lemma typesEqual_object_keys a b k :
  typesEqual (ObjectT a) (ObjectT b) = true ->
  In k (keys (properties a)) -> In k (keys (properties b)).
Proof.
  intros H Hk. apply typesEqual_object in H as [Hkeys _].
  apply sort_strings_In. rewrite <- Hkeys. now apply sort_strings_In.
Qed.

Lemma mergeObjectTypes_keys objects name k :
  In k (keys (properties (mergeObjectTypes objects name)))
  <-> (0 < present_in objects k)%nat.
Proof.
  destruct objects as [|o1 [|o2 objects]].
  - simpl. unfold present_in. simpl. lia.
  - cbn [mergeObjectTypes properties]. rewrite present_in_positive.
    split; [intros H; exists o1; split; [now left | exact H]|].
    intros (o & [<-|[]] & H). exact H.
  - rewrite get_prop_keys, mergeObjectTypes_get.
    destruct (0 <? present_in _ k)%nat eqn:E.
    + apply Nat.ltb_lt in E. split; [intros _; exact E | eauto].
    + apply Nat.ltb_ge in E. split; [intros [v Hv]; discriminate | lia].
Qed.

Lemma mergeObjectTypes_optional objects name k p :
  ((2 <= length objects)%nat
   \/ ((1 <= length objects)%nat /\ all_required objects = true)) ->
  get_prop (properties (mergeObjectTypes objects name)) k = Some p ->
  optional p = (present_in objects k <? length objects)%nat.
Proof.
  intros Hcase Hget. destruct objects as [|o1 [|o2 objects]].
  - simpl in Hcase. lia.
  - destruct Hcase as [Hcase|[_ Hreq]]; [simpl in Hcase; lia|].
    cbn [mergeObjectTypes properties] in Hget.
    unfold all_required in Hreq. simpl in Hreq. rewrite andb_true_r in Hreq.
    rewrite List.forallb_forall in Hreq.
    pose proof (Hreq _ (get_prop_In _ _ _ Hget)) as Hp. simpl in Hp.
    apply negb_true_iff in Hp. rewrite Hp.
    rewrite (present_in_all [o1] k); [simpl; reflexivity|].
    intros o [<-|[]]. apply get_prop_keys. eauto.
  - rewrite mergeObjectTypes_get in Hget.
    destruct (0 <? present_in _ k)%nat; [|discriminate].
    injection Hget as <-. now rewrite merge_key_unfold.
Qed.

(** C2 (as stated, refuted).  A single input object is handed back with
    its properties untouched: a property that came in marked optional stays
    optional although its key is present in 1 of 1 inputs. *)
Lemma mergeObjectTypes_single_counterexample :
  present_in [optional_sample] "a" = length [optional_sample]
  /\ typesEqual (ObjectT optional_sample) (ObjectT optional_sample) = true
  /\ ~ (forall p,
          get_prop (properties (mergeObjectTypes [optional_sample] "T")) "a"
          = Some p ->
          optional p = (present_in [optional_sample] "a" <? 1)%nat).
Proof.
  split; [reflexivity|]. split; [reflexivity|].
  intros H. specialize (H _ eq_refl). discriminate H.
Qed.

Lemma separate_null_spec mergedType isNullable :
  separate_null mergedType isNullable
  = match mergedType with
    | Union variants =>
        if existsb is_null variants
        then (collapse (List.filter (fun v => negb (is_null v)) variants), true)
        else (mergedType, isNullable)
    | _ => (mergedType, isNullable)
    end.
Proof.
  now destruct mergedType.
Qed.

(** C5 (as stated, refuted).  For a single input object the union-merge
    is never computed: a property whose type is a [Union] containing
    [Primitive(null)] is handed back unstripped, with its [nullable] flag
    as it came. *)
Lemma mergeObjectTypes_null_strip_counterexample :
  mergeTypes (typesForKey [null_union_sample] "a")
  = Union [Primitive PNull; Primitive PString]
  /\ existsb is_null [Primitive PNull; Primitive PString] = true
  /\ get_prop (properties (mergeObjectTypes [null_union_sample] "T")) "a"
     = Some (mkPropertyInfo (Union [Primitive PNull; Primitive PString])
               false false)
  /\ ~ (forall p,
          get_prop (properties (mergeObjectTypes [null_union_sample] "T")) "a"
          = Some p ->
          nullable p = true /\ type p = Primitive PString).
Proof.
  repeat split; try reflexivity.
  intros H. destruct (H _ eq_refl) as [Hn _]. discriminate Hn.
Qed.

(** C5 (amended).  When two or more objects are merged, for every key
    whose union-merged occurrence type is a [Union] containing a
    [Primitive(null)] variant, the emitted [PropertyInfo] has
    [nullable = true] and a type with that variant stripped:
    [Primitive(null)] if zero variants remain, the single remaining type if
    one remains, and a [Union] of the remainder if more than one remains.
    (A single input object is returned with its properties unchanged.) *)
Theorem mergeObjectTypes_null_strip :
  forall objects name k p variants,
    (2 <= length objects)%nat ->
    get_prop (properties (mergeObjectTypes objects name)) k = Some p ->
    mergeTypes (typesForKey objects k) = Union variants ->
    existsb is_null variants = true ->
    nullable p = true
    /\ type p = collapse (List.filter (fun v => negb (is_null v)) variants)
    /\ type p
       = match List.filter (fun v => negb (is_null v)) variants with
         | [] => Primitive PNull
         | [t] => t
         | remainder => Union remainder
         end.
Proof.
  intros objects name k p variants Hlen Hget Hmerged Hnull.
  destruct objects as [|o1 [|o2 objects]]; try (simpl in Hlen; lia).
  rewrite mergeObjectTypes_get in Hget.
  destruct (0 <? present_in _ k)%nat; [|discriminate].
  injection Hget as <-. rewrite merge_key_unfold. cbv zeta.
  rewrite <- typesForKey_occurrences, Hmerged, separate_null_spec, Hnull.
  simpl. repeat split.
  unfold collapse. now destruct (List.filter _ variants) as [|x [|y l]].
Qed.

Lemma mergeObjectTypes_null_strip_witness :
  nullable (merge_key nullable_samples "a") = true
  /\ type (merge_key nullable_samples "a")
     = Union [Primitive PString; Primitive PNumber].
Proof.
  assert (Hlen : (2 <= length nullable_samples)%nat) by (simpl; lia).
  destruct (mergeObjectTypes_null_strip nullable_samples "Item" "a"
              (merge_key nullable_samples "a")
              [Primitive PNull; Primitive PString; Primitive PNumber]
              Hlen eq_refl eq_refl eq_refl) as (Hn & Ht & _).
  split; [exact Hn | exact Ht].
Defined.

Lemma separate_null_normalized mergedType isNullable :
  normalized mergedType = true ->
  normalized (fst (separate_null mergedType isNullable)) = true.
Proof.
  intros H. rewrite separate_null_spec.
  destruct mergedType as [| | |variants| |]; try exact H.
  destruct (existsb is_null variants); [|exact H]. cbn [fst].
  apply normalized_union in H as (Hflat & Hdist & Hall).
  assert (Hflat' := forallb_filter _ (fun v => negb (is_null v)) _ Hflat).
  assert (Hall' := forallb_filter _ (fun v => negb (is_null v)) _ Hall).
  assert (Hdist' :=
            pairwise_distinct_filter (fun v => negb (is_null v)) _ Hdist).
  unfold collapse. destruct (List.filter _ variants) as [|x [|y l]].
  - reflexivity.
  - simpl in Hall'. now apply andb_true_iff in Hall' as [Hx _].
  - apply normalized_union. auto.
Qed.

Lemma occurrences_normalized objects key :
  forallb (fun o => normalized (ObjectT o)) objects = true ->
  forallb normalized (map type (occurrences objects key)) = true.
Proof.
  intros H. apply List.forallb_forall. intros t Ht.
  apply in_map_iff in Ht as (prop & <- & Hprop).
  apply occurrences_In in Hprop as (obj & Hobj & Hget).
  rewrite List.forallb_forall in H. specialize (H obj Hobj). simpl in H.
  rewrite List.forallb_forall in H.
  apply (H (key, prop)). now apply get_prop_In.
Qed.

Lemma merge_key_normalized objects key :
  forallb (fun o => normalized (ObjectT o)) objects = true ->
  normalized (type (merge_key objects key)) = true.
Proof.
  intros H. rewrite merge_key_unfold. cbv zeta. cbn [type].
  apply separate_null_normalized, mergeTypes_normalized.
  now apply occurrences_normalized.
Qed.

Lemma mergeObjectTypes_normalized objects name :
  forallb (fun o => normalized (ObjectT o)) objects = true ->
  normalized (ObjectT (mergeObjectTypes objects name)) = true.
Proof.
  intros H. destruct objects as [|o1 [|o2 objects]].
  - reflexivity.
  - simpl in *. now rewrite andb_true_r in H.
  - unfold ObjectT. cbn [normalized]. apply List.forallb_forall.
    apply List.Forall_forall.
    apply (mergeObjectTypes_Forall
             (fun kp => normalized (type (snd kp)) = true)).
    intros k _. now apply merge_key_normalized.
Qed.

(** ** Invariants of the inference traversal

    [infer] builds its result from leaves, [Array], the two merge
    functions and freshly recorded properties, and changes its state by
    pushing warnings and infos, generating names and counting fields.  A
    predicate on types closed under the former, and a predicate on states
    closed under the latter, hold of whatever [infer] returns. *)

Lemma as_object_Some t o : as_object t = Some o -> t = ObjectT o.
Proof. destruct t; try discriminate. intros [= <-]. reflexivity. Qed.

Section InferInvariant.

Variable settings : InferSettings.
Variable Q : InferredType -> Prop.
Variable I : InferState -> Prop.

Hypothesis Q_primitive : forall k, Q (Primitive k).
Hypothesis Q_unknown : Q Unknown.
Hypothesis Q_date : Q DateString.
Hypothesis Q_array : forall e, Q e -> Q (Array e).
Hypothesis Q_mergeTypes : forall ts, Forall Q ts -> Q (mergeTypes ts).
Hypothesis Q_mergeObjects :
  forall objs name,
    Forall (fun o => Q (ObjectT o)) objs ->
    Q (ObjectT (mergeObjectTypes objs name)).
Hypothesis Q_object :
  forall props name,
    Forall (fun kp => fresh_property Q (snd kp)) props ->
    Q (Object props name).
Hypothesis Q_rename :
  forall props name name', Q (Object props name) -> Q (Object props name').
Hypothesis I_push :
  forall d st, level d <> error -> I st -> I (push_diagnostic d st).
Hypothesis I_generate :
  forall segs st, I st -> I (snd (nameGen_generate segs st)).
Hypothesis I_incr : forall st, I st -> I (incr_fieldCount st).

Lemma infer_elements_good arr :
  Forall (good_value_for settings Q I) arr ->
  forall path i objs others st,
    I st ->
    Forall (fun o => Q (ObjectT o)) objs ->
    Forall Q others ->
    Forall (fun o => Q (ObjectT o))
      (fst (fst (infer_elements (infer settings) path i objs others st arr)))
    /\ Forall Q
         (snd (fst (infer_elements (infer settings) path i objs others st
                      arr)))
    /\ I (snd (infer_elements (infer settings) path i objs others st arr)).
Proof.
  induction 1 as [|v arr Hv _ IH]; intros path i objs others st Hst Ho Hq;
    simpl; [auto|].
  destruct (infer settings v _ st) as [elemType st1] eqn:E.
  destruct (Hv (path ++ ["[" +:+ string_of_nat i +:+ "]"]) st Hst)
    as (HQ & _ & HI).
  rewrite E in HQ, HI. simpl in HQ, HI.
  destruct (as_object elemType) as [o|] eqn:Eo.
  - apply IH; [exact HI | | exact Hq].
    apply Forall_app. split; [exact Ho|].
    constructor; [|constructor]. apply as_object_Some in Eo. now subst.
  - apply IH; [exact HI | exact Ho |].
    apply Forall_app. split; [exact Hq | now repeat constructor].
Qed.

Lemma inferArray_good arr :
  Forall (good_value_for settings Q I) arr ->
  forall path st,
    I st -> good_result Q I (inferArray_body (infer settings) arr path st).
Proof.
  intros Harr path st Hst. unfold inferArray_body.
  destruct arr as [|v arr'].
  { repeat split; [now apply Q_array | now apply I_push]. }
  set (arr := v :: arr') in *.
  destruct (infer_elements_good arr Harr path 0 [] [] st Hst
              (List.Forall_nil _) (List.Forall_nil _)) as (Ho & Hq & HI).
  destruct (infer_elements (infer settings) path 0 [] [] st arr)
    as [[objectElements otherElements] st1].
  simpl in Ho, Hq, HI.
  destruct (length objectElements =? length arr)%nat.
  - pose proof (I_generate (name_segments path ++ ["item"]) st1 HI) as HI2.
    destruct (nameGen_generate _ st1) as [itemName st2].
    repeat split; [now apply Q_array, Q_mergeObjects | exact HI2].
  - destruct (length objectElements =? 0)%nat.
    + repeat split; [now apply Q_array, Q_mergeTypes|]. simpl.
      destruct (is_union (mergeTypes otherElements));
        [now apply I_push | exact HI].
    + assert (HI2 : I (push_diagnostic
                         (mkDiagnostic warning
                            ("Mixed element types (objects and primitives) in array at "
                             +:+ dquote +:+ or_default (join "." path) "root"
                             +:+ dquote +:+ ".") (join "." path)) st1))
        by now apply I_push.
      destruct (0 <? length objectElements)%nat.
      * pose proof (I_generate (name_segments path ++ ["item"]) _ HI2)
          as HI3.
        destruct (nameGen_generate _ (push_diagnostic _ st1))
          as [itemName st3].
        repeat split; [|exact HI3].
        apply Q_array, Q_mergeTypes, Forall_app. split; [exact Hq|].
        constructor; [now apply Q_mergeObjects | constructor].
      * repeat split; [|exact HI2].
        apply Q_array, Q_mergeTypes, Forall_app.
        split; [exact Hq | constructor].
Qed.

Lemma infer_properties_good obj :
  Forall (fun kv => good_value_for settings Q I (snd kv)) obj ->
  forall path props st,
    I st ->
    Forall (fun kp => fresh_property Q (snd kp)) props ->
    Forall (fun kp => fresh_property Q (snd kp))
      (fst (infer_properties (infer settings) path props st obj))
    /\ I (snd (infer_properties (infer settings) path props st obj)).
Proof.
  induction 1 as [|[key val] obj Hv _ IH]; intros path props st Hst Hp;
    simpl; [auto|].
  destruct (infer settings val (path ++ [key]) (incr_fieldCount st))
    as [childType st2] eqn:E.
  destruct (Hv (path ++ [key]) (incr_fieldCount st) (I_incr st Hst))
    as (HQ & Hnu & HI).
  simpl in HQ, Hnu, HI. rewrite E in HQ, Hnu, HI. simpl in HQ, Hnu, HI.
  apply IH; [exact HI|].
  apply set_prop_Forall; [exact Hp|]. simpl.
  destruct (is_null childType) eqn:En; [now left|].
  right. simpl. auto.
Qed.

Lemma inferObject_good obj :
  Forall (fun kv => good_value_for settings Q I (snd kv)) obj ->
  forall path st,
    I st ->
    Forall (fun kp => fresh_property Q (snd kp))
      (properties (fst (inferObject_body settings (infer settings) obj path
                          st)))
    /\ I (snd (inferObject_body settings (infer settings) obj path st)).
Proof.
  intros Hobj path st Hst. unfold inferObject_body.
  destruct (infer_properties_good obj Hobj path [] st Hst (List.Forall_nil _))
    as (Hp & HI).
  destruct (infer_properties (infer settings) path [] st obj)
    as [props st1].
  simpl in Hp, HI.
  pose proof (fun segs => I_generate segs st1 HI) as HI2.
  destruct path as [|p path'];
    [specialize (HI2 [rootTypeName settings])
    |specialize (HI2 (name_segments (p :: path')))];
    destruct (nameGen_generate _ st1) as [name st2]; auto.
Qed.

Theorem infer_good : forall v, good_value_for settings Q I v.
Proof.
  induction v as [|s| |b|arr IH|obj IH|] using Value_ind;
    intros path st Hst; simpl.
  - repeat split; simpl; auto.
  - destruct (detectDates settings && Regex.test ISO_DATE_REGEX s);
      repeat split; simpl; auto.
  - repeat split; simpl; auto.
  - repeat split; simpl; auto.
  - now apply inferArray_good.
  - destruct (inferObject_good obj IH path st Hst) as (Hp & HI).
    destruct (inferObject_body settings (infer settings) obj path st)
      as [o st'].
    repeat split; simpl; [|exact HI]. now apply Q_object.
  - repeat split; simpl; auto.
Qed.

Theorem inferType_good value :
  I initial_state ->
  Q (result_type (inferType value settings)).
Proof.
  intros H0. unfold inferType. destruct (root_rejected value) eqn:Hroot.
  - destruct value; try discriminate Hroot; simpl; auto.
    destruct (detectDates settings && Regex.test ISO_DATE_REGEX s); simpl;
      auto.
  - destruct (infer_good value [] initial_state H0) as (HQ & _ & _).
    destruct (infer settings value [] initial_state) as [rootType st].
    simpl in *. destruct rootType; eauto.
Qed.

End InferInvariant.

(** ** Inference returns normalised trees *)

Lemma Forall_forallb {A : Type} (f : A -> bool) l :
  Forall (fun x => f x = true) l <-> forallb f l = true.
Proof. rewrite List.Forall_forall, List.forallb_forall. tauto. Qed.

Lemma fresh_normalized (props : PropertyMap) :
  Forall (fun kp => fresh_property (fun t => normalized t = true) (snd kp))
    props ->
  forallb (fun kp => normalized (type (snd kp))) props = true.
Proof.
  intros H. apply Forall_forallb.
  eapply List.Forall_impl; [|exact H]. simpl.
  intros [k p] [->|(Hn & _)]; [reflexivity | exact Hn].
Qed.

Lemma infer_normalized settings v path st :
  normalized (fst (infer settings v path st)) = true.
Proof.
  apply (infer_good settings (fun t => normalized t = true) (fun _ => True));
    auto.
  - intros ts H. now apply mergeTypes_normalized, Forall_forallb.
  - intros objs name H.
    apply mergeObjectTypes_normalized.
    now apply (Forall_forallb (fun o => normalized (ObjectT o))).
  - intros props name H. simpl. now apply fresh_normalized.
Qed.





(** ** Diagnostics *)

Lemma nameGen_generate_diagnostics segs st :
  st_diagnostics (snd (nameGen_generate segs st)) = st_diagnostics st.
Proof.
  unfold nameGen_generate. now destruct (generate segs (st_usedNames st)).
Qed.

Lemma has_error_push d ds :
  level d <> error -> has_error (ds ++ [d]) = has_error ds.
Proof.
  intros H. unfold has_error. rewrite existsb_app. simpl.
  unfold is_error. destruct (level d); [contradiction| |];
    now rewrite !orb_false_r.
Qed.

(** The traversal itself never reports an error. *)
Lemma infer_has_error settings v path st :
  has_error (st_diagnostics (snd (infer settings v path st)))
  = has_error (st_diagnostics st).
Proof.
  apply (infer_good settings (fun _ => True)
           (fun st' => has_error (st_diagnostics st')
                       = has_error (st_diagnostics st))); auto.
  - intros d st' Hd H. simpl. now rewrite has_error_push.
  - intros segs st' H. now rewrite nameGen_generate_diagnostics.
Qed.

(** With property objects read as finite maps of their own properties:
    the diagnostics of [inferType] contain an error-level entry if and only
    if the outermost value is neither an Object nor an Array; in that case
    the error diagnostic comes with the best-effort IR of the raw value. *)
Lemma inferType_error_iff value settings :
  (has_error (diagnostics (inferType value settings)) = true
   <-> is_object_or_array value = false)
  /\ (is_object_or_array value = false ->
      result_type (inferType value settings) = best_effort settings value
      /\ In (mkDiagnostic error "Root value must be an object or array." "")
           (diagnostics (inferType value settings))).
Proof.
  unfold inferType.
  destruct value as [|s| |b|arr|obj|]; cbn [root_rejected is_object_or_array].
  1-4, 7:
    (split; [split; [reflexivity|intros _]|intros _]; simpl;
     try destruct (detectDates settings && Regex.test ISO_DATE_REGEX s);
     simpl; auto).
  - pose proof (infer_has_error settings (VArray arr) [] initial_state) as H.
    destruct (infer settings (VArray arr) [] initial_state) as [t st].
    simpl in *. rewrite H. split; [split|]; discriminate.
  - pose proof (infer_has_error settings (VObject obj) [] initial_state) as H.
    destruct (infer settings (VObject obj) [] initial_state) as [t st].
    simpl in *. rewrite H. split; [split|]; discriminate.
Qed.

(** ** Date strings *)

Example ISO_DATE_REGEX_accepts :
  map (Regex.test ISO_DATE_REGEX)
    ["2025-01-15T09:30:00.000Z"; "2025-01-15"; "2025-01-15T09:30";
     "2025-01-15T09:30:00+05:30"; "2025-01-15T09:30-0800"]
  = [true; true; true; true; true].
Proof. reflexivity. Qed.

Example ISO_DATE_REGEX_rejects :
  map (Regex.test ISO_DATE_REGEX)
    ["2025-1-15"; "2025-01-15Z"; "2025-01-15T09"; "2025-01-15T09:30:00.";
     "x2025-01-15"; "2025-01-15 "; ""]
  = [false; false; false; false; false; false; false].
Proof. reflexivity. Qed.

Example scenario_E_dates_on :
  result_type (inferType scenario_E date_settings)
  = Object [("createdAt", mkPropertyInfo DateString false false)] "Root"
  /\ schema_fields
       (mkObjectType [("createdAt", mkPropertyInfo DateString false false)]
          "Root") date_generate_settings
     = ["  createdAt: z.string().datetime(),"].
Proof. split; reflexivity. Qed.

Example scenario_E_dates_off :
  result_type (inferType scenario_E plain_settings)
  = Object [("createdAt", mkPropertyInfo (Primitive PString) false false)]
      "Root".
Proof. reflexivity. Qed.

(** C8.  With [detectDates = true], every string value matching the
    ISO-8601 pattern infers to [DateString] and pushes an info diagnostic
    whose path is the path of the value; the schema emitter renders
    [DateString] as [z.string().datetime()]; with [detectDates = false] the
    same string infers to [Primitive(string)] and nothing is pushed. *)
Theorem date_string_detection :
  forall settings s segments st,
    Regex.test ISO_DATE_REGEX s = true ->
    (detectDates settings = true ->
     exists d,
       infer settings (VString s) segments st
       = (DateString, push_diagnostic d st)
       /\ level d = info /\ path d = join "." segments
       /\ st_diagnostics (snd (infer settings (VString s) segments st))
          = st_diagnostics st ++ [d])
    /\ (forall gs, gen_detectDates gs = true ->
                   typeToZod DateString gs = "z.string().datetime()")
    /\ (detectDates settings = false ->
        infer settings (VString s) segments st = (Primitive PString, st)).
Proof.
  intros settings s segments st Hmatch. split; [|split].
  - intros Hon. simpl. rewrite Hon, Hmatch. simpl.
    eexists. split; [reflexivity|]. repeat split.
  - intros gs Hgs. simpl. now rewrite Hgs.
  - intros Hoff. simpl. now rewrite Hoff.
Qed.

Lemma date_string_detection_witness :
  (exists d,
      infer date_settings (VString "2025-01-15T09:30:00.000Z") ["createdAt"]
        initial_state
      = (DateString, push_diagnostic d initial_state)
      /\ level d = info /\ path d = "createdAt")
  /\ infer plain_settings (VString "2025-01-15T09:30:00.000Z") ["createdAt"]
       initial_state
     = (Primitive PString, initial_state)
  /\ typeToZod DateString date_generate_settings = "z.string().datetime()".
Proof.
  destruct (date_string_detection date_settings "2025-01-15T09:30:00.000Z"
              ["createdAt"] initial_state eq_refl) as (Hon & Hzod & _).
  destruct (date_string_detection plain_settings "2025-01-15T09:30:00.000Z"
              ["createdAt"] initial_state eq_refl) as (_ & _ & Hoff).
  destruct (Hon eq_refl) as (d & Hd & Hlevel & Hpath & _).
  split; [exists d; auto|].
  split; [exact (Hoff eq_refl) | exact (Hzod date_generate_settings eq_refl)].
Defined.

(** ** Names *)

Lemma generate_fresh segs (used : gmap string nat) :
  default 0%nat (used !! candidate_of segs) = 0%nat ->
  generate segs used = (candidate_of segs, <[candidate_of segs := 1%nat]> used).
Proof.
  intros H. unfold generate. fold (candidate_of segs). now rewrite H.
Qed.

Lemma generate_again segs (used : gmap string nat) n :
  used !! candidate_of segs = Some (S n) ->
  generate segs used
  = (candidate_of segs +:+ string_of_nat (S (S n)),
     <[candidate_of segs := S (S n)]> used).
Proof.
  intros H. unfold generate. fold (candidate_of segs). rewrite H. simpl.
  now rewrite Nat.add_1_r.
Qed.

(** Calls for other candidate names leave the count of a name alone. *)
Lemma generate_other segs (used : gmap string nat) name :
  name <> candidate_of segs ->
  snd (generate segs used) !! name = used !! name.
Proof.
  intros H. unfold generate. fold (candidate_of segs).
  destruct (default 0%nat (used !! candidate_of segs) =? 0)%nat; simpl;
    now rewrite lookup_insert_ne.
Qed.

(** The first three names handed out for a base [B] are [B], [B2], [B3]. *)
Lemma generate_suffixes segs :
  let B := candidate_of segs in
  let r1 := generate segs ∅ in
  let r2 := generate segs (snd r1) in
  let r3 := generate segs (snd r2) in
  fst r1 = B /\ fst r2 = B +:+ "2" /\ fst r3 = B +:+ "3".
Proof.
  cbv zeta.
  rewrite (generate_fresh segs ∅) by now rewrite lookup_empty.
  cbn [fst snd].
  rewrite (generate_again segs _ 0) by now rewrite lookup_insert_eq.
  cbn [fst snd].
  rewrite (generate_again segs _ 1) by now rewrite lookup_insert_eq.
  cbn [fst snd]. auto.
Qed.

(** C1.  The allocator hands out the same string twice within one run:
    the second use of base [Item] is suffixed to [Item2], and the first use
    of base [Item2] is then returned bare.  In the tree inferred from
    [{"item": {..}, "Item": {..}, "item2": {..}}] two [Object] nodes are
    both named [Item2]; and in the tree inferred from [{"root": {}}] the
    child takes [Root] before the root object, whose name is then forced
    back to [Root]. *)
Theorem generate_returns_duplicate :
  (let r1 := generate ["item"] ∅ in
   let r2 := generate ["item"] (snd r1) in
   let r3 := generate ["item2"] (snd r2) in
   fst r1 = "Item" /\ fst r2 = "Item2" /\ fst r3 = "Item2")
  /\ map typeName
       (collectObjects (result_type (inferType colliding_keys plain_settings)))
     = ["Root"; "Item"; "Item2"; "Item2"]
  /\ map typeName
       (collectObjects
          (result_type (inferType root_named_child plain_settings)))
     = ["Root"; "Root"].
Proof. vm_compute. repeat split. Qed.

(** ** Null observations *)

Lemma flatten_one_Forall (P : InferredType -> Prop) :
  (forall vs, P (Union vs) -> Forall P vs) ->
  forall t, P t -> Forall P (flatten_one t).
Proof.
  intros Hinherit.
  induction t as [k|e IH|props name IH|vs IH| |] using InferredType_ind;
    intros Ht; try (simpl; now repeat constructor).
  apply Hinherit in Ht. simpl.
  induction IH as [|v vs Hv _ IHvs]; simpl; [constructor|].
  inversion Ht; subst. apply Forall_app. auto.
Qed.

Lemma flattenUnions_Forall (P : InferredType -> Prop) types :
  (forall vs, P (Union vs) -> Forall P vs) ->
  Forall P types -> Forall P (flattenUnions types).
Proof.
  intros Hinherit H. unfold flattenUnions.
  induction H as [|t types Ht _ IH]; simpl; [constructor|].
  apply Forall_app. split; [now apply flatten_one_Forall | exact IH].
Qed.

Lemma finalTypes_Forall (P : InferredType -> Prop) types :
  Forall P (flattenUnions types) -> Forall P (finalTypes types).
Proof.
  rewrite !List.Forall_forall. intros H x Hx.
  now apply H, finalTypes_In.
Qed.













Section InferLoops.

Variable infer_rec :
  Value -> list string -> InferState -> InferredType * InferState.


Hypothesis infer_rec_null :
  forall segments st, infer_rec VNull segments st = (Primitive PNull, st).


Lemma infer_elements_lengths arr :
  forall segments i objs others st,
    (length (fst (fst (infer_elements infer_rec segments i objs others st
                         arr)))
     + length (snd (fst (infer_elements infer_rec segments i objs others st
                           arr)))
     = length objs + length others + length arr)%nat.
Proof.
  induction arr as [|v arr IH]; intros segments i objs others st; simpl;
    [lia|].
  destruct (infer_rec v _ st) as [elemType st1].
  destruct (as_object elemType); rewrite IH, length_app; simpl; lia.
Qed.

Lemma infer_elements_others_kept arr :
  forall segments i objs others st t,
    In t others ->
    In t (snd (fst (infer_elements infer_rec segments i objs others st arr))).
Proof.
  induction arr as [|v arr IH]; intros segments i objs others st t Ht;
    simpl; [exact Ht|].
  destruct (infer_rec v _ st) as [elemType st1].
  destruct (as_object elemType); apply IH; [exact Ht|].
  apply in_or_app. now left.
Qed.

Lemma infer_elements_null arr :
  forall segments i objs others st,
    In VNull arr ->
    In (Primitive PNull)
      (snd (fst (infer_elements infer_rec segments i objs others st arr))).
Proof.
  induction arr as [|v arr IH]; intros segments i objs others st Hin;
    simpl; [destruct Hin|].
  destruct Hin as [->|Hin].
  - rewrite infer_rec_null. simpl.
    apply infer_elements_others_kept, in_or_app. right. now left.
  - destruct (infer_rec v _ st) as [elemType st1].
    destruct (as_object elemType); now apply IH.
Qed.

End InferLoops.

Lemma typesEqual_null r :
  typesEqual r (Primitive PNull) = true -> is_null r = true.
Proof. destruct r as [[]| | | | |]; simpl; congruence. Qed.

Lemma dedupe_fold_covers types :
  forall acc x,
    (exists r, In r acc /\ typesEqual r x = true) \/ In x types ->
    exists r,
      In r (fold_left dedupe_step types acc) /\ typesEqual r x = true.
Proof.
  induction types as [|t types IH]; intros acc x Hx; simpl.
  - destruct Hx as [Hx|[]]. exact Hx.
  - apply IH. unfold dedupe_step.
    destruct (existsb (fun r => typesEqual r t) acc) eqn:E; simpl.
    + destruct Hx as [Hx|[<-|Hx]]; [now left| |now right].
      left. apply List.existsb_exists in E. exact E.
    + destruct Hx as [(r & Hr & Hrx)|[<-|Hx]]; [left|left|now right].
      * exists r. split; [apply in_or_app; now left | exact Hrx].
      * exists t. split; [apply in_or_app; right; now left|].
        apply typesEqual_refl.
Qed.

Lemma mergeTypes_keeps_null types :
  In (Primitive PNull) types ->
  mergeTypes types = Primitive PNull
  \/ exists vs, mergeTypes types = Union vs /\ In (Primitive PNull) vs.
Proof.
  intros Hin. destruct types as [|t types]; [destruct Hin|].
  rewrite mergeTypes_finalTypes.
  assert (Hfinal : In (Primitive PNull) (finalTypes (t :: types))).
  { assert (Hflat : In (Primitive PNull) (flattenUnions (t :: types))).
    { unfold flattenUnions. apply in_flat_map. exists (Primitive PNull).
      split; [exact Hin | now left]. }
    destruct (dedupe_fold_covers (flattenUnions (t :: types)) []
                (Primitive PNull) (or_intror Hflat)) as (r & Hr & Hrn).
    apply typesEqual_null in Hrn.
    destruct r as [[]| | | | |]; try discriminate Hrn.
    assert (Hmeaningful :
              In (Primitive PNull)
                (List.filter (fun t => negb (is_unknown t))
                   (deduplicateTypes (flattenUnions (t :: types))))).
    { apply List.filter_In. split; [exact Hr | reflexivity]. }
    unfold finalTypes.
    destruct (List.filter _ (deduplicateTypes _)) as [|m ms];
      [destruct Hmeaningful | exact Hmeaningful]. }
  destruct (finalTypes (t :: types)) as [|x [|y l]].
  - destruct Hfinal.
  - left. destruct Hfinal as [->|[]]. reflexivity.
  - right. eauto.
Qed.

Lemma infer_null settings segments st :
  infer settings VNull segments st = (Primitive PNull, st).
Proof. reflexivity. Qed.


Lemma inferArray_null settings arr segments st :
  In VNull arr ->
  exists e,
    fst (inferArray settings arr segments st) = Array e
    /\ (e = Primitive PNull
        \/ exists vs, e = Union vs /\ In (Primitive PNull) vs).
Proof.
  intros Hin. unfold inferArray, inferArray_body.
  destruct arr as [|v arr']; [destruct Hin|].
  set (arr := v :: arr') in *.
  pose proof (infer_elements_null (infer settings) (infer_null settings)
                arr segments 0 [] [] st Hin) as Hnull.
  pose proof (infer_elements_lengths (infer settings) arr segments 0 [] [] st)
    as Hlen.
  destruct (infer_elements (infer settings) segments 0 [] [] st arr)
    as [[objectElements otherElements] st1].
  simpl in Hnull, Hlen.
  assert (Hpos : (0 < length otherElements)%nat).
  { destruct otherElements; [destruct Hnull | simpl; lia]. }
  destruct (Nat.eqb_spec (length objectElements) (length arr)) as [Heq|_];
    [subst arr; simpl in *; lia|].
  destruct (length objectElements =? 0)%nat.
  - eexists. split; [reflexivity|]. now apply mergeTypes_keeps_null.
  - destruct (0 <? length objectElements)%nat;
      [destruct (nameGen_generate _ _) as [itemName st3]|];
      (eexists; split; [reflexivity|]);
      apply mergeTypes_keeps_null, in_or_app; now left.
Qed.


(** ** Property keys in the emitters *)

Example snakeToCamel_samples :
  map snakeToCamel ["user_name"; "created_at"; "is_active"; "name"; "userName"]
  = ["userName"; "createdAt"; "isActive"; "name"; "userName"].
Proof. reflexivity. Qed.

Example isSnakeCase_samples :
  map isSnakeCase
    ["user_name"; "created_at"; "a_b_c"; "name"; "userName"; "Name";
     "_private"]
  = [true; true; true; false; false; false; false].
Proof. reflexivity. Qed.

(** An underscore followed by a digit is accepted by [isSnakeCase] and left
    in place by [snakeToCamel]. *)
Example snakeToCamel_digit_segment :
  isSnakeCase "line_1" = true /\ snakeToCamel "line_1" = "line_1".
Proof. split; reflexivity. Qed.

Example snake_sample_emitted :
  declaration_fields snake_sample snake_generate_settings
  = ["  userName: string;"; "  age: number;"]
  /\ snakeConversions snake_sample snake_generate_settings
     = [key_annotation "user_name"]
  /\ schema_fields snake_sample snake_generate_settings
     = ["  user_name: z.string(),"; "  age: z.number(),"]
  /\ map_throwing (example_field snake_generate_settings 0)
       (properties snake_sample)
     = Some ["  userName: " +:+ dquote +:+ dquote +:+ ","; "  age: 0,"].
Proof. repeat split; reflexivity. Qed.

Lemma typeToZod_snake_irrelevant t settings b :
  typeToZod t (with_snakeToCamel settings b) = typeToZod t settings.
Proof.
  induction t as [k|e IH|props name IH|vs IH| |] using InferredType_ind;
    simpl; try reflexivity.
  - now rewrite IH.
  - assert (Hmap : map (fun v => typeToZod v (with_snakeToCamel settings b)) vs
                   = map (fun v => typeToZod v settings) vs).
    { induction IH as [|v vs Hv _ IHvs]; simpl; [reflexivity|].
      now rewrite Hv, IHvs. }
    now rewrite Hmap.
Qed.

Lemma schema_fields_snake_irrelevant obj settings b :
  schema_fields obj (with_snakeToCamel settings b) = schema_fields obj settings.
Proof.
  unfold schema_fields. apply map_ext. intros [key prop].
  now rewrite typeToZod_snake_irrelevant.
Qed.

Lemma generateObjectSchema_snake_irrelevant obj settings b :
  generateObjectSchema obj (with_snakeToCamel settings b)
  = generateObjectSchema obj settings.
Proof.
  unfold generateObjectSchema. now rewrite schema_fields_snake_irrelevant.
Qed.

Lemma Forall2_map_r {A B : Type} (R : A -> B -> Prop) (f : A -> B) l :
  (forall x, In x l -> R x (f x)) -> Forall2 R l (map f l).
Proof.
  induction l as [|x l IH]; intros H; simpl; constructor.
  - apply H. now left.
  - apply IH. intros y Hy. apply H. now right.
Qed.

Lemma tsKey_of_rewritten settings key :
  gen_snakeToCamel settings = true -> tsKey_of settings key = rewritten_key key.
Proof. intros H. unfold tsKey_of, rewritten_key. now rewrite H. Qed.

Lemma declaration_fields_keys obj settings :
  gen_snakeToCamel settings = true ->
  Forall2
    (fun kp line =>
       line
       = "  " +:+ rewritten_key (fst kp)
         +:+ (if optional (snd kp) then "?" else "") +:+ ": "
         +:+ typeToTS (type (snd kp)) settings
         +:+ (if nullable (snd kp) then " | null" else "") +:+ ";")
    (properties obj) (declaration_fields obj settings).
Proof.
  intros Hon. unfold declaration_fields. apply Forall2_map_r.
  intros [key prop] _. cbn [fst snd]. now rewrite tsKey_of_rewritten.
Qed.

Lemma snakeConversions_In obj settings key prop :
  gen_snakeToCamel settings = true ->
  In (key, prop) (properties obj) ->
  isSnakeCase key = true ->
  In (key_annotation key) (snakeConversions obj settings).
Proof.
  intros Hon Hin Hsnake. unfold snakeConversions. apply in_flat_map.
  exists (key, prop). split; [exact Hin|]. rewrite Hon, Hsnake. now left.
Qed.

Lemma append_assoc (a b c : string) : (a +:+ b) +:+ c = a +:+ (b +:+ c).
Proof.
  induction a as [|ch a IH]; [reflexivity|].
  change (String ch ((a +:+ b) +:+ c) = String ch (a +:+ (b +:+ c))).
  now rewrite IH.
Qed.

Lemma snakeConversions_annotated obj settings :
  snakeConversions obj settings <> [] ->
  exists declaration,
    generateObjectDeclaration obj settings
    = "/**" +:+ nl +:+ join nl (snakeConversions obj settings) +:+ nl
      +:+ " */" +:+ nl +:+ declaration.
Proof.
  intros H. unfold generateObjectDeclaration.
  destruct (snakeConversions obj settings) as [|c cs]; [contradiction|].
  cbn [length Nat.ltb Nat.leb].
  destruct (outputStyle settings); eexists; rewrite !append_assoc;
    reflexivity.
Qed.

Lemma schema_fields_keys obj settings :
  Forall2
    (fun kp line =>
       exists zodType, line = "  " +:+ fst kp +:+ ": " +:+ zodType +:+ ",")
    (properties obj) (schema_fields obj settings).
Proof.
  unfold schema_fields. apply Forall2_map_r.
  intros [key prop] _. cbn [fst]. eexists. reflexivity.
Qed.

Lemma generateValue_object props name settings indent :
  props <> [] ->
  generateValue (Object props name) settings indent
  = match map_throwing (example_field settings indent) props with
    | Some fields =>
        Some ("{" +:+ nl +:+ join nl fields +:+ nl
              +:+ repeat_string "  " indent +:+ "}")
    | None => None
    end.
Proof.
  intros H. destruct props as [|kp props]; [contradiction|].
  reflexivity.
Qed.

Lemma map_throwing_Forall2 {A B : Type} (f : A -> option B) l ys :
  map_throwing f l = Some ys -> Forall2 (fun x y => f x = Some y) l ys.
Proof.
  revert ys. induction l as [|x l IH]; intros ys; simpl.
  - intros [= <-]. constructor.
  - destruct (f x) as [y|] eqn:Ey; [|discriminate].
    destruct (map_throwing f l) as [ys'|]; [|discriminate].
    intros [= <-]. constructor; [exact Ey | now apply IH].
Qed.

Lemma example_fields_keys settings indent props fields :
  gen_snakeToCamel settings = true ->
  map_throwing (example_field settings indent) props = Some fields ->
  Forall2
    (fun kp line =>
       exists val,
         line = repeat_string "  " (indent + 1) +:+ rewritten_key (fst kp)
                +:+ ": " +:+ val +:+ ",")
    props fields.
Proof.
  intros Hon H. apply map_throwing_Forall2 in H.
  eapply Forall2_impl; [exact H|].
  intros [key prop] line Hline. unfold example_field in Hline.
  destruct (if nullable prop then _ else _) as [val|]; [|discriminate].
  injection Hline as <-. exists val. cbn [fst].
  now rewrite tsKey_of_rewritten.
Qed.

Lemma unions_nonempty_variants vs :
  unions_nonempty (Union vs) = true ->
  Forall (fun v => unions_nonempty v = true) vs.
Proof.
  simpl. intros H. apply andb_true_iff in H as [_ H]. now apply Forall_forallb.
Qed.

Lemma flatten_one_nonempty t : unions_nonempty t = true -> flatten_one t <> [].
Proof.
  induction t as [k|e IH|props name IH|vs IH| |] using InferredType_ind;
    intros H; try discriminate.
  simpl in *. destruct vs as [|v vs]; [discriminate|].
  simpl in H. apply andb_true_iff in H as [Hv _].
  inversion IH as [|? ? IHv _]; subst. specialize (IHv Hv).
  simpl. destruct (flatten_one v); [contradiction | discriminate].
Qed.

Lemma finalTypes_nonempty t types :
  unions_nonempty t = true -> finalTypes (t :: types) <> [].
Proof.
  intros H. unfold finalTypes.
  destruct (List.filter _ _) as [|m ms] eqn:E; [|discriminate].
  cbn [length Nat.ltb Nat.leb].
  unfold flattenUnions. simpl.
  pose proof (flatten_one_nonempty t H) as Hne.
  destruct (flatten_one t) as [|x xs]; [contradiction|].
  apply deduplicateTypes_nonempty.
Qed.

Lemma mergeTypes_unions_nonempty types :
  forallb unions_nonempty types = true ->
  unions_nonempty (mergeTypes types) = true.
Proof.
  intros H. destruct types as [|t types]; [reflexivity|].
  rewrite mergeTypes_finalTypes.
  assert (Hall : Forall (fun x => unions_nonempty x = true)
                   (finalTypes (t :: types))).
  { apply finalTypes_Forall, flattenUnions_Forall.
    - exact unions_nonempty_variants.
    - now apply Forall_forallb. }
  assert (Hne : finalTypes (t :: types) <> []).
  { apply finalTypes_nonempty. simpl in H. now apply andb_true_iff in H. }
  destruct (finalTypes (t :: types)) as [|x [|y l]].
  - contradiction.
  - now inversion Hall.
  - apply Forall_forallb in Hall. simpl in *. exact Hall.
Qed.

Lemma separate_null_unions_nonempty mergedType isNullable :
  unions_nonempty mergedType = true ->
  unions_nonempty (fst (separate_null mergedType isNullable)) = true.
Proof.
  intros H. rewrite separate_null_spec.
  destruct mergedType as [| | |variants| |]; try exact H.
  destruct (existsb is_null variants); [|exact H]. cbn [fst].
  apply unions_nonempty_variants, Forall_forallb in H.
  assert (H' := forallb_filter _ (fun v => negb (is_null v)) _ H).
  unfold collapse. destruct (List.filter _ variants) as [|x [|y l]].
  - reflexivity.
  - simpl in H'. now apply andb_true_iff in H' as [Hx _].
  - simpl in *. exact H'.
Qed.

Lemma mergeObjectTypes_unions_nonempty objects name :
  forallb (fun o => unions_nonempty (ObjectT o)) objects = true ->
  unions_nonempty (ObjectT (mergeObjectTypes objects name)) = true.
Proof.
  intros H. destruct objects as [|o1 [|o2 objects]].
  - reflexivity.
  - simpl in *. now rewrite andb_true_r in H.
  - unfold ObjectT. cbn [unions_nonempty]. apply List.forallb_forall.
    apply List.Forall_forall.
    apply (mergeObjectTypes_Forall
             (fun kp => unions_nonempty (type (snd kp)) = true)).
    intros k _. cbn [snd]. rewrite merge_key_unfold. cbv zeta. cbn [type].
    apply separate_null_unions_nonempty, mergeTypes_unions_nonempty.
    apply List.forallb_forall. intros t Ht.
    apply in_map_iff in Ht as (prop & <- & Hprop).
    apply occurrences_In in Hprop as (obj & Hobj & Hget).
    rewrite List.forallb_forall in H. specialize (H obj Hobj). simpl in H.
    rewrite List.forallb_forall in H.
    apply (H (k, prop)). now apply get_prop_In.
Qed.

Lemma inferType_unions_nonempty value settings :
  unions_nonempty (result_type (inferType value settings)) = true.
Proof.
  apply (inferType_good settings (fun t => unions_nonempty t = true)
           (fun _ => True)); auto.
  - intros ts H. now apply mergeTypes_unions_nonempty, Forall_forallb.
  - intros objs name H.
    apply mergeObjectTypes_unions_nonempty.
    now apply (Forall_forallb (fun o => unions_nonempty (ObjectT o))).
  - intros props name H. simpl. apply Forall_forallb.
    eapply List.Forall_impl; [|exact H]. simpl.
    intros [k p] [->|(Hq & _)]; [reflexivity | exact Hq].
Qed.

Lemma unions_nonempty_collect t :
  unions_nonempty t = true ->
  forall o, In o (collectObjects t) -> unions_nonempty (ObjectT o) = true.
Proof.
  induction t as [kd|e IH|props name IH|vs IH| |] using InferredType_ind;
    intros H o Ho; simpl in *; try contradiction.
  - eauto.
  - destruct Ho as [<-|Ho]; [exact H|].
    apply in_flat_map in Ho as (kp & Hkp & Ho).
    rewrite List.Forall_forall in IH. apply (IH kp Hkp); [|exact Ho].
    rewrite List.forallb_forall in H. now apply H.
  - apply andb_true_iff in H as [_ H].
    apply in_flat_map in Ho as (v & Hv & Ho).
    rewrite List.Forall_forall in IH. apply (IH v Hv); [|exact Ho].
    rewrite List.forallb_forall in H. now apply H.
Qed.

Lemma find_with_cases {A R : Type} (f : A -> R) (d : R) (p : A -> bool) l :
  find_with f d p l = d \/ exists x, In x l /\ find_with f d p l = f x.
Proof.
  induction l as [|x l IH]; simpl; [now left|].
  destruct (p x); [right; exists x; auto|].
  destruct IH as [IH|(y & Hy & IH)]; [now left|].
  right. exists y. auto.
Qed.

Lemma map_throwing_total {A B : Type} (f : A -> option B) l :
  (forall x, In x l -> exists y, f x = Some y) ->
  exists ys, map_throwing f l = Some ys.
Proof.
  induction l as [|x l IH]; intros H; simpl; [eauto|].
  destruct (H x (or_introl eq_refl)) as [y ->].
  destruct IH as [ys ->]; [intros z Hz; apply H; now right|]. eauto.
Qed.

(** [generateValue] does not throw on a tree without empty [Union]. *)
Lemma generateValue_total t :
  unions_nonempty t = true ->
  forall settings indent,
    exists out, generateValue t settings indent = Some out.
Proof.
  induction t as [k|e IH|props name IH|vs IH| |] using InferredType_ind;
    intros H settings indent.
  - destruct k; simpl; eauto.
  - simpl in *. destruct (IH H settings indent) as [v ->]. eauto.
  - destruct props as [|kp props]; [simpl; eauto|].
    rewrite generateValue_object by discriminate.
    destruct (map_throwing_total (example_field settings indent) (kp :: props))
      as [fields ->]; [|eauto].
    intros [key prop] Hin. unfold example_field.
    destruct (nullable prop); [eauto|].
    rewrite List.Forall_forall in IH.
    simpl in H. change (forallb (fun kp0 => unions_nonempty (type (snd kp0)))
                          (kp :: props) = true) in H.
    rewrite List.forallb_forall in H.
    destruct (IH _ Hin (H _ Hin) settings (indent + 1)%nat) as [val Hval].
    simpl in Hval. rewrite Hval. eauto.
  - pose proof (unions_nonempty_variants vs H) as Hvs.
    rewrite List.Forall_forall in IH, Hvs.
    assert (Hall : forall v, In v vs ->
              exists out, generateValue v settings indent = Some out).
    { intros v Hv. apply IH; auto. }
    cbn [generateValue].
    destruct (find_with_cases
                (fun nonNull => generateValue nonNull settings indent)
                (match vs with
                 | v0 :: _ => generateValue v0 settings indent
                 | [] => None
                 end)
                (fun v => negb (is_null v)) vs) as [->|(x & Hx & ->)].
    + destruct vs as [|v0 vs']; [discriminate H|]. apply Hall. now left.
    + now apply Hall.
  - simpl. eauto.
  - simpl. eauto.
Qed.

(** What the emitters do with property keys.  With [snakeToCamel = true],
    for every [Object] the declaration and example emitters print, for each
    property, its key rewritten by [snakeToCamel] when [isSnakeCase] accepts
    it (and the key itself otherwise); the declaration emitter heads the
    declaration with a comment that maps every rewritten key back to the
    original key; the schema emitter prints the original key of every
    property, and its output does not depend on [snakeToCamel].  The example
    emitter does produce its output for every [Object] of a tree returned
    by inference. *)
Lemma snake_keys_emitted :
  (forall settings obj,
      gen_snakeToCamel settings = true ->
      Forall2
        (fun kp line =>
           line
           = "  " +:+ rewritten_key (fst kp)
             +:+ (if optional (snd kp) then "?" else "") +:+ ": "
             +:+ typeToTS (type (snd kp)) settings
             +:+ (if nullable (snd kp) then " | null" else "") +:+ ";")
        (properties obj) (declaration_fields obj settings)
      /\ (forall key prop,
            In (key, prop) (properties obj) ->
            isSnakeCase key = true ->
            rewritten_key key = snakeToCamel key
            /\ In (key_annotation key) (snakeConversions obj settings)
            /\ exists declaration,
                 generateObjectDeclaration obj settings
                 = "/**" +:+ nl +:+ join nl (snakeConversions obj settings)
                   +:+ nl +:+ " */" +:+ nl +:+ declaration)
      /\ (forall indent,
            properties obj <> [] ->
            unions_nonempty (ObjectT obj) = true ->
            exists fields,
              generateValue (ObjectT obj) settings indent
              = Some ("{" +:+ nl +:+ join nl fields +:+ nl
                      +:+ repeat_string "  " indent +:+ "}")
              /\ Forall2
                   (fun kp line =>
                      exists val,
                        line = repeat_string "  " (indent + 1)
                               +:+ rewritten_key (fst kp) +:+ ": " +:+ val
                               +:+ ",")
                   (properties obj) fields))
  /\ (forall settings obj,
        Forall2
          (fun kp line =>
             exists zodType,
               line = "  " +:+ fst kp +:+ ": " +:+ zodType +:+ ",")
          (properties obj) (schema_fields obj settings)
        /\ generateObjectSchema obj settings
           = generateObjectSchema obj (with_snakeToCamel settings false))
  /\ (forall value isettings o,
        In o (collectObjects (result_type (inferType value isettings))) ->
        unions_nonempty (ObjectT o) = true).
Proof.
  split; [|split].
  - intros settings obj Hon. split; [now apply declaration_fields_keys|].
    split.
    + intros key prop Hin Hsnake.
      split; [unfold rewritten_key; now rewrite Hsnake|].
      pose proof (snakeConversions_In obj settings key prop Hon Hin Hsnake)
        as Hann.
      split; [exact Hann|]. apply snakeConversions_annotated.
      intros Hnil. rewrite Hnil in Hann. destruct Hann.
    + intros indent Hne Hun.
      destruct (generateValue_total _ Hun settings indent) as [out Hout].
      unfold ObjectT in *. rewrite generateValue_object in * by exact Hne.
      destruct (map_throwing (example_field settings indent) (properties obj))
        as [fields|] eqn:E; [|discriminate].
      exists fields. split; [reflexivity|].
      now apply (example_fields_keys settings indent).
  - intros settings obj. split; [apply schema_fields_keys|].
    symmetry. apply generateObjectSchema_snake_irrelevant.
  - intros value isettings o. apply unions_nonempty_collect.
    apply inferType_unions_nonempty.
Qed.

Lemma upper_char_not_lower c :
  is_lower c = true -> is_lower (upper_char c) = false.
Proof.
  intros H. unfold upper_char. rewrite H. unfold is_lower in *.
  apply andb_true_iff in H as [H1 H2].
  apply Nat.leb_le in H1, H2.
  rewrite nat_ascii_embedding by lia.
  apply andb_false_iff. left. apply Nat.leb_gt. lia.
Qed.

Lemma upper_char_not_underscore c :
  is_lower c = true -> Ascii.eqb (upper_char c) "_" = false.
Proof.
  intros H. apply Ascii.eqb_neq. intros Heq.
  pose proof (upper_char_not_lower c H) as Hup.
  unfold upper_char in Heq. rewrite H in Heq.
  unfold is_lower in H. apply andb_true_iff in H as [H1 H2].
  apply Nat.leb_le in H1, H2.
  apply (f_equal nat_of_ascii) in Heq.
  rewrite nat_ascii_embedding in Heq by lia.
  change (nat_of_ascii "_") with 95%nat in Heq. lia.
Qed.

Lemma snakeToCamel_head c r :
  match snakeToCamel (String c r) with
  | String x _ => is_lower x = true -> is_lower c = true
  | EmptyString => True
  end.
Proof.
  simpl. destruct r as [|c2 r']; [auto|].
  destruct (Ascii.eqb c "_" && is_lower c2) eqn:E; [|auto].
  apply andb_true_iff in E as [_ E].
  intros H. rewrite (upper_char_not_lower c2 E) in H. discriminate H.
Qed.

(** [snakeToCamel] leaves no underscore in front of a lowercase letter. *)
Lemma snakeToCamel_no_joint s :
  has_snake_joint (snakeToCamel s) = false.
Proof.
  enough (H : has_snake_joint (snakeToCamel s) = false
              /\ forall a, has_snake_joint (snakeToCamel (String a s)) = false)
    by apply H.
  induction s as [|c r' [IH1 IH2]].
  - split; [reflexivity | intros a; reflexivity].
  - split; [apply IH2|]. intros a.
    change (snakeToCamel (String a (String c r')))
      with (if Ascii.eqb a "_" && is_lower c
            then String (upper_char c) (snakeToCamel r')
            else String a (snakeToCamel (String c r'))).
    destruct (Ascii.eqb a "_" && is_lower c) eqn:E.
    + apply andb_true_iff in E as [_ E].
      cbn [has_snake_joint]. rewrite IH1, (upper_char_not_underscore c E).
      now destruct (snakeToCamel r').
    + cbn [has_snake_joint]. rewrite (IH2 c), orb_false_r.
      pose proof (snakeToCamel_head c r') as Hhead.
      destruct (snakeToCamel (String c r')) as [|x rest]; [reflexivity|].
      apply andb_false_iff in E as [E|E]; [now rewrite E|].
      destruct (is_lower x) eqn:Ex; [|apply andb_false_r].
      rewrite (Hhead eq_refl) in E. discriminate E.
Qed.

(** C9.  The rewriting misses a case: [isSnakeCase] accepts a key whose
    underscore is followed by a digit, and [snakeToCamel] replaces only an
    underscore followed by a lowercase letter.  With [snakeToCamel = true]
    the declaration and example emitters print the key [line_1] as it is,
    and the declaration is annotated ["line_1" maps to JSON key "line_1"];
    the schema emitter prints the original key, as claimed. *)
Theorem snake_digit_key_not_rewritten :
  isSnakeCase "line_1" = true
  /\ snakeToCamel "line_1" = "line_1"
  /\ declaration_fields digit_key_sample snake_generate_settings
     = ["  line_1: string;"]
  /\ snakeConversions digit_key_sample snake_generate_settings
     = ["  // " +:+ dquote +:+ "line_1" +:+ dquote +:+ " maps to JSON key "
        +:+ dquote +:+ "line_1" +:+ dquote]
  /\ generateValue (ObjectT digit_key_sample) snake_generate_settings 0
     = Some ("{" +:+ nl +:+ "  line_1: " +:+ dquote +:+ dquote +:+ ","
             +:+ nl +:+ "}")
  /\ schema_fields digit_key_sample snake_generate_settings
     = ["  line_1: z.string(),"].
Proof. repeat split; reflexivity. Qed.

(** * Further properties

    Properties of the code beyond the statements of its specification:
    edge cases, invariants and the way the functions compose. *)

(** ** Positions in the input *)

Lemma scan_position_app a :
  forall r p line column,
    scan_position (a +:+ r) (String.length a + p) line column
    = scan_position r p (fst (scan_position a (String.length a) line column))
        (snd (scan_position a (String.length a) line column)).
Proof.
  induction a as [|c a IH]; intros r p line column.
  - destruct r, p; reflexivity.
  - change (String c a +:+ r) with (String c (a +:+ r)).
    cbn [String.length Nat.add scan_position].
    destruct (Ascii.eqb c (ascii_of_nat 10)); apply IH.
Qed.

Lemma scan_position_no_newline b :
  no_newline b = true ->
  forall line column,
    scan_position b (String.length b) line column
    = (line, (column + String.length b)%nat).
Proof.
  induction b as [|c b IH]; intros Hb line column.
  - cbn. f_equal; lia.
  - cbn in Hb. apply andb_true_iff in Hb as [Hc Hb].
    cbn [String.length scan_position].
    destruct (Ascii.eqb c (ascii_of_nat 10)); [discriminate|].
    rewrite IH by exact Hb. f_equal; lia.
Qed.

Lemma length_append a b :
  String.length (a +:+ b) = (String.length a + String.length b)%nat.
Proof.
  induction a as [|c a IH]; [reflexivity|].
  change (String c a +:+ b) with (String c (a +:+ b)). cbn. now rewrite IH.
Qed.

Lemma scan_position_nl line column :
  scan_position nl (String.length nl) line column = (S line, 1%nat).
Proof. reflexivity. Qed.

Lemma scan_position_lines ls :
  Forall (fun l => no_newline l = true) ls ->
  forall line column,
    scan_position (concat_lines ls) (String.length (concat_lines ls))
      line column
    = match ls with
      | [] => (line, column)
      | _ => ((line + List.length ls)%nat, 1%nat)
      end.
Proof.
  induction 1 as [|l ls Hl Hls IH]; intros line column.
  - reflexivity.
  - cbn [concat_lines].
    rewrite length_append.
    rewrite scan_position_app.
    rewrite (scan_position_no_newline l Hl).
    cbn [fst snd].
    rewrite length_append.
    rewrite scan_position_app.
    rewrite scan_position_nl. cbn [fst snd].
    rewrite IH. destruct ls; cbn [List.length]; f_equal; lia.
Qed.

(** X1.  After [n] complete lines and [k] further characters of the next
    line, [positionToLineCol] answers line [n + 1], column [k + 1]. *)
Theorem positionToLineCol_lines :
  forall ls b rest,
    Forall (fun l => no_newline l = true) ls ->
    no_newline b = true ->
    positionToLineCol (concat_lines ls +:+ b +:+ rest)
      (String.length (concat_lines ls) + String.length b)
    = (S (List.length ls), S (String.length b)).
Proof.
  intros ls b rest Hls Hb. unfold positionToLineCol.
  replace (String.length (concat_lines ls) + String.length b)%nat
    with (String.length (concat_lines ls) + (String.length b + 0))%nat by lia.
  rewrite scan_position_app, (scan_position_lines ls Hls).
  rewrite scan_position_app, (scan_position_no_newline b Hb).
  destruct ls; cbn [fst snd List.length]; destruct rest; cbn; f_equal; lia.
Qed.

Lemma positionToLineCol_lines_witness :
  positionToLineCol
    (concat_lines ["{"; "  x: 1,"] +:+ "  y" +:+ ": }")
    (String.length (concat_lines ["{"; "  x: 1,"]) + String.length "  y")
  = (3%nat, 4%nat).
Proof.
  apply (positionToLineCol_lines ["{"; "  x: 1,"] "  y" ": }").
  - repeat constructor.
  - reflexivity.
Defined.

Lemma scan_position_clamped input :
  forall pos line column,
    (String.length input <= pos)%nat ->
    scan_position input pos line column
    = scan_position input (String.length input) line column.
Proof.
  induction input as [|c r IH]; intros pos line column Hle.
  - destruct pos; reflexivity.
  - cbn [String.length] in *. destruct pos as [|pos]; [lia|].
    cbn [scan_position].
    destruct (Ascii.eqb c (ascii_of_nat 10)); apply IH; lia.
Qed.

Lemma scan_position_step input :
  forall pos line column,
    let r := scan_position input pos line column in
    (line <= fst r)%nat
    /\ (fst r = line ->
        snd r = (column + Nat.min pos (String.length input))%nat)
    /\ (1 <= column -> 1 <= snd r)%nat
    /\ (1 <= column ->
        fst r + snd r
        <= line + column + Nat.min pos (String.length input))%nat.
Proof.
  induction input as [|c s IH]; intros pos line column; cbn zeta.
  - destruct pos; cbn; repeat split; lia.
  - destruct pos as [|pos]; [cbn; repeat split; lia|].
    cbn [scan_position String.length Nat.min].
    destruct (Ascii.eqb c (ascii_of_nat 10)).
    + specialize (IH pos (S line) 1%nat). cbn zeta in IH.
      destruct IH as (H1 & H2 & H3 & H4).
      repeat split; try lia; intros; lia.
    + specialize (IH pos line (S column)). cbn zeta in IH.
      destruct IH as (H1 & H2 & H3 & H4).
      repeat split; try lia; intros; try lia.
Qed.

(** X2.  Lines and columns are counted from 1, every character read
    advances exactly one of them, and a position at or beyond the end of
    the input is read as the end of the input. *)
Theorem positionToLineCol_clamped :
  forall input pos,
    (1 <= fst (positionToLineCol input pos))%nat
    /\ (1 <= snd (positionToLineCol input pos))%nat
    /\ (fst (positionToLineCol input pos) + snd (positionToLineCol input pos)
        <= 2 + Nat.min pos (String.length input))%nat
    /\ ((String.length input <= pos)%nat ->
        positionToLineCol input pos
        = positionToLineCol input (String.length input)).
Proof.
  intros input pos. unfold positionToLineCol.
  pose proof (scan_position_step input pos 1 1) as (H1 & _ & H3 & H4).
  cbn zeta in *. repeat split; try lia.
  apply scan_position_clamped.
Qed.

Lemma positionToLineCol_clamped_witness :
  positionToLineCol ("a" +:+ nl +:+ "bc") 99 = (2%nat, 3%nat).
Proof.
  rewrite (proj2 (proj2 (proj2
             (positionToLineCol_clamped ("a" +:+ nl +:+ "bc") 99)))).
  - reflexivity.
  - vm_compute. lia.
Defined.

Lemma scan_position_lt input :
  forall p q line column,
    (p < q)%nat -> (q <= String.length input)%nat ->
    let a := scan_position input p line column in
    let b := scan_position input q line column in
    (fst a < fst b)%nat \/ (fst a = fst b /\ (snd a < snd b)%nat).
Proof.
  induction input as [|c s IH]; intros p q line column Hpq Hq; cbn zeta.
  - cbn in Hq. lia.
  - cbn [String.length] in Hq. destruct q as [|q]; [lia|].
    destruct p as [|p].
    + cbn [scan_position fst snd].
      destruct (Ascii.eqb c (ascii_of_nat 10)).
      * pose proof (scan_position_step s q (S line) 1) as (H1 & _).
        cbn zeta in H1. left. lia.
      * pose proof (scan_position_step s q line (S column)) as (H1 & H2 & _).
        cbn zeta in H1, H2.
        destruct (Nat.eq_dec (fst (scan_position s q line (S column))) line)
          as [E|E].
        -- right. split; [now rewrite E|]. rewrite (H2 E). lia.
        -- left. lia.
    + cbn [scan_position].
      destruct (Ascii.eqb c (ascii_of_nat 10)); apply IH; lia.
Qed.

(** X3.  Inside the input, two different positions are never reported as
    the same line and column. *)
Theorem positionToLineCol_injective :
  forall input p q,
    (p <= String.length input)%nat ->
    (q <= String.length input)%nat ->
    positionToLineCol input p = positionToLineCol input q ->
    p = q.
Proof.
  intros input p q Hp Hq E. unfold positionToLineCol in E.
  destruct (Nat.lt_trichotomy p q) as [H|[H|H]]; [|exact H|].
  - pose proof (scan_position_lt input p q 1 1 H Hq) as L. cbn zeta in L.
    rewrite E in L. lia.
  - pose proof (scan_position_lt input q p 1 1 H Hp) as L. cbn zeta in L.
    rewrite E in L. lia.
Qed.

Lemma positionToLineCol_injective_witness : 3%nat = 3%nat.
Proof.
  apply (positionToLineCol_injective ("a" +:+ nl +:+ "bc") 3 3).
  - vm_compute. lia.
  - vm_compute. lia.
  - reflexivity.
Defined.

(** ** Merging, continued *)

Lemma flattenUnions_cons t types :
  flattenUnions (t :: types) = flatten_one t ++ flattenUnions types.
Proof. reflexivity. Qed.

Lemma flatten_one_mergeTypes t ts :
  flatten_one (mergeTypes (t :: ts)) = finalTypes (t :: ts).
Proof.
  rewrite mergeTypes_finalTypes.
  pose proof (finalTypes_flat (t :: ts)) as Hflat.
  destruct (finalTypes (t :: ts)) as [|x [|y l]] eqn:E.
  - reflexivity.
  - simpl in Hflat. rewrite andb_true_r in Hflat.
    apply flatten_one_id. now destruct (is_union x).
  - change (flatten_one (Union (x :: y :: l)))
      with (flattenUnions (x :: y :: l)).
    now apply flattenUnions_id.
Qed.

Lemma typesEqual_unknown r t :
  typesEqual r t = true -> is_unknown r = is_unknown t.
Proof. destruct r, t; simpl; intros H; try reflexivity; discriminate. Qed.

Lemma existsb_filter_compat (p : InferredType -> bool) t acc :
  (forall r, typesEqual r t = true -> p r = p t) ->
  p t = true ->
  existsb (fun r => typesEqual r t) (List.filter p acc)
  = existsb (fun r => typesEqual r t) acc.
Proof.
  intros Hc Hp. induction acc as [|a acc IH]; [reflexivity|]. simpl.
  destruct (typesEqual a t) eqn:Ea.
  - rewrite (Hc a Ea), Hp. simpl. now rewrite Ea.
  - destruct (p a); simpl; [rewrite Ea|]; exact IH.
Qed.

Lemma dedupe_fold_filter (p : InferredType -> bool) l :
  (forall r t, typesEqual r t = true -> p r = p t) ->
  forall acc,
    List.filter p (fold_left dedupe_step l acc)
    = fold_left dedupe_step (List.filter p l) (List.filter p acc).
Proof.
  intros Hc. induction l as [|t l IH]; intros acc; [reflexivity|].
  simpl. rewrite IH. destruct (p t) eqn:Hp.
  - simpl. f_equal. unfold dedupe_step.
    rewrite existsb_filter_compat by (auto; intros; now apply Hc).
    destruct (existsb (fun r => typesEqual r t) acc); simpl; [reflexivity|].
    rewrite List.filter_app. simpl. now rewrite Hp.
  - f_equal. unfold dedupe_step.
    destruct (existsb (fun r => typesEqual r t) acc); simpl; [reflexivity|].
    rewrite List.filter_app. simpl. rewrite Hp. now rewrite app_nil_r.
Qed.

Lemma deduplicateTypes_filter (p : InferredType -> bool) l :
  (forall r t, typesEqual r t = true -> p r = p t) ->
  List.filter p (deduplicateTypes l) = deduplicateTypes (List.filter p l).
Proof.
  intros Hc. rewrite !deduplicateTypes_fold.
  now rewrite dedupe_fold_filter.
Qed.

Lemma not_unknown_compat r t :
  typesEqual r t = true -> not_unknown r = not_unknown t.
Proof. intros H. unfold not_unknown. now rewrite (typesEqual_unknown r t H). Qed.

Lemma deduplicateTypes_app a b :
  deduplicateTypes (a ++ b) = fold_left dedupe_step b (deduplicateTypes a).
Proof. rewrite !deduplicateTypes_fold. apply fold_left_app. Qed.

Lemma deduplicateTypes_idem l :
  deduplicateTypes (deduplicateTypes l) = deduplicateTypes l.
Proof. apply deduplicateTypes_id, deduplicateTypes_distinct. Qed.

Lemma deduplicateTypes_app_dedupe a b :
  deduplicateTypes (deduplicateTypes a ++ b) = deduplicateTypes (a ++ b).
Proof. now rewrite !deduplicateTypes_app, deduplicateTypes_idem. Qed.

Lemma deduplicateTypes_nil l : deduplicateTypes l = [] -> l = [].
Proof.
  destruct l as [|t l]; [reflexivity|]. intros H.
  now apply deduplicateTypes_nonempty in H.
Qed.

(** [finalTypes] through the types that are not [Unknown]. *)
Lemma finalTypes_meaningful types :
  finalTypes types
  = match deduplicateTypes (List.filter not_unknown (flattenUnions types)) with
    | [] => deduplicateTypes (flattenUnions types)
    | m => m
    end.
Proof.
  unfold finalTypes.
  change (fun t => negb (is_unknown t)) with not_unknown.
  rewrite (deduplicateTypes_filter not_unknown) by exact not_unknown_compat.
  now destruct (deduplicateTypes (List.filter not_unknown (flattenUnions types))).
Qed.

Lemma finalTypes_filter_not_unknown types :
  List.filter not_unknown (finalTypes types)
  = deduplicateTypes (List.filter not_unknown (flattenUnions types)).
Proof.
  rewrite finalTypes_meaningful.
  destruct (deduplicateTypes (List.filter not_unknown (flattenUnions types)))
    as [|m ms] eqn:E.
  - rewrite (deduplicateTypes_filter not_unknown) by exact not_unknown_compat.
    apply deduplicateTypes_nil in E. now rewrite E.
  - rewrite <- E.
    rewrite <- (deduplicateTypes_filter not_unknown)
      by exact not_unknown_compat.
    generalize (deduplicateTypes (flattenUnions types)). intros l.
    induction l as [|x l IH]; [reflexivity|]. simpl.
    destruct (not_unknown x) eqn:Ex; simpl; [rewrite Ex, IH|]; auto.
Qed.

Lemma finalTypes_incremental a b :
  a <> [] ->
  finalTypes (mergeTypes a :: b) = finalTypes (a ++ b).
Proof.
  intros Ha. destruct a as [|t a]; [contradiction|].
  rewrite (finalTypes_meaningful (mergeTypes (t :: a) :: b)).
  rewrite (finalTypes_meaningful ((t :: a) ++ b)).
  assert (Hfl : flattenUnions (mergeTypes (t :: a) :: b)
                = finalTypes (t :: a) ++ flattenUnions b).
  { now rewrite flattenUnions_cons, flatten_one_mergeTypes. }
  assert (Hfr : flattenUnions ((t :: a) ++ b)
                = flattenUnions (t :: a) ++ flattenUnions b)
    by apply flat_map_app.
  rewrite Hfl, Hfr, !List.filter_app, finalTypes_filter_not_unknown.
  rewrite deduplicateTypes_app_dedupe.
  destruct (deduplicateTypes
              (List.filter not_unknown (flattenUnions (t :: a))
               ++ List.filter not_unknown (flattenUnions b))) eqn:E;
    [|reflexivity].
  apply deduplicateTypes_nil, app_eq_nil in E as [E1 _].
  rewrite (finalTypes_meaningful (t :: a)), E1.
  change (deduplicateTypes []) with (@nil InferredType).
  apply deduplicateTypes_app_dedupe.
Qed.

(** X4.  Merging can be done in steps: a merged result stands for the
    types it was merged from. *)
Theorem mergeTypes_incremental :
  forall a b,
    a <> [] -> mergeTypes (mergeTypes a :: b) = mergeTypes (a ++ b).
Proof.
  intros a b Ha. rewrite mergeTypes_finalTypes.
  rewrite (finalTypes_incremental a b Ha).
  destruct a as [|t a]; [contradiction|].
  symmetry. apply (mergeTypes_finalTypes t (a ++ b)).
Qed.

Lemma mergeTypes_incremental_witness :
  mergeTypes
    [mergeTypes [Primitive PString; Primitive PNumber]; Primitive PString;
     Primitive PBoolean]
  = three_way_union.
Proof.
  rewrite (mergeTypes_incremental [Primitive PString; Primitive PNumber]
             [Primitive PString; Primitive PBoolean]).
  - reflexivity.
  - discriminate.
Defined.

(** X5.  Merging a merged type again changes nothing. *)
Theorem mergeTypes_idempotent :
  forall types, mergeTypes [mergeTypes types] = mergeTypes types.
Proof.
  intros [|t types]; [reflexivity|].
  rewrite mergeTypes_finalTypes.
  rewrite (finalTypes_incremental (t :: types) []) by discriminate.
  rewrite app_nil_r. symmetry. apply mergeTypes_finalTypes.
Qed.

Lemma filter_not_unknown_flatten types :
  List.filter not_unknown (flattenUnions (List.filter not_unknown types))
  = List.filter not_unknown (flattenUnions types).
Proof.
  induction types as [|t types IH]; [reflexivity|].
  simpl List.filter at 2. destruct (not_unknown t) eqn:Et.
  - now rewrite !flattenUnions_cons, !List.filter_app, IH.
  - destruct t; try discriminate Et.
    rewrite (flattenUnions_cons Unknown), List.filter_app. exact IH.
Qed.

Lemma existsb_filter_nonempty {A : Type} (p : A -> bool) l :
  existsb p l = true -> List.filter p l <> [].
Proof.
  induction l as [|x l IH]; simpl; [discriminate|].
  destruct (p x); [discriminate|exact IH].
Qed.

Lemma existsb_filter_negb {A : Type} (p : A -> bool) l :
  existsb p (List.filter (fun x => negb (p x)) l) = false.
Proof.
  induction l as [|x l IH]; [reflexivity|]. simpl.
  destruct (p x) eqn:E; simpl; [|rewrite E]; exact IH.
Qed.

Lemma mergeTypes_without_unknown :
  forall types,
    existsb not_unknown (flattenUnions types) = true ->
    mergeTypes types = mergeTypes (List.filter not_unknown types)
    /\ existsb is_unknown (flatten_one (mergeTypes types)) = false.
Proof.
  intros types H.
  pose proof (existsb_filter_nonempty _ _ H) as Hne.
  assert (Hd : deduplicateTypes
                 (List.filter not_unknown (flattenUnions types)) <> [])
    by (intros E; now apply deduplicateTypes_nil in E).
  assert (Hf : finalTypes types
               = deduplicateTypes
                   (List.filter not_unknown (flattenUnions types))).
  { rewrite finalTypes_meaningful.
    now destruct (deduplicateTypes
                    (List.filter not_unknown (flattenUnions types))). }
  assert (Hf' : finalTypes (List.filter not_unknown types)
                = finalTypes types).
  { rewrite Hf, finalTypes_meaningful, filter_not_unknown_flatten.
    now destruct (deduplicateTypes
                    (List.filter not_unknown (flattenUnions types))). }
  destruct types as [|t types]; [discriminate H|].
  destruct (List.filter not_unknown (t :: types)) as [|t' types'] eqn:Ef.
  { exfalso. apply Hne.
    rewrite <- filter_not_unknown_flatten, Ef. reflexivity. }
  split.
  - now rewrite !mergeTypes_finalTypes, Hf'.
  - rewrite flatten_one_mergeTypes, Hf.
    rewrite <- (deduplicateTypes_filter not_unknown)
      by exact not_unknown_compat.
    apply (existsb_filter_negb is_unknown).
Qed.

(** X6.  As soon as one observation is not [Unknown], the [Unknown]
    observations count for nothing: they can be removed from the input
    and none is left in the result. *)
Theorem mergeTypes_drops_unknown :
  forall types,
    existsb not_unknown (flattenUnions types) = true ->
    mergeTypes types = mergeTypes (List.filter not_unknown types)
    /\ existsb is_unknown (flatten_one (mergeTypes types)) = false.
Proof. exact mergeTypes_without_unknown. Qed.

Lemma mergeTypes_drops_unknown_witness :
  mergeTypes unknown_mix = Union [Primitive PString; Primitive PNumber].
Proof.
  rewrite (proj1 (mergeTypes_drops_unknown unknown_mix eq_refl)).
  reflexivity.
Defined.

(** X7.  [mergeTypes] answers with a [Union] without variants exactly when
    it is handed types, none of which has a leaf: empty [Union]s, nested
    or not.  The empty input gives [Unknown] instead. *)
Theorem mergeTypes_empty_union_iff :
  forall types,
    mergeTypes types = Union [] <-> (types <> [] /\ flattenUnions types = []).
Proof.
  intros [|t types]; [split; [discriminate|intros [H _]; contradiction]|].
  rewrite mergeTypes_finalTypes.
  pose proof (finalTypes_flat (t :: types)) as Hflat.
  rewrite finalTypes_meaningful in *.
  split.
  - intros H. split; [discriminate|].
    destruct (deduplicateTypes
                (List.filter not_unknown (flattenUnions (t :: types))))
      as [|m [|m' ms]] eqn:E.
    + destruct (deduplicateTypes (flattenUnions (t :: types)))
        as [|d [|d' ds]] eqn:E'.
      * now apply deduplicateTypes_nil in E'.
      * subst d. discriminate Hflat.
      * discriminate H.
    + subst m. discriminate Hflat.
    + discriminate H.
  - intros [_ H]. rewrite H. reflexivity.
Qed.

Lemma mergeTypes_empty_union_iff_witness :
  mergeTypes [Union []; Union [Union []]] = Union [].
Proof.
  apply (mergeTypes_empty_union_iff [Union []; Union [Union []]]).
  split; [discriminate|reflexivity].
Defined.

(** X8.  The result of a merge stands for exactly the leaves of its input:
    each of its variants is one of the flattened inputs, and each
    flattened input other than [Unknown] is structurally equal to one of
    its variants. *)
Theorem mergeTypes_covers :
  forall t types,
    (forall r,
        In r (flatten_one (mergeTypes (t :: types))) ->
        In r (flattenUnions (t :: types)))
    /\ (forall x,
          In x (flattenUnions (t :: types)) ->
          is_unknown x = false ->
          exists r,
            In r (flatten_one (mergeTypes (t :: types)))
            /\ typesEqual r x = true).
Proof.
  intros t types. rewrite flatten_one_mergeTypes. split.
  - apply finalTypes_In.
  - intros x Hx Hu.
    assert (Hin : In x (List.filter not_unknown (flattenUnions (t :: types)))).
    { apply List.filter_In. split; [exact Hx|]. unfold not_unknown. now rewrite Hu. }
    rewrite finalTypes_meaningful.
    destruct (dedupe_fold_covers
                (List.filter not_unknown (flattenUnions (t :: types))) [] x
                (or_intror Hin)) as (r & Hr & Hrx).
    rewrite <- deduplicateTypes_fold in Hr.
    destruct (deduplicateTypes
                (List.filter not_unknown (flattenUnions (t :: types))));
      [destruct Hr|].
    now exists r.
Qed.

Lemma mergeTypes_covers_witness :
  exists r,
    In r (flatten_one (mergeTypes unknown_mix))
    /\ typesEqual r (Primitive PNumber) = true.
Proof.
  apply (proj2 (mergeTypes_covers Unknown
                  [Union [Primitive PString; Unknown]; Primitive PNumber])).
  - simpl. auto.
  - reflexivity.
Defined.

(** X9.  [deduplicateTypes] keeps, in order, one representative of each
    class of structurally equal types: what it returns comes from its
    input, is pairwise distinct, covers the input, and is left as it is
    by a second pass. *)
Theorem deduplicateTypes_representatives :
  forall types,
    (forall r, In r (deduplicateTypes types) -> In r types)
    /\ pairwise_distinct (deduplicateTypes types) = true
    /\ (forall x, In x types ->
          exists r, In r (deduplicateTypes types) /\ typesEqual r x = true)
    /\ deduplicateTypes (deduplicateTypes types) = deduplicateTypes types.
Proof.
  intros types. repeat split.
  - apply deduplicateTypes_In.
  - apply deduplicateTypes_distinct.
  - intros x Hx. rewrite deduplicateTypes_fold.
    apply dedupe_fold_covers. now right.
  - apply deduplicateTypes_idem.
Qed.

Lemma deduplicateTypes_representatives_witness :
  exists r,
    In r (deduplicateTypes [shape_a; Primitive PString; shape_b])
    /\ typesEqual r shape_b = true.
Proof.
  apply (proj1 (proj2 (proj2 (deduplicateTypes_representatives
                                [shape_a; Primitive PString; shape_b])))).
  simpl. auto.
Defined.

(** ** Order of keys *)

Lemma ascii_compare_refl c : Ascii.compare c c = Eq.
Proof. unfold Ascii.compare. apply N.compare_refl. Qed.

Lemma ascii_compare_eq c1 c2 : Ascii.compare c1 c2 = Eq -> c1 = c2.
Proof.
  unfold Ascii.compare. intros H. apply N.compare_eq in H.
  rewrite <- (ascii_N_embedding c1), <- (ascii_N_embedding c2).
  now rewrite H.
Qed.

Lemma string_leb_cons c1 s1 c2 s2 :
  String.leb (String c1 s1) (String c2 s2)
  = match Ascii.compare c1 c2 with
    | Eq => String.leb s1 s2
    | Lt => true
    | Gt => false
    end.
Proof.
  unfold String.leb. simpl. now destruct (Ascii.compare c1 c2).
Qed.

Lemma string_leb_trans a :
  forall b c,
    String.leb a b = true -> String.leb b c = true -> String.leb a c = true.
Proof.
  induction a as [|c1 a IH]; intros [|c2 b] [|c3 c]; try reflexivity;
    try discriminate.
  rewrite !string_leb_cons. unfold Ascii.compare.
  destruct (N.compare_spec (N_of_ascii c1) (N_of_ascii c2)) as [E12|L12|G12];
    destruct (N.compare_spec (N_of_ascii c2) (N_of_ascii c3)) as [E23|L23|G23];
    try discriminate; intros H1 H2.
  - rewrite E12, E23, N.compare_refl. eauto.
  - rewrite E12. now apply N.compare_lt_iff in L23 as ->.
  - rewrite <- E23. now apply N.compare_lt_iff in L12 as ->.
  - assert (L : (N_of_ascii c1 < N_of_ascii c3)%N) by lia.
    now apply N.compare_lt_iff in L as ->.
Qed.

Lemma sort_insert_sorted x l :
  StronglySorted (fun a b => String.leb a b = true) l ->
  StronglySorted (fun a b => String.leb a b = true) (sort_insert x l).
Proof.
  induction 1 as [|y l Hs IH Hy]; simpl.
  - constructor; constructor.
  - destruct (String.leb x y) eqn:E.
    + constructor; [now constructor|].
      constructor; [exact E|].
      eapply List.Forall_impl; [|exact Hy].
      intros z Hz. now apply (string_leb_trans x y z).
    + constructor; [exact IH|].
      apply List.Forall_forall. intros z Hz.
      apply sort_insert_In in Hz as [->|Hz].
      * destruct (String.leb_total x y) as [H|H]; [congruence|exact H].
      * rewrite List.Forall_forall in Hy. now apply Hy.
Qed.

Lemma sort_strings_sorted l :
  StronglySorted (fun a b => String.leb a b = true) (sort_strings l).
Proof.
  induction l as [|x l IH]; simpl; [constructor|].
  now apply sort_insert_sorted.
Qed.

Lemma sort_insert_Permutation x l : Permutation (x :: l) (sort_insert x l).
Proof.
  induction l as [|y l IH]; simpl; [reflexivity|].
  destruct (String.leb x y); [reflexivity|].
  rewrite perm_swap. now constructor.
Qed.

Lemma sort_strings_Permutation l : Permutation l (sort_strings l).
Proof.
  induction l as [|x l IH]; simpl; [reflexivity|].
  rewrite <- sort_insert_Permutation. now constructor.
Qed.

Lemma sorted_Permutation_eq l1 :
  forall l2,
    StronglySorted (fun a b => String.leb a b = true) l1 ->
    StronglySorted (fun a b => String.leb a b = true) l2 ->
    Permutation l1 l2 -> l1 = l2.
Proof.
  induction l1 as [|x l1 IH]; intros l2 H1 H2 HP.
  - now apply Permutation_nil in HP.
  - destruct l2 as [|y l2].
    { symmetry in HP. now apply Permutation_nil in HP. }
    apply StronglySorted_inv in H1 as [H1 Hx].
    apply StronglySorted_inv in H2 as [H2 Hy].
    rewrite List.Forall_forall in Hx, Hy.
    assert (Exy : x = y).
    { assert (Hxin : In x (y :: l2))
        by (eapply Permutation_in; [exact HP|now left]).
      assert (Hyin : In y (x :: l1))
        by (eapply Permutation_in; [symmetry; exact HP|now left]).
      destruct Hxin as [->|Hxin]; [reflexivity|].
      destruct Hyin as [->|Hyin]; [reflexivity|].
      apply String.leb_antisym; [now apply Hx | now apply Hy]. }
    subst y. f_equal. apply IH; try assumption.
    now apply Permutation_cons_inv in HP.
Qed.

Lemma sort_strings_perm l1 l2 :
  Permutation l1 l2 -> sort_strings l1 = sort_strings l2.
Proof.
  intros HP. apply sorted_Permutation_eq; try apply sort_strings_sorted.
  now rewrite <- !sort_strings_Permutation.
Qed.

Lemma get_prop_NoDup {V : Type} (m : list (string * V)) k v :
  List.NoDup (keys m) -> In (k, v) m -> get_prop m k = Some v.
Proof.
  induction m as [|[k' v'] m IH]; simpl; [tauto|].
  intros Hnd Hin. apply List.NoDup_cons_iff in Hnd as [Hk' Hnd].
  destruct (String.eqb_spec k' k) as [->|Hne].
  - destruct Hin as [[= ->]|Hin]; [reflexivity|].
    exfalso. apply Hk'. apply in_map_iff. now exists (k, v).
  - destruct Hin as [[= -> ->]|Hin]; [contradiction|]. now apply IH.
Qed.

Lemma keys_key_type (props : PropertyMap) :
  keys props = map fst (map key_type props).
Proof. unfold keys. rewrite map_map. reflexivity. Qed.

(** X10.  [typesEqual] on objects reads the keys and the property types
    only: two objects with the same typed keys are equal whatever the order
    of the keys, the optional and nullable flags and the type names. *)
Theorem typesEqual_object_blind :
  forall aprops an bprops bn,
    List.NoDup (keys aprops) ->
    Permutation (map key_type aprops) (map key_type bprops) ->
    typesEqual (Object aprops an) (Object bprops bn) = true.
Proof.
  intros aprops an bprops bn Hnd HP.
  assert (HK : Permutation (keys aprops) (keys bprops)).
  { rewrite !keys_key_type. now apply Permutation_map. }
  assert (Hndb : List.NoDup (keys bprops))
    by (eapply Permutation_NoDup; eassumption).
  apply typesEqual_object. split; [now apply sort_strings_perm|].
  intros k Hk.
  apply get_prop_keys in Hk as [pa Hpa]. exists pa.
  assert (Hin : In (k, type pa) (map key_type bprops)).
  { eapply Permutation_in; [exact HP|].
    apply in_map_iff. exists (k, pa). split; [reflexivity|].
    now apply get_prop_In. }
  apply in_map_iff in Hin as ([k' pb] & E & Hin).
  unfold key_type in E. simpl in E. injection E as -> Et.
  exists pb. repeat split; [exact Hpa | now apply get_prop_NoDup |].
  rewrite Et. apply typesEqual_refl.
Qed.

Lemma typesEqual_object_blind_witness : typesEqual shape_a shape_b = true.
Proof.
  apply typesEqual_object_blind.
  - repeat constructor; simpl; intuition discriminate.
  - apply perm_swap.
Defined.

(** ** Object merging, continued *)

Lemma separate_null_nullable mergedType :
  snd (separate_null mergedType true) = true.
Proof.
  rewrite separate_null_spec. destruct mergedType; try reflexivity.
  now destruct (existsb is_null variants).
Qed.

(** Among own properties a nullable observation is never lost: a key
    that one of the merged objects marks nullable is nullable in the
    result. *)
Lemma mergeObjectTypes_keeps_nullable :
  forall objects name obj k p,
    In obj objects ->
    get_prop (properties obj) k = Some p ->
    nullable p = true ->
    exists q,
      get_prop (properties (mergeObjectTypes objects name)) k = Some q
      /\ nullable q = true.
Proof.
  intros objects name obj k p Hobj Hget Hn.
  destruct objects as [|o1 [|o2 objects]].
  - destruct Hobj.
  - destruct Hobj as [<-|[]]. now exists p.
  - rewrite mergeObjectTypes_get.
    assert (Hpos : (0 < present_in (o1 :: o2 :: objects) k)%nat).
    { apply present_in_positive. exists obj. split; [exact Hobj|].
      apply get_prop_keys. eauto. }
    apply Nat.ltb_lt in Hpos. rewrite Hpos.
    eexists. split; [reflexivity|].
    rewrite merge_key_unfold. cbn zeta. cbn [nullable].
    assert (Hocc : In p (List.filter nullable
                           (occurrences (o1 :: o2 :: objects) k))).
    { apply List.filter_In. split; [|exact Hn].
      apply occurrences_In. eauto. }
    destruct (List.filter nullable (occurrences (o1 :: o2 :: objects) k));
      [destruct Hocc|].
    apply separate_null_nullable.
Qed.

Lemma keys_set_prop {V : Type} (m : list (string * V)) k v :
  keys (set_prop m k v) = set_add (keys m) k.
Proof.
  unfold set_add. induction m as [|[k' v'] m IH]; simpl; [reflexivity|].
  rewrite (String.eqb_sym k k').
  destruct (String.eqb k' k); simpl; [reflexivity|].
  rewrite IH. now destruct (existsb (String.eqb k) (keys m)).
Qed.

Lemma keys_fold_set_prop {V : Type} (f : string -> V) ks :
  forall m,
    keys (fold_left (fun m key => set_prop m key (f key)) ks m)
    = fold_left set_add ks (keys m).
Proof.
  induction ks as [|k ks IH]; intros m; simpl; [reflexivity|].
  now rewrite IH, keys_set_prop.
Qed.

Lemma NoDup_snoc (s : list string) k :
  List.NoDup s -> ~ In k s -> List.NoDup (s ++ [k]).
Proof.
  induction 1 as [|x s Hx Hs IH]; intros Hk; simpl.
  - constructor; [tauto | constructor].
  - constructor.
    + rewrite in_app_iff. simpl. intros [H|[H|[]]]; [tauto|].
      apply Hk. now left.
    + apply IH. intros H. apply Hk. now right.
Qed.

Lemma set_add_NoDup s k : List.NoDup s -> List.NoDup (set_add s k).
Proof.
  intros H. unfold set_add.
  destruct (existsb (String.eqb k) s) eqn:E; [exact H|].
  apply NoDup_snoc; [exact H|]. rewrite <- existsb_eqb_In. congruence.
Qed.

Lemma fold_set_add_NoDup ks :
  forall s, List.NoDup s -> List.NoDup (fold_left set_add ks s).
Proof.
  induction ks as [|k ks IH]; intros s Hs; simpl; [exact Hs|].
  now apply IH, set_add_NoDup.
Qed.

Lemma fold_set_add_fresh ks :
  forall s, List.NoDup (s ++ ks) -> fold_left set_add ks s = s ++ ks.
Proof.
  induction ks as [|k ks IH]; intros s Hnd; simpl.
  - now rewrite app_nil_r.
  - assert (E : set_add s k = s ++ [k]).
    { unfold set_add. destruct (existsb (String.eqb k) s) eqn:E; [|reflexivity].
      apply existsb_eqb_In in E. apply List.NoDup_remove_2 in Hnd.
      exfalso. apply Hnd. apply in_app_iff. now left. }
    rewrite E, IH; rewrite <- app_assoc; [reflexivity | exact Hnd].
Qed.

Lemma fold_set_add_prefix ks :
  forall s, exists more, fold_left set_add ks s = s ++ more.
Proof.
  induction ks as [|k ks IH]; intros s; simpl.
  - exists []. now rewrite app_nil_r.
  - destruct (IH (set_add s k)) as [more ->]. unfold set_add.
    destruct (existsb (String.eqb k) s); [now exists more|].
    exists (k :: more). now rewrite <- app_assoc.
Qed.

Lemma collect_keys_fold_NoDup objects :
  forall s,
    List.NoDup s ->
    List.NoDup
      (fold_left
         (fun allKeys obj => fold_left set_add (keys (properties obj)) allKeys)
         objects s).
Proof.
  induction objects as [|o objects IH]; intros s Hs; simpl; [exact Hs|].
  now apply IH, fold_set_add_NoDup.
Qed.

Lemma collect_keys_fold_prefix objects :
  forall s,
    exists more,
      fold_left
        (fun allKeys obj => fold_left set_add (keys (properties obj)) allKeys)
        objects s
      = s ++ more.
Proof.
  induction objects as [|o objects IH]; intros s; simpl.
  - exists []. now rewrite app_nil_r.
  - destruct (IH (fold_left set_add (keys (properties o)) s)) as [more ->].
    destruct (fold_set_add_prefix (keys (properties o)) s) as [more' ->].
    exists (more' ++ more). now rewrite app_assoc.
Qed.

Lemma collect_keys_NoDup objects : List.NoDup (collect_keys objects).
Proof. apply collect_keys_fold_NoDup. constructor. Qed.

(** With keys listed in insertion order, the merged object lists every
    key once, in the order in which the keys are first met across the
    inputs. *)
Lemma mergeObjectTypes_keys_collected :
  forall objects name,
    Forall (fun o => List.NoDup (keys (properties o))) objects ->
    keys (properties (mergeObjectTypes objects name)) = collect_keys objects
    /\ List.NoDup (collect_keys objects)
    /\ (forall o rest,
          objects = o :: rest ->
          exists more, collect_keys objects = keys (properties o) ++ more).
Proof.
  intros objects name Hnd.
  assert (Hfirst : forall o rest,
             objects = o :: rest ->
             exists more, collect_keys objects = keys (properties o) ++ more).
  { intros o rest ->. unfold collect_keys. simpl.
    apply List.Forall_inv in Hnd.
    rewrite (fold_set_add_fresh (keys (properties o)) [] Hnd). simpl.
    apply collect_keys_fold_prefix. }
  split; [|split; [apply collect_keys_NoDup | exact Hfirst]].
  destruct objects as [|o1 [|o2 objects]].
  - reflexivity.
  - apply List.Forall_inv in Hnd. unfold collect_keys. simpl.
    now rewrite (fold_set_add_fresh (keys (properties o1)) [] Hnd).
  - unfold mergeObjectTypes. cbn [properties].
    rewrite keys_fold_set_prop. simpl keys.
    apply (fold_set_add_fresh (collect_keys (o1 :: o2 :: objects)) []).
    apply collect_keys_NoDup.
Qed.

(** ** Leaves *)

Lemma leaves_satisfy_variants p vs :
  leaves_satisfy p (Union vs) = true ->
  Forall (fun t => leaves_satisfy p t = true) vs.
Proof. simpl. intros H. now apply Forall_forallb. Qed.

Lemma mergeTypes_leaves p t types :
  Forall (fun t => leaves_satisfy p t = true) (t :: types) ->
  leaves_satisfy p (mergeTypes (t :: types)) = true.
Proof.
  intros H.
  assert (HF : Forall (fun t => leaves_satisfy p t = true)
                 (finalTypes (t :: types))).
  { apply finalTypes_Forall, flattenUnions_Forall; [|exact H].
    apply leaves_satisfy_variants. }
  rewrite mergeTypes_finalTypes.
  destruct (finalTypes (t :: types)) as [|x [|y l]].
  - reflexivity.
  - now apply List.Forall_inv in HF.
  - simpl. now apply (Forall_forallb (leaves_satisfy p)) in HF.
Qed.

Lemma separate_null_leaves p mergedType isNullable :
  leaves_satisfy p mergedType = true ->
  leaves_satisfy p (fst (separate_null mergedType isNullable)) = true.
Proof.
  intros H. rewrite separate_null_spec.
  destruct mergedType; try exact H.
  destruct (existsb is_null variants) eqn:En; [|exact H]. cbn [fst].
  apply leaves_satisfy_variants in H.
  assert (Hf : Forall (fun t => leaves_satisfy p t = true)
                 (List.filter (fun v => negb (is_null v)) variants)).
  { apply List.Forall_forall. intros x Hx. apply List.filter_In in Hx as [Hx _].
    rewrite List.Forall_forall in H. now apply H. }
  destruct (List.filter (fun v => negb (is_null v)) variants) as [|x [|y l]].
  - apply existsb_exists in En as (v & Hv & Hnull).
    rewrite List.Forall_forall in H. specialize (H v Hv).
    destruct v as [[]| | | | |]; try discriminate Hnull. exact H.
  - now apply List.Forall_inv in Hf.
  - simpl. now apply (Forall_forallb (leaves_satisfy p)) in Hf.
Qed.

Lemma merge_key_leaves p objects key :
  (0 < present_in objects key)%nat ->
  Forall (fun o => leaves_satisfy p (ObjectT o) = true) objects ->
  leaves_satisfy p (type (merge_key objects key)) = true.
Proof.
  intros Hpos H. rewrite merge_key_unfold. cbn zeta. cbn [type].
  apply separate_null_leaves.
  rewrite <- occurrences_length in Hpos.
  assert (Hocc : Forall (fun t => leaves_satisfy p t = true)
                   (map type (occurrences objects key))).
  { apply List.Forall_forall. intros t Ht.
    apply in_map_iff in Ht as (prop & <- & Hprop).
    apply occurrences_In in Hprop as (obj & Hobj & Hget).
    rewrite List.Forall_forall in H. specialize (H obj Hobj).
    simpl in H. rewrite forallb_forall in H.
    apply (H (key, prop)). now apply get_prop_In. }
  destruct (occurrences objects key) as [|o occ]; [simpl in Hpos; lia|].
  now apply mergeTypes_leaves.
Qed.

Lemma mergeObjectTypes_leaves p objects name :
  Forall (fun o => leaves_satisfy p (ObjectT o) = true) objects ->
  leaves_satisfy p (ObjectT (mergeObjectTypes objects name)) = true.
Proof.
  intros H. destruct objects as [|o1 [|o2 objects]].
  - reflexivity.
  - now apply List.Forall_inv in H.
  - unfold ObjectT. cbn [leaves_satisfy].
    apply (Forall_forallb (fun kp => leaves_satisfy p (type (snd kp)))).
    apply (mergeObjectTypes_Forall
             (fun kp => leaves_satisfy p (type (snd kp)) = true)
             o1 o2 objects name).
    intros k Hk. now apply merge_key_leaves.
Qed.

(** X13.  Merging invents no leaf: whatever holds of every leaf of the
    inputs holds of every leaf of the merged type and of the merged
    object. *)
Theorem merge_invents_no_leaf :
  forall p,
    (forall t types,
        Forall (fun t => leaves_satisfy p t = true) (t :: types) ->
        leaves_satisfy p (mergeTypes (t :: types)) = true)
    /\ (forall objects name,
          Forall (fun o => leaves_satisfy p (ObjectT o) = true) objects ->
          leaves_satisfy p (ObjectT (mergeObjectTypes objects name)) = true).
Proof.
  intros p. split.
  - apply mergeTypes_leaves.
  - apply mergeObjectTypes_leaves.
Qed.

Lemma merge_invents_no_leaf_witness :
  leaves_satisfy (fun t => negb (typesEqual t DateString))
    (ObjectT (mergeObjectTypes nullable_samples "Item")) = true.
Proof.
  apply (proj2 (merge_invents_no_leaf
                  (fun t => negb (typesEqual t DateString)))).
  repeat constructor.
Defined.

(** ** The state of the traversal *)

Section InferSteps.

Variable settings : InferSettings.
Variable R : InferState -> InferState -> Prop.

Hypothesis R_refl : forall st, R st st.
Hypothesis R_trans : forall a b c, R a b -> R b c -> R a c.
Hypothesis R_warning :
  forall d st, level d = warning -> R st (push_diagnostic d st).
Hypothesis R_info :
  forall d st,
    level d = info -> detectDates settings = true ->
    R st (push_diagnostic d st).
Hypothesis R_generate :
  forall segs st, R st (snd (nameGen_generate segs st)).
Hypothesis R_incr : forall st, R st (incr_fieldCount st).

Lemma infer_elements_steps arr :
  Forall (steps_for settings R) arr ->
  forall segments i objs others st,
    R st (snd (infer_elements (infer settings) segments i objs others st arr)).
Proof.
  induction 1 as [|v arr Hv _ IH]; intros segments i objs others st; simpl;
    [apply R_refl|].
  pose proof (Hv (segments ++ ["[" +:+ string_of_nat i +:+ "]"]) st) as H1.
  destruct (infer settings v _ st) as [elemType st1]. simpl in H1.
  destruct (as_object elemType);
    (eapply R_trans; [exact H1 | apply IH]).
Qed.

Lemma inferArray_steps arr :
  Forall (steps_for settings R) arr ->
  forall segments st,
    R st (snd (inferArray_body (infer settings) arr segments st)).
Proof.
  intros Harr segments st. unfold inferArray_body.
  destruct arr as [|v arr']; [now apply R_warning|].
  set (arr := v :: arr') in *.
  pose proof (infer_elements_steps arr Harr segments 0 [] [] st) as H1.
  destruct (infer_elements (infer settings) segments 0 [] [] st arr)
    as [[objectElements otherElements] st1].
  simpl in H1.
  destruct (length objectElements =? length arr)%nat.
  - pose proof (R_generate (name_segments segments ++ ["item"]) st1) as H2.
    destruct (nameGen_generate _ st1) as [itemName st2]. simpl in *.
    eapply R_trans; eassumption.
  - destruct (length objectElements =? 0)%nat.
    + simpl. destruct (is_union (mergeTypes otherElements)); [|exact H1].
      eapply R_trans; [exact H1 | now apply R_warning].
    + match goal with
      | |- context [push_diagnostic ?d st1] =>
          assert (H2 : R st (push_diagnostic d st1))
            by (eapply R_trans; [exact H1 | now apply R_warning]);
          set (st2 := push_diagnostic d st1) in *
      end.
      destruct (0 <? length objectElements)%nat; [|exact H2].
      pose proof (R_generate (name_segments segments ++ ["item"]) st2) as H3.
      destruct (nameGen_generate _ st2) as [itemName st3]. simpl in *.
      eapply R_trans; eassumption.
Qed.

Lemma infer_properties_steps obj :
  Forall (fun kv => steps_for settings R (snd kv)) obj ->
  forall segments props st,
    R st (snd (infer_properties (infer settings) segments props st obj)).
Proof.
  induction 1 as [|[key val] obj Hv _ IH]; intros segments props st; simpl;
    [apply R_refl|].
  pose proof (Hv (segments ++ [key]) (incr_fieldCount st)) as H1.
  simpl in H1.
  destruct (infer settings val (segments ++ [key]) (incr_fieldCount st))
    as [childType st2].
  simpl in H1.
  eapply R_trans; [apply R_incr|].
  eapply R_trans; [exact H1 | apply IH].
Qed.

Lemma inferObject_steps obj :
  Forall (fun kv => steps_for settings R (snd kv)) obj ->
  forall segments st,
    R st (snd (inferObject_body settings (infer settings) obj segments st)).
Proof.
  intros Hobj segments st. unfold inferObject_body.
  pose proof (infer_properties_steps obj Hobj segments [] st) as H1.
  destruct (infer_properties (infer settings) segments [] st obj)
    as [props st1].
  simpl in H1.
  pose proof (fun segs => R_generate segs st1) as H2.
  destruct segments as [|p segments'];
    [specialize (H2 [rootTypeName settings])
    |specialize (H2 (name_segments (p :: segments')))];
    destruct (nameGen_generate _ st1) as [name st2]; simpl in *;
    eapply R_trans; eassumption.
Qed.

Lemma infer_steps : forall v, steps_for settings R v.
Proof.
  induction v as [|s| |b|arr IH|obj IH|] using Value_ind;
    intros segments st; simpl; try apply R_refl.
  - destruct (detectDates settings) eqn:Ed; simpl; [|apply R_refl].
    destruct (Regex.test ISO_DATE_REGEX s); simpl; [|apply R_refl].
    now apply R_info.
  - now apply inferArray_steps.
  - pose proof (inferObject_steps obj IH segments st) as H.
    now destruct (inferObject_body settings (infer settings) obj segments st).
Qed.

End InferSteps.

Lemma diagnostics_appended_infer settings v segments st :
  diagnostics_appended settings st (snd (infer settings v segments st)).
Proof.
  apply (infer_steps settings (diagnostics_appended settings)).
  - intros s. exists []. split; [now rewrite app_nil_r | constructor].
  - intros a b c (e1 & E1 & H1) (e2 & E2 & H2). exists (e1 ++ e2).
    split; [now rewrite E2, E1, app_assoc|].
    apply Forall_app. now split.
  - intros d s Hd. exists [d]. split; [reflexivity|].
    constructor; [now left | constructor].
  - intros d s Hd Hon. exists [d]. split; [reflexivity|].
    constructor; [now right | constructor].
  - intros segs s. exists []. rewrite nameGen_generate_diagnostics.
    split; [now rewrite app_nil_r | constructor].
  - intros s. exists []. split; [simpl; now rewrite app_nil_r | constructor].
Qed.

(** X14.  [infer] only appends to the diagnostics, and what it appends are
    warnings, and infos when dates are detected: with [detectDates] off the
    diagnostics of an accepted root are warnings only. *)
Theorem infer_diagnostics_appended :
  forall settings value,
    (forall segments st,
        exists extra,
          st_diagnostics (snd (infer settings value segments st))
          = st_diagnostics st ++ extra
          /\ Forall (pushed_by_infer settings) extra)
    /\ (root_rejected value = false ->
        detectDates settings = false ->
        Forall (fun d => level d = warning)
          (diagnostics (inferType value settings))).
Proof.
  intros settings value. split.
  - intros segments st. apply diagnostics_appended_infer.
  - intros Hroot Hoff. unfold inferType. rewrite Hroot.
    destruct (diagnostics_appended_infer settings value [] initial_state)
      as (extra & E & Hall).
    destruct (infer settings value [] initial_state) as [rootType st].
    simpl in *. rewrite E.
    eapply List.Forall_impl; [|exact Hall].
    intros d [Hd|[_ Hd]]; [exact Hd | congruence].
Qed.

Lemma infer_diagnostics_appended_witness :
  Forall (fun d => level d = warning)
    (diagnostics (inferType scenario_D plain_settings)).
Proof.
  apply (proj2 (infer_diagnostics_appended plain_settings scenario_D)).
  - reflexivity.
  - reflexivity.
Defined.

(** ** Field count *)

Lemma nameGen_generate_fieldCount segs st :
  st_fieldCount (snd (nameGen_generate segs st)) = st_fieldCount st.
Proof.
  unfold nameGen_generate. now destruct (generate segs (st_usedNames st)).
Qed.

Lemma infer_elements_fieldCount settings arr :
  Forall (counts_fields settings) arr ->
  forall segments i objs others st,
    st_fieldCount
      (snd (infer_elements (infer settings) segments i objs others st arr))
    = (st_fieldCount st + list_sum (map count_fields arr))%nat.
Proof.
  induction 1 as [|v arr Hv _ IH]; intros segments i objs others st; simpl;
    [lia|].
  pose proof (Hv (segments ++ ["[" +:+ string_of_nat i +:+ "]"]) st) as H1.
  destruct (infer settings v _ st) as [elemType st1]. simpl in H1.
  destruct (as_object elemType); rewrite IH, H1; lia.
Qed.

Lemma inferArray_fieldCount settings arr :
  Forall (counts_fields settings) arr ->
  forall segments st,
    st_fieldCount (snd (inferArray_body (infer settings) arr segments st))
    = (st_fieldCount st + list_sum (map count_fields arr))%nat.
Proof.
  intros Harr segments st. unfold inferArray_body.
  destruct arr as [|v arr']; [simpl; lia|].
  set (arr := v :: arr') in *.
  pose proof (infer_elements_fieldCount settings arr Harr segments 0 [] [] st)
    as H1.
  destruct (infer_elements (infer settings) segments 0 [] [] st arr)
    as [[objectElements otherElements] st1].
  simpl in H1.
  destruct (length objectElements =? length arr)%nat.
  - pose proof (nameGen_generate_fieldCount
                  (name_segments segments ++ ["item"]) st1) as H2.
    destruct (nameGen_generate _ st1) as [itemName st2]. simpl in *. lia.
  - destruct (length objectElements =? 0)%nat.
    + simpl. now destruct (is_union (mergeTypes otherElements)).
    + match goal with
      | |- context [push_diagnostic ?d st1] =>
          assert (H2 : st_fieldCount (push_diagnostic d st1)
                       = st_fieldCount st1) by reflexivity;
          set (st2 := push_diagnostic d st1) in *
      end.
      destruct (0 <? length objectElements)%nat; [|simpl; lia].
      pose proof (nameGen_generate_fieldCount
                    (name_segments segments ++ ["item"]) st2) as H3.
      destruct (nameGen_generate _ st2) as [itemName st3]. simpl in *. lia.
Qed.

Lemma infer_properties_fieldCount settings obj :
  Forall (fun kv => counts_fields settings (snd kv)) obj ->
  forall segments props st,
    st_fieldCount
      (snd (infer_properties (infer settings) segments props st obj))
    = (st_fieldCount st
       + list_sum (map (fun kv => S (count_fields (snd kv))) obj))%nat.
Proof.
  induction 1 as [|[key val] obj Hv _ IH]; intros segments props st; simpl;
    [lia|].
  pose proof (Hv (segments ++ [key]) (incr_fieldCount st)) as H1.
  simpl in H1.
  destruct (infer settings val (segments ++ [key]) (incr_fieldCount st))
    as [childType st2].
  simpl in H1. rewrite IH, H1. lia.
Qed.

Lemma infer_fieldCount settings : forall v, counts_fields settings v.
Proof.
  induction v as [|s| |b|arr IH|obj IH|] using Value_ind;
    intros segments st; simpl; try lia.
  - destruct (detectDates settings && Regex.test ISO_DATE_REGEX s); simpl; lia.
  - now apply inferArray_fieldCount.
  - unfold inferObject_body.
    pose proof (infer_properties_fieldCount settings obj IH segments [] st)
      as H1.
    destruct (infer_properties (infer settings) segments [] st obj)
      as [props st1].
    simpl in H1.
    pose proof (fun segs => nameGen_generate_fieldCount segs st1) as H2.
    destruct segments as [|p segments'];
      [specialize (H2 [rootTypeName settings])
      |specialize (H2 (name_segments (p :: segments')))];
      destruct (nameGen_generate _ st1) as [name st2]; simpl in *; lia.
Qed.

(** X15.  [fieldCount] is the number of object entries of the value: every
    key of every object, nested ones and those inside arrays included. *)
Theorem inferType_fieldCount :
  forall value settings,
    fieldCount (inferType value settings) = count_fields value.
Proof.
  intros value settings. unfold inferType.
  destruct (root_rejected value).
  - pose proof (infer_fieldCount settings value []
                  (push_diagnostic
                     (mkDiagnostic error
                        "Root value must be an object or array." "")
                     initial_state)) as H.
    destruct (infer settings value [] _) as [t st]. simpl in *. exact H.
  - pose proof (infer_fieldCount settings value [] initial_state) as H.
    destruct (infer settings value [] initial_state) as [t st].
    simpl in *. exact H.
Qed.

(** ** Dates *)

Lemma leaves_not_date_fresh (props : PropertyMap) :
  Forall
    (fun kp =>
       fresh_property (fun t => leaves_satisfy not_date t = true) (snd kp))
    props ->
  forallb (fun kp => leaves_satisfy not_date (type (snd kp))) props = true.
Proof.
  intros H. apply (Forall_forallb
                     (fun kp => leaves_satisfy not_date (type (snd kp)))).
  eapply List.Forall_impl; [|exact H].
  intros [k p] [->|(Hq & _)]; [reflexivity | exact Hq].
Qed.

Lemma mergeTypes_not_date ts :
  Forall (fun t => leaves_satisfy not_date t = true) ts ->
  leaves_satisfy not_date (mergeTypes ts) = true.
Proof.
  destruct ts as [|t ts]; [reflexivity|]. apply mergeTypes_leaves.
Qed.

Lemma infer_no_dates settings :
  detectDates settings = false ->
  forall v,
    good_value_for settings (fun t => leaves_satisfy not_date t = true)
      (fun _ => True) v.
Proof.
  intros Hoff.
  induction v as [|s| |b|arr IH|obj IH|] using Value_ind;
    intros segments st Hst; simpl.
  - repeat split.
  - rewrite Hoff. repeat split.
  - repeat split.
  - repeat split.
  - apply (inferArray_good settings
             (fun t => leaves_satisfy not_date t = true) (fun _ => True));
      auto.
    + apply mergeTypes_not_date.
    + intros objs name. apply mergeObjectTypes_leaves.
  - destruct (inferObject_good settings
                (fun t => leaves_satisfy not_date t = true) (fun _ => True)
                (fun _ _ _ => Logic.I) (fun _ _ => Logic.I) obj IH segments
                st Hst) as (Hp & _).
    destruct (inferObject_body settings (infer settings) obj segments st)
      as [o st'].
    repeat split. simpl. now apply leaves_not_date_fresh.
  - repeat split.
Qed.

(** X16.  With [detectDates] off no [DateString] node appears anywhere in
    the inferred tree. *)
Theorem inferType_no_dates :
  forall value settings,
    detectDates settings = false ->
    leaves_satisfy not_date (result_type (inferType value settings)) = true.
Proof.
  intros value settings Hoff. unfold inferType.
  destruct (root_rejected value).
  - destruct (infer_no_dates settings Hoff value []
                (push_diagnostic
                   (mkDiagnostic error
                      "Root value must be an object or array." "")
                   initial_state) Logic.I) as (H & _).
    destruct (infer settings value [] _) as [t st]. exact H.
  - destruct (infer_no_dates settings Hoff value [] initial_state Logic.I)
      as (H & _).
    destruct (infer settings value [] initial_state) as [t st].
    simpl in *. now destruct t.
Qed.

Lemma inferType_no_dates_witness :
  leaves_satisfy not_date (result_type (inferType scenario_E plain_settings))
  = true.
Proof. apply (inferType_no_dates scenario_E plain_settings). reflexivity. Defined.

(** ** The shape of the root *)

Lemma infer_properties_keys
  (f : Value -> list string -> InferState -> InferredType * InferState) obj :
  forall segments props st,
    keys (fst (infer_properties f segments props st obj))
    = fold_left set_add (keys obj) (keys props).
Proof.
  induction obj as [|[key val] obj IH]; intros segments props st; simpl;
    [reflexivity|].
  destruct (f val (segments ++ [key]) (incr_fieldCount st)) as [childType st2].
  now rewrite IH, keys_set_prop.
Qed.

Lemma inferArray_shape
  (f : Value -> list string -> InferState -> InferredType * InferState)
  arr segments st :
  exists e, fst (inferArray_body f arr segments st) = Array e.
Proof.
  unfold inferArray_body. destruct arr as [|v arr']; [eexists; reflexivity|].
  destruct (infer_elements f segments 0 [] [] st (v :: arr'))
    as [[objectElements otherElements] st1].
  destruct (length objectElements =? length (v :: arr'))%nat.
  - destruct (nameGen_generate _ st1). eexists; reflexivity.
  - destruct (length objectElements =? 0)%nat; [eexists; reflexivity|].
    destruct (0 <? length objectElements)%nat;
      [destruct (nameGen_generate _ _)|]; eexists; reflexivity.
Qed.

(** With property objects read as finite maps in insertion order: an
    object is inferred as an [Object] named [rootTypeName], with the keys
    of the value in their order and no property optional; an array is
    inferred as an [Array]. *)
Lemma inferType_shape :
  forall settings,
    (forall obj,
        List.NoDup (keys obj) ->
        exists props,
          result_type (inferType (VObject obj) settings)
          = Object props (rootTypeName settings)
          /\ keys props = keys obj
          /\ Forall (fun kp => optional (snd kp) = false) props)
    /\ (forall arr,
          exists e, result_type (inferType (VArray arr) settings) = Array e).
Proof.
  intros settings. split.
  - intros obj Hnd. unfold inferType. cbn [root_rejected infer].
    assert (Hgood : forall v,
               good_value_for settings (fun _ => True) (fun _ => True) v)
      by (apply infer_good; intros; exact Logic.I).
    assert (Hobj : Forall
                     (fun kv =>
                        good_value_for settings (fun _ => True)
                          (fun _ => True) (snd kv)) obj)
      by (apply List.Forall_forall; intros; apply Hgood).
    destruct (inferObject_good settings (fun _ => True) (fun _ => True)
                (fun _ _ _ => Logic.I) (fun _ _ => Logic.I) obj Hobj
                [] initial_state Logic.I) as (Hp & _).
    unfold inferObject_body in *.
    pose proof (infer_properties_keys (infer settings) obj [] [] initial_state)
      as Hk.
    destruct (infer_properties (infer settings) [] [] initial_state obj)
      as [props st1].
    destruct (nameGen_generate [rootTypeName settings] st1) as [name st2].
    simpl in *. exists props. repeat split.
    + rewrite Hk. now apply (fold_set_add_fresh (keys obj) []).
    + eapply List.Forall_impl; [|exact Hp].
      intros [k p] [->|(_ & _ & _ & Ho & _)]; [reflexivity | exact Ho].
  - intros arr. unfold inferType. cbn [root_rejected infer].
    destruct (inferArray_shape (infer settings) arr [] initial_state)
      as [e He].
    destruct (inferArray_body (infer settings) arr [] initial_state)
      as [t st].
    simpl in *. subst t. now exists e.
Qed.

(** ** Arrays of unknown *)

Lemma infer_json_known settings v :
  is_json v = true ->
  good_value_for settings
    (fun t => is_unknown t = false /\ is_union t = false) (fun _ => True) v.
Proof.
  intros Hj segments st _. unfold good_result.
  destruct v; try discriminate Hj; simpl.
  - repeat split.
  - destruct (detectDates settings && Regex.test ISO_DATE_REGEX s);
      repeat split.
  - repeat split.
  - repeat split.
  - destruct (inferArray_shape (infer settings) arr segments st) as [e ->].
    repeat split.
  - destruct (inferObject_body settings (infer settings) obj segments st).
    repeat split.
Qed.

Lemma known_leaf_merged t types :
  In t types -> is_unknown t = false -> is_union t = false ->
  mergeTypes types <> Unknown.
Proof.
  intros Hin Hu Hn E.
  assert (H : existsb not_unknown (flattenUnions types) = true).
  { apply existsb_exists. exists t. split.
    - apply in_flat_map. exists t. split; [exact Hin|].
      rewrite flatten_one_id by exact Hn. now left.
    - unfold not_unknown. now rewrite Hu. }
  apply mergeTypes_without_unknown in H as [_ H].
  rewrite E in H. discriminate H.
Qed.

(** X18.  An array of JSON values is inferred as [unknown[]] only when it
    is empty. *)
Theorem inferArray_unknown_iff_empty :
  forall settings arr segments st,
    forallb is_json arr = true ->
    (fst (inferArray settings arr segments st) = Array Unknown <-> arr = []).
Proof.
  intros settings arr segments st Hj. split; [|now intros ->].
  destruct arr as [|v arr']; [reflexivity|]. intros E. exfalso.
  unfold inferArray, inferArray_body in E.
  set (arr := v :: arr') in *.
  assert (Harr : Forall
                   (good_value_for settings
                      (fun t => is_unknown t = false /\ is_union t = false)
                      (fun _ => True)) arr).
  { apply List.Forall_forall. intros x Hx. apply infer_json_known.
    rewrite forallb_forall in Hj. now apply Hj. }
  destruct (infer_elements_good settings _ _ arr Harr segments 0 [] [] st
              Logic.I (List.Forall_nil _) (List.Forall_nil _))
    as (_ & Hothers & _).
  pose proof (infer_elements_lengths (infer settings) arr segments 0 [] [] st)
    as Hlen.
  destruct (infer_elements (infer settings) segments 0 [] [] st arr)
    as [[objectElements otherElements] st1].
  simpl in Hothers, Hlen.
  destruct (length objectElements =? length arr)%nat eqn:E1.
  - destruct (nameGen_generate _ st1). discriminate E.
  - destruct (length objectElements =? 0)%nat eqn:E2.
    + apply Nat.eqb_eq in E2.
      destruct otherElements as [|t others];
        [subst arr; simpl in *; lia|].
      apply List.Forall_inv in Hothers as [Hu Hn].
      simpl in E. injection E as E.
      now apply (known_leaf_merged t (t :: others) (or_introl eq_refl) Hu Hn).
    + apply Nat.eqb_neq in E2.
      assert (Hpos : (0 <? length objectElements)%nat = true)
        by (apply Nat.ltb_lt; lia).
      rewrite Hpos in E.
      destruct (nameGen_generate _ _) as [itemName st3].
      simpl in E. injection E as E.
      apply (known_leaf_merged
               (ObjectT (mergeObjectTypes objectElements itemName))
               (otherElements
                ++ [ObjectT (mergeObjectTypes objectElements itemName)]));
        [apply in_app_iff; right; now left | reflexivity | reflexivity
        | exact E].
Qed.

Lemma inferArray_unknown_iff_empty_witness :
  fst (inferArray plain_settings [VNull; VArray []] ["items"] initial_state)
  = Array Unknown
  <-> [VNull; VArray []] = [].
Proof.
  apply (inferArray_unknown_iff_empty plain_settings [VNull; VArray []]
           ["items"] initial_state).
  reflexivity.
Defined.

(** ** Names, continued *)

Lemma string_forall_append p a b :
  string_forall p (a +:+ b) = string_forall p a && string_forall p b.
Proof.
  induction a as [|c a IH]; [reflexivity|].
  change (String c a +:+ b) with (String c (a +:+ b)). simpl.
  now rewrite IH, andb_assoc.
Qed.

Lemma string_forall_join p l :
  Forall (fun s => string_forall p s = true) l ->
  string_forall p (join "" l) = true.
Proof.
  induction 1 as [|x l Hx Hl IH]; [reflexivity|].
  destruct l as [|y l]; [exact Hx|].
  change (join "" (x :: y :: l)) with (x +:+ "" +:+ join "" (y :: l)).
  rewrite !string_forall_append, Hx, IH. reflexivity.
Qed.

Lemma split_from_no_separator s :
  forall cur in_sep,
    string_forall (fun c => negb (is_separator c)) cur = true ->
    Forall (fun w => string_forall (fun c => negb (is_separator c)) w = true)
      (split_from cur in_sep s).
Proof.
  induction s as [|c s IH]; intros cur in_sep Hcur; simpl.
  - now repeat constructor.
  - destruct (is_separator c) eqn:Ec.
    + destruct in_sep; [now apply IH|]. constructor; [exact Hcur|].
      now apply IH.
    + apply IH. rewrite string_forall_append, Hcur. simpl. now rewrite Ec.
Qed.

Lemma is_separator_upper_char c :
  is_separator (upper_char c) = is_separator c.
Proof.
  unfold upper_char. destruct (is_lower c) eqn:E; [|reflexivity].
  destruct c as [[] [] [] [] [] [] [] []]; try discriminate E; reflexivity.
Qed.

Lemma is_separator_lower_char c :
  is_separator c = false -> is_separator (lower_char c) = false.
Proof.
  intros H. unfold lower_char. destruct (is_upper c) eqn:E; [|exact H].
  destruct c as [[] [] [] [] [] [] [] []]; try discriminate E; reflexivity.
Qed.

Lemma toLowerCase_no_separator s :
  string_forall (fun c => negb (is_separator c)) s = true ->
  string_forall (fun c => negb (is_separator c)) (toLowerCase s) = true.
Proof.
  induction s as [|c s IH]; [reflexivity|]. simpl.
  intros H. apply andb_true_iff in H as [Hc Hs].
  apply negb_true_iff in Hc.
  now rewrite (is_separator_lower_char c Hc), IH.
Qed.

Lemma capitalize_no_separator w :
  string_forall (fun c => negb (is_separator c)) w = true ->
  string_forall (fun c => negb (is_separator c)) (capitalize w) = true.
Proof.
  destruct w as [|c r]; [reflexivity|]. simpl.
  intros H. apply andb_true_iff in H as [Hc Hs].
  now rewrite is_separator_upper_char, Hc, toLowerCase_no_separator.
Qed.

Lemma is_lower_upper_char c : is_lower (upper_char c) = false.
Proof.
  destruct (is_lower c) eqn:E; [now apply upper_char_not_lower|].
  unfold upper_char. now rewrite E.
Qed.

Lemma starts_lower_append a b :
  starts_lower (a +:+ b)
  = match a with EmptyString => starts_lower b | _ => starts_lower a end.
Proof. now destruct a. Qed.

Lemma starts_lower_join l :
  Forall (fun s => starts_lower s = false) l ->
  starts_lower (join "" l) = false.
Proof.
  induction 1 as [|x l Hx Hl IH]; [reflexivity|].
  destruct l as [|y l]; [exact Hx|].
  change (join "" (x :: y :: l)) with (x +:+ "" +:+ join "" (y :: l)).
  rewrite starts_lower_append. destruct x; [|exact Hx].
  exact IH.
Qed.

Lemma capitalize_starts_upper w : starts_lower (capitalize w) = false.
Proof. destruct w; [reflexivity|]. simpl. apply is_lower_upper_char. Qed.

Lemma toPascalCase_starts_upper str : starts_lower (toPascalCase str) = false.
Proof.
  unfold toPascalCase. apply starts_lower_join. apply List.Forall_forall.
  intros w Hw. apply in_map_iff in Hw as (w' & <- & _).
  apply capitalize_starts_upper.
Qed.

(** X19.  A name made by [toPascalCase] contains no underscore, hyphen or
    white space, and does not start with a lowercase letter. *)
Theorem toPascalCase_shape :
  forall str,
    string_forall (fun c => negb (is_separator c)) (toPascalCase str) = true
    /\ starts_lower (toPascalCase str) = false.
Proof.
  intros str. unfold toPascalCase, split_separators. split.
  - apply string_forall_join. apply List.Forall_forall. intros w Hw.
    apply in_map_iff in Hw as (w' & <- & Hw').
    apply List.filter_In in Hw' as [Hw' _].
    apply capitalize_no_separator.
    pose proof (split_from_no_separator (insert_humps str) "" false eq_refl)
      as H.
    rewrite List.Forall_forall in H. now apply H.
  - apply toPascalCase_starts_upper.
Qed.

Lemma snakeToCamel_fixed s :
  has_snake_joint s = false -> snakeToCamel s = s.
Proof.
  enough (H : (has_snake_joint s = false -> snakeToCamel s = s)
              /\ forall a,
                   has_snake_joint (String a s) = false ->
                   snakeToCamel (String a s) = String a s)
    by apply H.
  induction s as [|c r' [IH1 IH2]].
  - split; [reflexivity | intros a _; reflexivity].
  - split; [apply IH2|]. intros a H.
    change (snakeToCamel (String a (String c r')))
      with (if Ascii.eqb a "_" && is_lower c
            then String (upper_char c) (snakeToCamel r')
            else String a (snakeToCamel (String c r'))).
    cbn [has_snake_joint] in H. apply orb_false_iff in H as [H1 H2].
    rewrite H1. f_equal. apply IH2. exact H2.
Qed.

(** X20.  [snakeToCamel] leaves a key as it is exactly when no underscore
    of the key stands in front of a lowercase letter. *)
Theorem snakeToCamel_fixed_iff :
  forall str, snakeToCamel str = str <-> has_snake_joint str = false.
Proof.
  intros str. split.
  - intros E. rewrite <- E. apply snakeToCamel_no_joint.
  - apply snakeToCamel_fixed.
Qed.

Lemma snakeToCamel_fixed_iff_witness : snakeToCamel "line_1" = "line_1".
Proof. apply (snakeToCamel_fixed_iff "line_1"). reflexivity. Defined.

(** *** Suffixes *)

Lemma to_uint_nonnil n : Nat.to_uint n <> Decimal.Nil.
Proof.
  rewrite <- (Unsigned.of_to n) at 1. rewrite Unsigned.to_of.
  apply unorm_nonnil.
Qed.

Lemma string_of_nat_inj n m : string_of_nat n = string_of_nat m -> n = m.
Proof.
  unfold string_of_nat. intros E.
  apply (f_equal NilZero.uint_of_string) in E.
  rewrite !NilZero.usu in E by apply to_uint_nonnil.
  injection E as E. now apply Unsigned.to_uint_inj.
Qed.

Lemma string_of_nat_nonempty n : string_of_nat n <> "".
Proof.
  unfold string_of_nat. intros E.
  apply (f_equal NilZero.uint_of_string) in E.
  rewrite NilZero.usu in E by apply to_uint_nonnil. discriminate E.
Qed.

Lemma append_inj_r a : forall b c, a +:+ b = a +:+ c -> b = c.
Proof.
  induction a as [|x a IH]; intros b c E; [exact E|].
  change (String x (a +:+ b) = String x (a +:+ c)) in E.
  injection E as E. now apply IH.
Qed.

Lemma append_inj_l s : forall a b, a +:+ s = b +:+ s -> a = b.
Proof.
  intros a b E.
  assert (L : String.length a = String.length b).
  { apply (f_equal String.length) in E. rewrite !length_append in E. lia. }
  revert b E L. induction a as [|x a IH]; intros [|y b] E L;
    try discriminate L; [reflexivity|].
  change (String x (a +:+ s) = String y (b +:+ s)) in E.
  injection E as -> E. f_equal. apply IH; [exact E|]. simpl in L. lia.
Qed.

Lemma append_nil_r_inv a b : a = a +:+ b -> b = "".
Proof.
  intros E. apply (f_equal String.length) in E.
  rewrite length_append in E. destruct b; [reflexivity|]. simpl in E. lia.
Qed.

(** What [generate] returns for the candidate name, by its count. *)
Lemma generate_unfold segs used :
  generate segs used
  = (if (count_of used (candidate_of segs) =? 0)%nat
     then candidate_of segs
     else candidate_of segs
          +:+ string_of_nat (count_of used (candidate_of segs) + 1),
     <[candidate_of segs := S (count_of used (candidate_of segs))]> used).
Proof.
  unfold generate, count_of, candidate_of.
  now destruct (default 0%nat
                  (used !! or_default (join "" (map toPascalCase segs)) "Root")
                =? 0)%nat.
Qed.

Lemma count_of_generate segs used name :
  count_of (snd (generate segs used)) name
  = if String.eqb name (candidate_of segs)
    then S (count_of used name) else count_of used name.
Proof.
  rewrite generate_unfold. cbn [snd]. unfold count_of at 1.
  destruct (String.eqb_spec name (candidate_of segs)) as [->|Hne].
  - now rewrite lookup_insert_eq.
  - rewrite lookup_insert_ne by congruence. reflexivity.
Qed.

Lemma generated_from_count used later name :
  generated_from used later -> (count_of used name <= count_of later name)%nat.
Proof.
  induction 1 as [|later segs _ IH]; [lia|].
  rewrite count_of_generate. destruct (String.eqb name (candidate_of segs)); lia.
Qed.

(** X21.  One generator never returns the same name twice for the same
    base: a later call whose path gives the same candidate name returns a
    different string, whatever was generated in between. *)
Theorem generate_same_base_distinct :
  forall segs1 segs2 used later,
    generated_from (snd (generate segs1 used)) later ->
    candidate_of segs1 = candidate_of segs2 ->
    fst (generate segs1 used) <> fst (generate segs2 later).
Proof.
  intros segs1 segs2 used later Hlater Hc.
  pose proof (generated_from_count _ _ (candidate_of segs1) Hlater) as Hle.
  rewrite count_of_generate, String.eqb_refl in Hle.
  rewrite !generate_unfold. cbn [fst]. rewrite <- Hc.
  set (B := candidate_of segs1) in *.
  destruct (count_of later B) as [|m] eqn:Em; [lia|].
  cbn [Nat.eqb].
  destruct (count_of used B) as [|n] eqn:En; cbn [Nat.eqb].
  - intros E. apply append_nil_r_inv in E.
    now apply string_of_nat_nonempty in E.
  - intros E. apply append_inj_r, string_of_nat_inj in E. lia.
Qed.

Lemma generate_same_base_distinct_witness :
  fst (generate ["item"] ∅)
  <> fst (generate ["Item"]
            (snd (generate ["other"] (snd (generate ["item"] ∅))))).
Proof.
  apply generate_same_base_distinct.
  - apply generated_step, generated_here.
  - reflexivity.
Defined.

(** *** Schema names *)

Lemma lower_char_inj c1 c2 :
  is_lower c1 = false -> is_lower c2 = false ->
  lower_char c1 = lower_char c2 -> c1 = c2.
Proof.
  unfold lower_char, is_lower, is_upper. intros H1 H2 E.
  pose proof (nat_ascii_bounded c1) as B1.
  pose proof (nat_ascii_bounded c2) as B2.
  destruct ((65 <=? nat_of_ascii c1)%nat && (nat_of_ascii c1 <=? 90)%nat)
    eqn:U1;
    destruct ((65 <=? nat_of_ascii c2)%nat && (nat_of_ascii c2 <=? 90)%nat)
      eqn:U2;
    try (apply andb_true_iff in U1 as [U1a U1b];
         apply Nat.leb_le in U1a, U1b);
    try (apply andb_true_iff in U2 as [U2a U2b];
         apply Nat.leb_le in U2a, U2b).
  - apply (f_equal nat_of_ascii) in E.
    rewrite !nat_ascii_embedding in E by lia.
    rewrite <- (ascii_nat_embedding c1), <- (ascii_nat_embedding c2).
    f_equal. lia.
  - exfalso. apply (f_equal nat_of_ascii) in E.
    rewrite nat_ascii_embedding in E by lia.
    rewrite <- E in H2.
    apply andb_false_iff in H2 as [H2|H2]; apply Nat.leb_gt in H2; lia.
  - exfalso. apply (f_equal nat_of_ascii) in E.
    rewrite nat_ascii_embedding in E by lia.
    rewrite E in H1.
    apply andb_false_iff in H1 as [H1|H1]; apply Nat.leb_gt in H1; lia.
  - exact E.
Qed.

Lemma toSchemaName_inj a b :
  starts_lower a = false -> starts_lower b = false ->
  toSchemaName a = toSchemaName b -> a = b.
Proof.
  intros Ha Hb E. unfold toSchemaName in E.
  destruct a as [|c1 r1], b as [|c2 r2].
  - reflexivity.
  - apply (f_equal String.length) in E.
    rewrite length_append in E. simpl in E. lia.
  - apply (f_equal String.length) in E.
    rewrite length_append in E. simpl in E. lia.
  - apply append_inj_l in E. injection E as Ec ->.
    f_equal. now apply lower_char_inj.
Qed.

Lemma candidate_of_starts_upper segs : starts_lower (candidate_of segs) = false.
Proof.
  unfold candidate_of.
  assert (H : starts_lower (join "" (map toPascalCase segs)) = false).
  { apply starts_lower_join, List.Forall_forall. intros w Hw.
    apply in_map_iff in Hw as (s & <- & _). apply toPascalCase_starts_upper. }
  now destruct (join "" (map toPascalCase segs)).
Qed.

Lemma generate_starts_upper segs used :
  starts_lower (fst (generate segs used)) = false.
Proof.
  rewrite generate_unfold. cbn [fst].
  pose proof (candidate_of_starts_upper segs) as H.
  destruct (count_of used (candidate_of segs) =? 0)%nat; [exact H|].
  rewrite starts_lower_append.
  destruct (candidate_of segs) eqn:E; [|exact H].
  unfold candidate_of in E.
  now destruct (join "" (map toPascalCase segs)).
Qed.

(** ** Regular expressions *)

Lemma regex_void_deriv c r :
  regex_void r = true ->
  Regex.accepts_empty r = false /\ regex_void (Regex.deriv c r) = true.
Proof.
  induction r as [| |p|r1 IH1 r2 IH2|r1 IH1 r2 IH2|r1 IH1]; simpl;
    try discriminate; intros H.
  - split; reflexivity.
  - apply orb_true_iff in H as [H|H].
    + destruct (IH1 H) as [E1 V1]. rewrite E1. simpl. split; [reflexivity|].
      now rewrite V1.
    + destruct (IH2 H) as [E2 V2]. rewrite E2, andb_false_r.
      split; [reflexivity|].
      destruct (Regex.accepts_empty r1); simpl; rewrite ?H, ?V2, ?orb_true_r;
        reflexivity.
  - apply andb_true_iff in H as [H1 H2].
    destruct (IH1 H1) as [E1 V1]. destruct (IH2 H2) as [E2 V2].
    now rewrite E1, E2, V1, V2.
Qed.

Lemma test_void s :
  forall r, regex_void r = true -> Regex.test r s = false.
Proof.
  induction s as [|c s IH]; intros r H; simpl.
  - now apply (regex_void_deriv "a"%char).
  - apply IH. now apply regex_void_deriv.
Qed.

Lemma regex_within_deriv p c r :
  regex_within p r ->
  regex_within p (Regex.deriv c r)
  /\ (p c = false -> regex_void (Regex.deriv c r) = true).
Proof.
  induction r as [| |q|r1 IH1 r2 IH2|r1 IH1 r2 IH2|r1 IH1]; simpl; intros H.
  - auto.
  - auto.
  - destruct (q c) eqn:E; simpl; [|auto].
    split; [exact Logic.I|]. intros Hp. rewrite (H c E) in Hp. discriminate.
  - destruct H as [H1 H2].
    destruct (IH1 H1) as [W1 V1]. destruct (IH2 H2) as [W2 V2].
    destruct (Regex.accepts_empty r1); simpl.
    + split; [tauto|]. intros Hp. now rewrite V1, V2.
    + split; [tauto|]. intros Hp. now rewrite V1.
  - destruct H as [H1 H2].
    destruct (IH1 H1) as [W1 V1]. destruct (IH2 H2) as [W2 V2].
    split; [tauto|]. intros Hp. now rewrite V1, V2.
  - destruct (IH1 H) as [W1 V1]. split; [tauto|].
    intros Hp. now rewrite V1.
Qed.

Lemma test_within p s :
  forall r,
    regex_within p r -> Regex.test r s = true -> string_forall p s = true.
Proof.
  induction s as [|c s IH]; intros r Hw Ht; [reflexivity|]. simpl in *.
  destruct (regex_within_deriv p c r Hw) as [Hw' Hv].
  destruct (p c) eqn:Ep.
  - simpl. now apply (IH (Regex.deriv c r)).
  - rewrite test_void in Ht by auto. discriminate Ht.
Qed.

Lemma SNAKE_CASE_REGEX_within : regex_within is_snake_char SNAKE_CASE_REGEX.
Proof.
  unfold SNAKE_CASE_REGEX, Regex.chr, Regex.plus.
  cbn [regex_within Regex.seq].
  repeat split; try exact Logic.I; intros c H;
    try (rewrite Ascii.eqb_sym in H);
    unfold is_snake_char, is_lower_or_digit in *;
    destruct (is_lower c), (is_digit c), (Ascii.eqb c "_");
    try reflexivity; discriminate H.
Qed.

Lemma isSnakeCase_shape str :
  isSnakeCase str = true ->
  starts_lower str = true /\ string_forall is_snake_char str = true.
Proof.
  intros H. split.
  - unfold isSnakeCase in H. destruct str as [|c s]; [discriminate H|].
    simpl. destruct (is_lower c) eqn:E; [reflexivity|].
    change (Regex.test (Regex.deriv c SNAKE_CASE_REGEX) s = true) in H.
    rewrite test_void in H; [discriminate H|].
    unfold SNAKE_CASE_REGEX.
    cbn [Regex.seq Regex.deriv Regex.accepts_empty andb].
    rewrite E. reflexivity.
  - exact (test_within is_snake_char str SNAKE_CASE_REGEX
             SNAKE_CASE_REGEX_within H).
Qed.

(** X23.  [isSnakeCase] accepts only keys that start with a lowercase
    letter and are made of lowercase letters, digits and underscores; any
    other key is printed as it is by the emitters, whatever the
    settings. *)
Theorem snake_keys_only :
  forall key,
    (isSnakeCase key = true ->
     starts_lower key = true /\ string_forall is_snake_char key = true)
    /\ (starts_lower key = false \/ string_forall is_snake_char key = false ->
        forall settings, tsKey_of settings key = key).
Proof.
  intros key. split; [apply isSnakeCase_shape|].
  intros H settings. unfold tsKey_of.
  destruct (isSnakeCase key) eqn:E; [|now rewrite andb_false_r].
  destruct (isSnakeCase_shape key E) as [H1 H2].
  destruct H as [H|H]; congruence.
Qed.

Lemma snake_keys_only_witness :
  tsKey_of snake_generate_settings "user-Name_x" = "user-Name_x".
Proof.
  apply (proj2 (snake_keys_only "user-Name_x")). right. reflexivity.
Defined.

(** ** Dates, continued *)

Lemma ISO_DATE_REGEX_prefix s :
  Regex.test ISO_DATE_REGEX s = true -> date_prefix s = true.
Proof.
  intros H. unfold ISO_DATE_REGEX in H. cbv zeta in H.
  unfold Regex.chr, Regex.opt, Regex.plus in H.
  cbn [Regex.seq Regex.rep] in H.
  regex_step H c1. regex_class H E1 test_void.
  regex_step H c2. regex_class H E2 test_void.
  regex_step H c3. regex_class H E3 test_void.
  regex_step H c4. regex_class H E4 test_void.
  regex_step H c5. regex_class H E5 test_void.
  regex_step H c6. regex_class H E6 test_void.
  regex_step H c7. regex_class H E7 test_void.
  regex_step H c8. regex_class H E8 test_void.
  regex_step H c9. regex_class H E9 test_void.
  regex_step H c10. regex_class H E10 test_void.
  rewrite Ascii.eqb_sym in E5, E8.
  unfold date_prefix.
  now rewrite E1, E2, E3, E4, E5, E6, E7, E8, E9, E10.
Qed.

(** X24.  A string is inferred as [DateString] only when dates are
    detected and the string starts with [dddd-dd-dd]. *)
Theorem date_only_for_date_prefix :
  forall settings s segments st,
    fst (infer settings (VString s) segments st) = DateString ->
    detectDates settings = true /\ date_prefix s = true.
Proof.
  intros settings s segments st. simpl.
  destruct (detectDates settings); [|discriminate]. simpl.
  destruct (Regex.test ISO_DATE_REGEX s) eqn:E; [|discriminate].
  intros _. split; [reflexivity|]. now apply ISO_DATE_REGEX_prefix.
Qed.

Lemma date_only_for_date_prefix_witness :
  date_prefix "2025-01-15T09:30:00.000Z" = true.
Proof.
  apply (date_only_for_date_prefix date_settings "2025-01-15T09:30:00.000Z"
           ["createdAt"] initial_state).
  reflexivity.
Defined.

(** ** Whole outputs *)

Lemma flat_map_split {A B : Type} (f : A -> list B) l :
  forall pre o post,
    flat_map f l = pre ++ o :: post ->
    exists l1 x l2 p q,
      l = l1 ++ x :: l2 /\ f x = p ++ o :: q
      /\ pre = flat_map f l1 ++ p /\ post = q ++ flat_map f l2.
Proof.
  induction l as [|a l IH]; intros pre o post E; simpl in E.
  - now destruct pre.
  - apply app_eq_app in E as [l' [[E1 E2]|[E1 E2]]].
    + destruct l' as [|b l'].
      * simpl in E2. symmetry in E2. rewrite app_nil_r in E1.
        destruct (IH [] o post E2) as (l1 & x & l2 & p & q & -> & Hx & Hp & ->).
        exists (a :: l1), x, l2, p, q. repeat split; [exact Hx|].
        simpl. rewrite <- app_assoc, <- Hp, app_nil_r. now symmetry.
      * injection E2 as <- ->.
        exists [], a, l, pre, l'. repeat split. exact E1.
    + destruct (IH l' o post E2)
        as (l1 & x & l2 & p & q & -> & Hx & -> & ->).
      exists (a :: l1), x, l2, p, q. repeat split; [exact Hx|].
      simpl. now rewrite E1, app_assoc.
Qed.

Lemma collectObjects_subtree t :
  forall pre o post,
    collectObjects t = pre ++ o :: post ->
    exists rest, post = nested_objects o ++ rest.
Proof.
  induction t as [k|e IH|props name IH|vs IH| |] using InferredType_ind;
    intros pre o post E; simpl in E;
    try (now destruct pre).
  - now apply (IH pre).
  - destruct pre as [|r pre].
    + injection E as <- <-. exists []. now rewrite app_nil_r.
    + injection E as _ E.
      apply flat_map_split in E
        as (l1 & kp & l2 & p & q & -> & Hx & _ & ->).
      apply Forall_app in IH as [_ IH]. apply List.Forall_inv in IH.
      destruct (IH p o q Hx) as [rest ->].
      exists (rest ++ flat_map (fun kp => collectObjects (type (snd kp))) l2).
      now rewrite app_assoc.
  - apply flat_map_split in E as (l1 & x & l2 & p & q & -> & Hx & _ & ->).
    apply Forall_app in IH as [_ IH]. apply List.Forall_inv in IH.
    destruct (IH p o q Hx) as [rest ->].
    exists (rest ++ flat_map collectObjects l2). now rewrite app_assoc.
Qed.

(** X25.  Declarations and schemas are emitted so that dependencies come
    before usage: the objects are rendered in the reverse of discovery
    order, in which every object found below the properties of an object
    stands before that object, and the root object stands last. *)
Theorem emitted_dependencies_first :
  forall t settings,
    (exists trailer,
        generateTypeScript_lines t settings
        = emit_reversed (fun obj => generateObjectDeclaration obj settings)
            (rendered_objects t) ++ trailer)
    /\ (exists trailer,
          generateZod_lines t settings
          = ["import { z } from " +:+ dquote +:+ "zod" +:+ dquote +:+ ";"; ""]
            ++ emit_reversed (fun obj => generateObjectSchema obj settings)
                 (rendered_objects t)
            ++ trailer)
    /\ (forall before o after o',
          rev (collectObjects t) = before ++ o :: after ->
          In o' (nested_objects o) -> In o' before)
    /\ (forall props name,
          t = Object props name ->
          exists before,
            rev (collectObjects t) = before ++ [mkObjectType props name]).
Proof.
  intros t settings. repeat split.
  - destruct t; simpl; eauto using app_nil_r.
  - unfold generateZod_lines. destruct t; cbv zeta; simpl rendered_objects;
      eauto.
  - intros before o after o' E Hin.
    apply (f_equal (@rev ObjectType)) in E.
    rewrite rev_involutive, rev_app_distr in E. simpl in E.
    rewrite <- app_assoc in E. simpl in E.
    apply collectObjects_subtree in E as [rest E].
    apply in_rev. rewrite E. apply in_app_iff. now left.
  - intros props name ->. simpl. eauto.
Qed.

Lemma emitted_dependencies_first_witness :
  In address_object [address_object].
Proof.
  apply (proj1 (proj2 (proj2
           (emitted_dependencies_first (ObjectT root_object)
              default_generate_settings)))
           [address_object] user_object [root_object] address_object).
  - reflexivity.
  - simpl. auto.
Defined.

Lemma typeToTS_array e settings :
  is_union e = false ->
  typeToTS (Array e) settings = typeToTS e settings +:+ "[]".
Proof. intros H. simpl. now rewrite H. Qed.

(** X26.  For an array root the alias is written as the element type
    followed by [[]].  That is the text [typeToTS] gives for the array
    exactly when the element type is not a [Union]: a [Union] of elements
    is not put in parentheses in the alias. *)
Theorem array_root_alias :
  forall e settings,
    generateTypeScript_lines (Array e) settings
    = emit_reversed (fun obj => generateObjectDeclaration obj settings)
        (collectObjects e)
      ++ ["export type " +:+ gen_rootTypeName settings +:+ " = "
          +:+ typeToTS (Array e) settings +:+ ";"; ""]
    <-> is_union e = false.
Proof.
  intros e settings. unfold generateTypeScript_lines.
  change (collectObjects (Array e)) with (collectObjects e). split.
  - intros E. apply app_inv_head in E. injection E as E.
    apply append_inj_r, append_inj_r, append_inj_r in E.
    destruct (is_union e) eqn:Hu; [|reflexivity]. exfalso.
    cbn [typeToTS] in E. rewrite ?Hu in E.
    apply (f_equal String.length) in E.
    rewrite !length_append in E. simpl in E. lia.
  - intros Hu. rewrite (typeToTS_array e settings Hu).
    now rewrite (append_assoc (typeToTS e settings) "[]" ";").
Qed.

Lemma array_root_alias_witness :
  generateTypeScript_lines (Array (Primitive PNumber)) default_generate_settings
  = ["export type Root = number[];"; ""].
Proof.
  rewrite (proj2 (array_root_alias (Primitive PNumber)
                    default_generate_settings) eq_refl).
  reflexivity.
Defined.

(** X27.  [generateExample] does not throw on a tree that [inferType]
    returned: the lines and the raw text of the example exist for every
    value and all settings. *)
Theorem generateExample_inferred :
  forall value settings gsettings,
    (exists lines,
        generateExample_lines (result_type (inferType value settings))
          gsettings = Some lines)
    /\ (exists raw,
          generateExample_raw (result_type (inferType value settings))
            gsettings = Some raw).
Proof.
  intros value settings gsettings.
  destruct (generateValue_total (result_type (inferType value settings))
              (inferType_unions_nonempty value settings) gsettings 0)
    as [out Hout].
  unfold generateExample_raw, generateExample_lines. rewrite Hout.
  split; eexists; reflexivity.
Qed.

Lemma typeToTS_settings t :
  forall s s', typeToTS t s = typeToTS t s'.
Proof.
  induction t as [k|e IH|props name IH|vs IH| |] using InferredType_ind;
    intros s s'; simpl; try reflexivity.
  - now rewrite (IH s s').
  - f_equal. apply map_ext_in. intros v Hv.
    rewrite List.Forall_forall in IH. now apply IH.
Qed.

Lemma typeToZod_settings t :
  forall s s',
    gen_detectDates s = gen_detectDates s'
    \/ leaves_satisfy not_date t = true ->
    typeToZod t s = typeToZod t s'.
Proof.
  induction t as [k|e IH|props name IH|vs IH| |] using InferredType_ind;
    intros s s' H; simpl; try reflexivity.
  - rewrite (IH s s'); [reflexivity|]. destruct H; auto.
  - assert (E : map (fun v => typeToZod v s) vs
                = map (fun v => typeToZod v s') vs).
    { apply map_ext_in. intros v Hv.
      rewrite List.Forall_forall in IH. apply IH; [exact Hv|].
      destruct H as [H|H]; [now left | right].
      simpl in H. rewrite forallb_forall in H. now apply H. }
    now rewrite E.
  - destruct H as [H|H]; [now rewrite H | discriminate H].
Qed.

(** X28.  The rendering of a type depends on the settings only through
    [detectDates], and only in [typeToZod]: [typeToTS] gives the same text
    under all settings, and so does [typeToZod] for settings that agree on
    [detectDates] or for a tree without [DateString]. *)
Theorem type_rendering_settings :
  forall t s s',
    typeToTS t s = typeToTS t s'
    /\ (gen_detectDates s = gen_detectDates s' ->
        typeToZod t s = typeToZod t s')
    /\ (leaves_satisfy not_date t = true -> typeToZod t s = typeToZod t s').
Proof.
  intros t s s'. repeat split.
  - apply typeToTS_settings.
  - intros H. apply typeToZod_settings. now left.
  - intros H. apply typeToZod_settings. now right.
Qed.

Lemma type_rendering_settings_witness :
  typeToZod three_way_union date_generate_settings
  = typeToZod three_way_union snake_generate_settings.
Proof.
  apply (proj2 (proj2 (type_rendering_settings three_way_union
                         date_generate_settings snake_generate_settings))).
  reflexivity.
Defined.

(** ** Structural equality is respected *)

Lemma typesEqual_compat a a' b b' :
  typesEqual a a' = true -> typesEqual b b' = true ->
  typesEqual a b = typesEqual a' b'.
Proof.
  intros Ha Hb.
  destruct (typesEqual a b) eqn:E.
  - symmetry. apply (typesEqual_trans a' a b').
    + now rewrite typesEqual_sym.
    + now apply (typesEqual_trans a b b').
  - destruct (typesEqual a' b') eqn:E'; [|reflexivity].
    rewrite <- E. apply (typesEqual_trans a a' b); [exact Ha|].
    apply (typesEqual_trans a' b' b); [exact E'|].
    now rewrite typesEqual_sym.
Qed.

Lemma typesEqual_is_union a b :
  typesEqual a b = true -> is_union a = is_union b.
Proof. destruct a, b; simpl; intros H; try reflexivity; discriminate. Qed.

Lemma typesEqual_is_null a b :
  typesEqual a b = true -> is_null a = is_null b.
Proof.
  destruct a as [[]| | | | |], b as [[]| | | | |]; simpl; intros H;
    try reflexivity; discriminate.
Qed.

Lemma equal_types_flat_map avs :
  Forall
    (fun a =>
       forall b, typesEqual a b = true ->
                 equal_types (flatten_one a) (flatten_one b)) avs ->
  forall bvs,
    equal_types avs bvs ->
    equal_types (flat_map flatten_one avs) (flat_map flatten_one bvs).
Proof.
  induction 1 as [|a avs Ha _ IH]; intros bvs HE; inversion HE; subst; simpl.
  - constructor.
  - apply Forall2_app; [now apply Ha | now apply IH].
Qed.

Lemma flatten_one_equal a :
  forall b,
    typesEqual a b = true -> equal_types (flatten_one a) (flatten_one b).
Proof.
  induction a as [k|e IH|props name IH|vs IH| |] using InferredType_ind;
    intros b H; destruct b; try (simpl in H; discriminate H).
  - now repeat constructor.
  - now repeat constructor.
  - now repeat constructor.
  - apply typesEqual_union in H. cbn [flatten_one].
    now apply equal_types_flat_map.
  - now repeat constructor.
  - now repeat constructor.
Qed.

Lemma flattenUnions_equal l l' :
  equal_types l l' -> equal_types (flattenUnions l) (flattenUnions l').
Proof.
  induction 1 as [|a b l l' Hab _ IH]; [constructor|].
  rewrite !flattenUnions_cons.
  apply Forall2_app; [now apply flatten_one_equal | exact IH].
Qed.

Lemma existsb_equal acc acc' t t' :
  equal_types acc acc' -> typesEqual t t' = true ->
  existsb (fun r => typesEqual r t) acc
  = existsb (fun r => typesEqual r t') acc'.
Proof.
  intros H Ht. induction H as [|r r' acc acc' Hr _ IH]; [reflexivity|].
  simpl. now rewrite IH, (typesEqual_compat r r' t t' Hr Ht).
Qed.

Lemma dedupe_fold_equal l l' :
  equal_types l l' ->
  forall acc acc',
    equal_types acc acc' ->
    equal_types (fold_left dedupe_step l acc) (fold_left dedupe_step l' acc').
Proof.
  induction 1 as [|t t' l l' Ht _ IH]; intros acc acc' Hacc; [exact Hacc|].
  simpl. apply IH. unfold dedupe_step.
  rewrite (existsb_equal acc acc' t t' Hacc Ht).
  destruct (existsb (fun r => typesEqual r t') acc'); simpl; [exact Hacc|].
  apply Forall2_app; [exact Hacc | now repeat constructor].
Qed.

Lemma deduplicateTypes_equal l l' :
  equal_types l l' ->
  equal_types (deduplicateTypes l) (deduplicateTypes l').
Proof.
  intros H. rewrite !deduplicateTypes_fold.
  apply dedupe_fold_equal; [exact H | constructor].
Qed.

Lemma filter_equal (p : InferredType -> bool) l l' :
  (forall a b, typesEqual a b = true -> p a = p b) ->
  equal_types l l' -> equal_types (List.filter p l) (List.filter p l').
Proof.
  intros Hp. induction 1 as [|a b l l' Hab _ IH]; [constructor|].
  simpl. rewrite (Hp a b Hab). destruct (p b); [now constructor | exact IH].
Qed.

Lemma equal_types_length l l' : equal_types l l' -> length l = length l'.
Proof. induction 1; simpl; congruence. Qed.

Lemma finalTypes_equal l l' :
  equal_types l l' -> equal_types (finalTypes l) (finalTypes l').
Proof.
  intros H. unfold finalTypes.
  pose proof (deduplicateTypes_equal _ _ (flattenUnions_equal l l' H)) as Hd.
  pose proof (filter_equal (fun t => negb (is_unknown t)) _ _
                (fun a b E => f_equal negb (typesEqual_unknown a b E)) Hd)
    as Hm.
  rewrite (equal_types_length _ _ Hm).
  now destruct (0 <? length _)%nat.
Qed.

Lemma mergeTypes_equal l l' :
  equal_types l l' -> typesEqual (mergeTypes l) (mergeTypes l') = true.
Proof.
  intros H. pose proof (finalTypes_equal l l' H) as HF.
  inversion H as [|a b r r' Hab Hr]; subst; [reflexivity|].
  rewrite !mergeTypes_finalTypes.
  destruct (finalTypes (a :: r)) as [|x [|x2 fr]],
           (finalTypes (b :: r')) as [|y [|y2 fr']];
    inversion HF as [|? ? ? ? Hxy Hfr]; subst;
    try (inversion Hfr; subst); try reflexivity; try exact Hxy.
  now apply typesEqual_union.
Qed.

Lemma separate_null_equal m m' b b' :
  typesEqual m m' = true ->
  typesEqual (fst (separate_null m b)) (fst (separate_null m' b')) = true.
Proof.
  intros H. rewrite !separate_null_spec.
  destruct m, m'; try (simpl in H; discriminate H); try exact H.
  apply typesEqual_union in H.
  assert (En : existsb is_null variants = existsb is_null variants0).
  { induction H as [|x y l l' Hxy _ IH]; [reflexivity|]. simpl.
    now rewrite IH, (typesEqual_is_null x y Hxy). }
  rewrite En. destruct (existsb is_null variants0);
    [|now apply typesEqual_union].
  cbn [fst].
  pose proof (filter_equal (fun v => negb (is_null v)) _ _
                (fun a b E => f_equal negb (typesEqual_is_null a b E)) H)
    as Hf.
  unfold collapse.
  destruct (List.filter (fun v => negb (is_null v)) variants)
    as [|x [|x2 fr]],
    (List.filter (fun v => negb (is_null v)) variants0) as [|y [|y2 fr']];
    inversion Hf as [|? ? ? ? Hxy Hfr]; subst;
    try (inversion Hfr; subst); try reflexivity; try exact Hxy.
  now apply typesEqual_union.
Qed.

Lemma equal_objects_get o o' key :
  typesEqual (ObjectT o) (ObjectT o') = true ->
  match get_prop (properties o) key, get_prop (properties o') key with
  | Some p, Some p' => typesEqual (type p) (type p') = true
  | None, None => True
  | _, _ => False
  end.
Proof.
  intros H. apply typesEqual_object in H as [Hk Hp].
  destruct (get_prop (properties o) key) as [p|] eqn:E.
  - assert (Hin : In key (keys (properties o)))
      by (apply get_prop_keys; eauto).
    destruct (Hp key Hin) as (pa & pb & Ha & Hb & Hab).
    rewrite Hb. congruence.
  - destruct (get_prop (properties o') key) as [p'|] eqn:E'; [|exact Logic.I].
    apply get_prop_None in E. apply E.
    apply sort_strings_In. rewrite Hk. apply sort_strings_In.
    apply get_prop_keys. eauto.
Qed.

Lemma occurrences_equal objs objs' key :
  equal_objects objs objs' ->
  equal_types (map type (occurrences objs key))
    (map type (occurrences objs' key)).
Proof.
  induction 1 as [|o o' objs objs' Ho _ IH]; [constructor|].
  unfold occurrences in *. simpl.
  pose proof (equal_objects_get o o' key Ho) as Hg.
  destruct (get_prop (properties o) key), (get_prop (properties o') key);
    try contradiction; simpl; [now constructor | exact IH].
Qed.

Lemma merge_key_equal objs objs' key :
  equal_objects objs objs' ->
  typesEqual (type (merge_key objs key)) (type (merge_key objs' key)) = true.
Proof.
  intros H. rewrite !merge_key_unfold. cbn zeta. cbn [type].
  apply separate_null_equal, mergeTypes_equal. now apply occurrences_equal.
Qed.

Lemma present_in_equal objs objs' key :
  equal_objects objs objs' ->
  present_in objs key = present_in objs' key.
Proof.
  intros H. rewrite <- !occurrences_length.
  rewrite <- (length_map type (occurrences objs key)).
  rewrite <- (length_map type (occurrences objs' key)).
  apply equal_types_length. now apply occurrences_equal.
Qed.

Lemma typesEqual_rename props name props' name' n n' :
  typesEqual (Object props name) (Object props' name') = true ->
  typesEqual (Object props n) (Object props' n') = true.
Proof. intros H. apply typesEqual_object. now apply typesEqual_object in H. Qed.

Lemma keys_merged o1 o2 objs name :
  keys (properties (mergeObjectTypes (o1 :: o2 :: objs) name))
  = collect_keys (o1 :: o2 :: objs).
Proof.
  unfold mergeObjectTypes. cbn [properties].
  rewrite keys_fold_set_prop. simpl keys.
  apply (fold_set_add_fresh (collect_keys (o1 :: o2 :: objs)) []).
  apply collect_keys_NoDup.
Qed.

Lemma mergeObjectTypes_equal objs objs' name name' :
  equal_objects objs objs' ->
  typesEqual (ObjectT (mergeObjectTypes objs name))
    (ObjectT (mergeObjectTypes objs' name')) = true.
Proof.
  intros H.
  inversion H as [|o1 o1' r r' H1 Hr]; subst; [reflexivity|].
  inversion Hr as [|o2 o2' r2 r2' H2 Hr2]; subst.
  { exact (typesEqual_rename _ _ _ _ name name' H1). }
  unfold ObjectT. apply typesEqual_object. split.
  - rewrite !keys_merged. apply sort_strings_perm.
    apply Permutation.NoDup_Permutation; try apply collect_keys_NoDup.
    intros k.
    rewrite <- (keys_merged o1 o2 r2 name), <- (keys_merged o1' o2' r2' name').
    rewrite !mergeObjectTypes_keys.
    now rewrite (present_in_equal _ _ k H).
  - intros k Hk. apply mergeObjectTypes_keys in Hk.
    exists (merge_key (o1 :: o2 :: r2) k), (merge_key (o1' :: o2' :: r2') k).
    rewrite !mergeObjectTypes_get.
    pose proof Hk as Hk'. rewrite (present_in_equal _ _ k H) in Hk'.
    apply Nat.ltb_lt in Hk, Hk'. rewrite Hk, Hk'.
    repeat split. now apply merge_key_equal.
Qed.

(** X29.  The merge functions respect structural equality: structurally
    equal inputs, position by position, give structurally equal
    results. *)
Theorem merge_respects_typesEqual :
  (forall types types',
      equal_types types types' ->
      typesEqual (mergeTypes types) (mergeTypes types') = true)
  /\ (forall objects objects' name name',
        equal_objects objects objects' ->
        typesEqual (ObjectT (mergeObjectTypes objects name))
          (ObjectT (mergeObjectTypes objects' name')) = true).
Proof.
  split.
  - apply mergeTypes_equal.
  - apply mergeObjectTypes_equal.
Qed.

Lemma merge_respects_typesEqual_witness :
  typesEqual (mergeTypes [shape_a; Primitive PNull])
    (mergeTypes [shape_b; Primitive PNull]) = true.
Proof.
  apply (proj1 merge_respects_typesEqual).
  repeat constructor.
Defined.

(** ** The structure does not depend on the path *)











(** * The prototype chain

    On keys that are not named like a member of [Object.prototype] the
    run of the code is the one the definitions of the first part
    describe. *)

(** Own keys are enumerated with the array indices first, in ascending
    order, then the other keys as they were inserted. *)
Example js_set_order :
  let p := mkPropertyInfo Unknown false false in
  keys (js_set (js_set (js_set (js_set ([] : PropertyMap) "b" p) "10" p)
                  "9" p) "01" p)
  = ["9"; "10"; "b"; "01"].
Proof. reflexivity. Qed.

(** ** Merging *)

Lemma js_flattenUnions_defined l :
  js_flattenUnions (map Some l) = Returns (flattenUnions l).
Proof.
  induction l as [|t l IH]; [reflexivity|]. simpl. now rewrite IH.
Qed.

Lemma js_mergeTypes_defined l :
  js_mergeTypes (map Some l) = Returns (mergeTypes l).
Proof.
  destruct l as [|t l]; [reflexivity|].
  unfold js_mergeTypes.
  change (map Some (t :: l)) with (Some t :: map Some l) at 1.
  cbv iota. rewrite js_flattenUnions_defined. reflexivity.
Qed.

Lemma js_lookup_own m key :
  is_inherited key = false ->
  js_lookup m key
  = match get_prop m key with Some prop => Own prop | None => Undefined end.
Proof. intros H. unfold js_lookup. now rewrite H. Qed.

Lemma js_scan_key_fold objects key :
  is_inherited key = false ->
  forall ts pc nc,
    fold_left
      (fun '(typesForKey, presentCount, nullableCount) obj =>
         match js_lookup (properties obj) key with
         | Own prop =>
             (typesForKey ++ [Some (type prop)], S presentCount,
              if nullable prop then S nullableCount else nullableCount)
         | Inherited => (typesForKey ++ [None], S presentCount, nullableCount)
         | Undefined => (typesForKey, presentCount, nullableCount)
         end) objects (map Some ts, pc, nc)
    = (map Some (ts ++ map type (occurrences objects key)),
       pc + length (occurrences objects key),
       nc + length (List.filter nullable (occurrences objects key)))%nat.
Proof.
  intros Hk. induction objects as [|o objects IH]; intros ts pc nc; simpl.
  - now rewrite app_nil_r, !Nat.add_0_r.
  - rewrite (js_lookup_own _ _ Hk). unfold occurrences in *. simpl.
    destruct (get_prop (properties o) key) as [prop|]; simpl.
    + change [Some (type prop)] with (map Some [type prop]).
      rewrite <- map_app, IH, <- app_assoc. simpl.
      destruct (nullable prop); simpl; repeat f_equal; lia.
    + apply IH.
Qed.

Lemma js_scan_key_own objects key :
  is_inherited key = false ->
  js_scan_key objects key
  = (map Some (map type (occurrences objects key)),
     length (occurrences objects key),
     length (List.filter nullable (occurrences objects key))).
Proof.
  intros Hk. unfold js_scan_key.
  exact (js_scan_key_fold objects key Hk [] 0%nat 0%nat).
Qed.

Lemma js_merge_key_own objects key :
  is_inherited key = false ->
  js_merge_key objects key = Returns (merge_key objects key).
Proof.
  intros Hk. unfold js_merge_key, merge_key.
  rewrite (js_scan_key_own objects key Hk), scan_key_occurrences.
  rewrite js_mergeTypes_defined. cbn [bind].
  now destruct (separate_null _ _).
Qed.

Lemma js_insert_get {V : Type} (m : list (string * V)) k v k' :
  get_prop m k = None ->
  get_prop (js_insert m k v) k'
  = if String.eqb k k' then Some v else get_prop m k'.
Proof.
  induction m as [|[k1 v1] m IH]; simpl; [reflexivity|].
  destruct (String.eqb_spec k1 k) as [->|Hne]; [discriminate|]. intros Hm.
  specialize (IH Hm).
  assert (Htail : get_prop ((k1, v1) :: js_insert m k v) k'
                  = if String.eqb k k' then Some v
                    else if String.eqb k1 k' then Some v1 else get_prop m k').
  { simpl. rewrite IH.
    destruct (String.eqb_spec k1 k') as [->|_]; [|reflexivity].
    destruct (String.eqb_spec k k') as [->|_]; [congruence|reflexivity]. }
  destruct (array_index k) as [n|], (array_index k1) as [n1|];
    try destruct (n <? n1)%N; rewrite ?Htail; reflexivity.
Qed.

Lemma js_set_get {V : Type} (m : list (string * V)) k v k' :
  get_prop (js_set m k v) k'
  = if String.eqb k k' then Some v else get_prop m k'.
Proof.
  unfold js_set. destruct (existsb (String.eqb k) (keys m)) eqn:E.
  - destruct (String.eqb_spec k k') as [<-|Hne].
    + apply get_set_prop_eq.
    + now apply get_set_prop_ne.
  - apply js_insert_get. apply get_prop_None.
    rewrite <- existsb_eqb_In. congruence.
Qed.

Lemma js_insert_last {V : Type} (m : list (string * V)) k v :
  array_index k = None -> js_insert m k v = m ++ [(k, v)].
Proof.
  intros H. induction m as [|[k1 v1] m IH]; simpl; [reflexivity|].
  now rewrite H, IH.
Qed.

Lemma set_prop_last {V : Type} (m : list (string * V)) k v :
  existsb (String.eqb k) (keys m) = false -> set_prop m k v = m ++ [(k, v)].
Proof.
  induction m as [|[k1 v1] m IH]; simpl; [reflexivity|].
  rewrite (String.eqb_sym k k1). destruct (String.eqb k1 k); simpl;
    [discriminate|].
  intros H. now rewrite IH.
Qed.

Lemma js_set_plain {V : Type} (m : list (string * V)) k v :
  array_index k = None -> js_set m k v = set_prop m k v.
Proof.
  intros H. unfold js_set.
  destruct (existsb (String.eqb k) (keys m)) eqn:E; [reflexivity|].
  now rewrite js_insert_last, set_prop_last.
Qed.

Lemma not_inherited_assign {V : Type} (m : list (string * V)) k v :
  is_inherited k = false -> js_assign m k v = Returns (js_set m k v).
Proof.
  intros H. unfold js_assign.
  destruct (String.eqb_spec k "__proto__") as [->|_]; [discriminate H|].
  reflexivity.
Qed.

Lemma plain_key_parts k :
  plain_key k = true -> is_inherited k = false /\ array_index k = None.
Proof.
  unfold plain_key, is_array_index. intros H.
  apply andb_true_iff in H as [H1 H2].
  apply negb_true_iff in H1. split; [exact H1|].
  now destruct (array_index k).
Qed.

(** The loop over [allKeys], key by key. *)
Lemma js_merge_fold_own objects ks :
  Forall (fun k => is_inherited k = false) ks ->
  forall m m',
    (forall k, get_prop m k = get_prop m' k) ->
    exists r,
      fold_left
        (fun acc key =>
           bind acc
             (fun mergedProperties =>
                bind (js_merge_key objects key)
                  (fun prop => js_assign mergedProperties key prop)))
        ks (Returns m)
      = Returns r
      /\ forall k,
           get_prop r k
           = get_prop
               (fold_left
                  (fun mergedProperties key =>
                     set_prop mergedProperties key (merge_key objects key))
                  ks m') k.
Proof.
  induction 1 as [|key ks Hkey _ IH]; intros m m' Hm; simpl.
  - now exists m.
  - rewrite (js_merge_key_own objects key Hkey). cbn [bind].
    rewrite (not_inherited_assign _ _ _ Hkey).
    apply IH. intros k. rewrite js_set_get.
    destruct (String.eqb_spec key k) as [<-|Hne].
    + now rewrite get_set_prop_eq.
    + now rewrite get_set_prop_ne, Hm.
Qed.

Lemma js_merge_fold_plain objects ks :
  Forall (fun k => plain_key k = true) ks ->
  forall m,
    fold_left
      (fun acc key =>
         bind acc
           (fun mergedProperties =>
              bind (js_merge_key objects key)
                (fun prop => js_assign mergedProperties key prop)))
      ks (Returns m)
    = Returns
        (fold_left
           (fun mergedProperties key =>
              set_prop mergedProperties key (merge_key objects key))
           ks m).
Proof.
  induction 1 as [|key ks Hkey _ IH]; intros m; simpl; [reflexivity|].
  apply plain_key_parts in Hkey as [Hi Ha].
  rewrite (js_merge_key_own objects key Hi). cbn [bind].
  rewrite (not_inherited_assign _ _ _ Hi), (js_set_plain _ _ _ Ha).
  apply IH.
Qed.

Lemma collect_keys_own objects :
  own_named objects = true ->
  Forall (fun k => is_inherited k = false) (collect_keys objects).
Proof.
  intros H. apply List.Forall_forall. intros k Hk.
  apply collect_keys_In in Hk as (o & Ho & Hk).
  unfold own_named in H. rewrite forallb_forall in H.
  specialize (H o Ho). rewrite forallb_forall in H.
  apply negb_true_iff. now apply H.
Qed.

Lemma collect_keys_plain objects :
  plain_objects objects = true ->
  Forall (fun k => plain_key k = true) (collect_keys objects).
Proof.
  intros H. apply List.Forall_forall. intros k Hk.
  apply collect_keys_In in Hk as (o & Ho & Hk).
  unfold plain_objects in H. rewrite forallb_forall in H.
  specialize (H o Ho). rewrite forallb_forall in H. now apply H.
Qed.

(** Without keys named like a member of [Object.prototype] the merge
    returns, with the properties that [mergeObjectTypes] describes. *)
Lemma js_mergeObjectTypes_own objects name :
  own_named objects = true ->
  exists merged,
    js_mergeObjectTypes objects name = Returns merged
    /\ typeName merged = name
    /\ forall k,
         get_prop (properties merged) k
         = get_prop (properties (mergeObjectTypes objects name)) k.
Proof.
  intros H. destruct objects as [|o1 [|o2 objects]].
  - eexists. repeat split.
  - eexists. repeat split.
  - destruct (js_merge_fold_own (o1 :: o2 :: objects)
                (collect_keys (o1 :: o2 :: objects))
                (collect_keys_own _ H) [] [] (fun _ => eq_refl))
      as (r & Hr & Hget).
    exists (mkObjectType r name). unfold js_mergeObjectTypes.
    cbv zeta. rewrite Hr. repeat split. exact Hget.
Qed.

(** With plain keys it returns that very object. *)
Lemma js_mergeObjectTypes_plain objects name :
  plain_objects objects = true ->
  js_mergeObjectTypes objects name = Returns (mergeObjectTypes objects name).
Proof.
  intros H. destruct objects as [|o1 [|o2 objects]]; try reflexivity.
  unfold js_mergeObjectTypes, mergeObjectTypes. cbv zeta.
  now rewrite (js_merge_fold_plain _ _ (collect_keys_plain _ H)).
Qed.

(** ** Plain keys are kept by the merge *)

Lemma mergeTypes_plain types :
  forallb plain_type types = true -> plain_type (mergeTypes types) = true.
Proof.
  intros H. destruct types as [|t types]; [reflexivity|].
  rewrite mergeTypes_finalTypes.
  assert (Hall : Forall (fun x => plain_type x = true)
                   (finalTypes (t :: types))).
  { apply finalTypes_Forall, flattenUnions_Forall.
    - intros vs Hvs. now apply Forall_forallb.
    - now apply Forall_forallb. }
  destruct (finalTypes (t :: types)) as [|x [|y l]].
  - reflexivity.
  - now inversion Hall.
  - simpl. now apply Forall_forallb in Hall.
Qed.

Lemma separate_null_plain mergedType isNullable :
  plain_type mergedType = true ->
  plain_type (fst (separate_null mergedType isNullable)) = true.
Proof.
  intros H. rewrite separate_null_spec.
  destruct mergedType; try exact H.
  destruct (existsb is_null variants); [|exact H]. cbn [fst].
  simpl in H.
  pose proof (forallb_filter plain_type (fun v => negb (is_null v)) _ H) as Hf.
  unfold collapse.
  destruct (List.filter (fun v => negb (is_null v)) variants) as [|x [|y l]].
  - reflexivity.
  - simpl in Hf. now rewrite andb_true_r in Hf.
  - exact Hf.
Qed.

Lemma merge_key_plain objects key :
  forallb (fun o => plain_type (ObjectT o)) objects = true ->
  plain_type (type (merge_key objects key)) = true.
Proof.
  intros H. rewrite merge_key_unfold. cbn zeta. cbn [type].
  apply separate_null_plain, mergeTypes_plain.
  apply List.forallb_forall. intros t Ht.
  apply in_map_iff in Ht as (prop & <- & Hprop).
  apply occurrences_In in Hprop as (obj & Hobj & Hget).
  rewrite List.forallb_forall in H. specialize (H obj Hobj).
  simpl in H. rewrite List.forallb_forall in H.
  specialize (H (key, prop) (get_prop_In _ _ _ Hget)).
  now apply andb_true_iff in H.
Qed.

Lemma plain_type_objects objects :
  forallb (fun o => plain_type (ObjectT o)) objects = true ->
  plain_objects objects = true.
Proof.
  unfold plain_objects. rewrite !List.forallb_forall. intros H o Ho.
  specialize (H o Ho). simpl in H. rewrite List.forallb_forall in H.
  apply List.forallb_forall. intros k Hk.
  apply in_map_iff in Hk as ([k' p] & <- & Hin).
  specialize (H _ Hin). now apply andb_true_iff in H.
Qed.

Lemma mergeObjectTypes_plain_type objects name :
  forallb (fun o => plain_type (ObjectT o)) objects = true ->
  plain_type (ObjectT (mergeObjectTypes objects name)) = true.
Proof.
  intros H. destruct objects as [|o1 [|o2 objects]].
  - reflexivity.
  - simpl in *. now rewrite andb_true_r in H.
  - unfold ObjectT. cbn [plain_type].
    apply (Forall_forallb
             (fun kp => plain_key (fst kp) && plain_type (type (snd kp)))).
    apply (mergeObjectTypes_Forall
             (fun kp => plain_key (fst kp) && plain_type (type (snd kp))
                        = true)
             o1 o2 objects name).
    intros k Hk. cbn [fst snd]. rewrite (merge_key_plain _ _ H), andb_true_r.
    apply present_in_positive in Hk as (obj & Hobj & Hin).
    pose proof (plain_type_objects _ H) as Hp. unfold plain_objects in Hp.
    rewrite List.forallb_forall in Hp. specialize (Hp obj Hobj).
    rewrite List.forallb_forall in Hp. now apply Hp.
Qed.

(** ** Inference on plain keys *)

Lemma as_object_ObjectT t o : as_object t = Some o -> ObjectT o = t.
Proof. destruct t; try discriminate. now intros [= <-]. Qed.

Section Follows.

Variable settings : InferSettings.

Lemma js_infer_elements_follows arr :
  Forall (follows_infer settings) arr ->
  forall segments i objs others st,
    js_infer_elements (js_infer settings) segments i objs others st arr
    = Returns (infer_elements (infer settings) segments i objs others st arr)
    /\ (forallb (fun o => plain_type (ObjectT o)) objs = true ->
        forallb plain_type others = true ->
        forallb (fun o => plain_type (ObjectT o))
          (fst (fst (infer_elements (infer settings) segments i objs others
                       st arr))) = true
        /\ forallb plain_type
             (snd (fst (infer_elements (infer settings) segments i objs
                          others st arr))) = true).
Proof.
  induction 1 as [|v arr Hv _ IH]; intros segments i objs others st.
  - simpl. auto.
  - cbn [js_infer_elements infer_elements].
    destruct (Hv (segments ++ ["[" +:+ string_of_nat i +:+ "]"]) st)
      as [Hrun Hplain].
    rewrite Hrun. cbn [bind].
    destruct (infer settings v _ st) as [elemType st1]. cbn [fst] in Hplain.
    destruct (as_object elemType) as [o|] eqn:E.
    + destruct (IH segments (S i) (objs ++ [o]) others st1) as [-> Hk].
      split; [reflexivity|]. intros Ho Hs. apply Hk; [|exact Hs].
      rewrite forallb_app, Ho. cbn [forallb andb].
      rewrite (as_object_ObjectT _ _ E), Hplain. reflexivity.
    + destruct (IH segments (S i) objs (others ++ [elemType]) st1) as [-> Hk].
      split; [reflexivity|]. intros Ho Hs. apply Hk; [exact Ho|].
      rewrite forallb_app, Hs. simpl. now rewrite Hplain.
Qed.

Lemma js_inferArray_follows arr :
  Forall (follows_infer settings) arr ->
  forall segments st,
    js_inferArray_body (js_infer settings) arr segments st
    = Returns (inferArray_body (infer settings) arr segments st)
    /\ plain_type (fst (inferArray_body (infer settings) arr segments st))
       = true.
Proof.
  intros Harr segments st. unfold js_inferArray_body, inferArray_body.
  destruct arr as [|v arr']; [split; reflexivity|].
  set (arr := v :: arr') in *.
  destruct (js_infer_elements_follows arr Harr segments 0 [] [] st)
    as [-> Hk].
  specialize (Hk eq_refl eq_refl). cbn [bind].
  destruct (infer_elements (infer settings) segments 0 [] [] st arr)
    as [[objectElements otherElements] st1].
  cbn [fst snd] in Hk. destruct Hk as [Ho Hs].
  pose proof (plain_type_objects _ Ho) as Hpo.
  destruct (length objectElements =? length arr)%nat.
  { destruct (nameGen_generate _ st1) as [itemName st2].
    rewrite (js_mergeObjectTypes_plain _ _ Hpo). cbn [bind fst].
    split; [reflexivity|].
    exact (mergeObjectTypes_plain_type _ itemName Ho). }
  destruct (length objectElements =? 0)%nat.
  { rewrite js_mergeTypes_defined. cbn [bind fst].
    split; [reflexivity|]. exact (mergeTypes_plain _ Hs). }
  destruct (0 <? length objectElements)%nat.
  - destruct (nameGen_generate _ _) as [itemName st3].
    rewrite (js_mergeObjectTypes_plain _ _ Hpo). cbn [bind].
    rewrite js_mergeTypes_defined. cbn [bind fst].
    split; [reflexivity|]. cbn [plain_type]. apply mergeTypes_plain.
    rewrite forallb_app, Hs. cbn [forallb andb].
    rewrite (mergeObjectTypes_plain_type _ itemName Ho). reflexivity.
  - cbn [bind]. rewrite js_mergeTypes_defined. cbn [bind fst].
    split; [reflexivity|]. cbn [plain_type]. apply mergeTypes_plain.
    now rewrite app_nil_r.
Qed.

Lemma set_prop_plain (props : PropertyMap) key prop :
  forallb (fun kp => plain_key (fst kp) && plain_type (type (snd kp))) props
  = true ->
  plain_key key = true ->
  plain_type (type prop) = true ->
  forallb (fun kp => plain_key (fst kp) && plain_type (type (snd kp)))
    (set_prop props key prop) = true.
Proof.
  intros Hp Hk Ht. induction props as [|[k' p'] props IH]; simpl.
  - now rewrite Hk, Ht.
  - simpl in Hp. apply andb_true_iff in Hp as [Hh Hr].
    destruct (String.eqb_spec k' key) as [->|_]; simpl.
    + now rewrite Hk, Ht, Hr.
    + now rewrite Hh, IH.
Qed.

Lemma js_infer_properties_follows obj :
  Forall
    (fun kv => plain_key (fst kv) = true /\ follows_infer settings (snd kv))
    obj ->
  forall segments props st,
    js_infer_properties (js_infer settings) segments props st obj
    = Returns (infer_properties (infer settings) segments props st obj)
    /\ (forallb (fun kp => plain_key (fst kp) && plain_type (type (snd kp)))
          props = true ->
        forallb (fun kp => plain_key (fst kp) && plain_type (type (snd kp)))
          (fst (infer_properties (infer settings) segments props st obj))
        = true).
Proof.
  induction 1 as [|[key val] obj [Hkey Hval] _ IH]; intros segments props st.
  - simpl. auto.
  - cbn [js_infer_properties infer_properties]. cbv zeta.
    cbn [fst snd] in Hkey, Hval.
    destruct (Hval (segments ++ [key]) (incr_fieldCount st)) as [Hrun Hplain].
    rewrite Hrun. cbn [bind].
    destruct (infer settings val _ _) as [childType st2]. cbn [fst] in Hplain.
    destruct (plain_key_parts _ Hkey) as [Hi Ha].
    rewrite (not_inherited_assign _ _ _ Hi), (js_set_plain _ _ _ Ha).
    cbn [bind].
    destruct (IH segments
                (set_prop props key
                   (if is_null childType
                    then mkPropertyInfo Unknown false true
                    else mkPropertyInfo childType false false)) st2)
      as [-> Hk].
    split; [reflexivity|]. intros Hp. apply Hk.
    apply set_prop_plain; [exact Hp | exact Hkey |].
    now destruct (is_null childType).
Qed.

Lemma js_inferObject_follows obj :
  Forall
    (fun kv => plain_key (fst kv) = true /\ follows_infer settings (snd kv))
    obj ->
  forall segments st,
    js_inferObject_body settings (js_infer settings) obj segments st
    = Returns (inferObject_body settings (infer settings) obj segments st)
    /\ plain_type
         (ObjectT
            (fst (inferObject_body settings (infer settings) obj segments st)))
       = true.
Proof.
  intros Hobj segments st. unfold js_inferObject_body, inferObject_body.
  destruct (js_infer_properties_follows obj Hobj segments [] st) as [-> Hk].
  specialize (Hk eq_refl). cbn [bind].
  destruct (infer_properties (infer settings) segments [] st obj)
    as [props st1].
  destruct (nameGen_generate _ st1) as [name st2].
  split; [reflexivity|]. exact Hk.
Qed.

(** On a value with plain keys everywhere the run returns what [infer]
    computes. *)
Lemma js_infer_plain v : plain_value v = true -> follows_infer settings v.
Proof.
  induction v as [ |s| |b|arr IH|obj IH| ] using Value_ind; intros Hv;
    try (intros segments st; split; reflexivity).
  - intros segments st. cbn [js_infer infer].
    destruct (detectDates settings && Regex.test ISO_DATE_REGEX s);
      split; reflexivity.
  - intros segments st. cbn [js_infer infer].
    apply js_inferArray_follows.
    cbn [plain_value] in Hv. rewrite List.forallb_forall in Hv.
    rewrite List.Forall_forall in IH |- *. intros x Hx. now apply IH, Hv.
  - intros segments st. cbn [js_infer infer].
    assert (Hobj : Forall
                     (fun kv => plain_key (fst kv) = true
                                /\ follows_infer settings (snd kv)) obj).
    { cbn [plain_value] in Hv. rewrite List.forallb_forall in Hv.
      rewrite List.Forall_forall in IH |- *. intros kv Hkv.
      specialize (Hv kv Hkv). apply andb_true_iff in Hv as [Hk Hp].
      split; [exact Hk|]. now apply IH. }
    destruct (js_inferObject_follows obj Hobj segments st) as [-> Hp].
    cbn [bind].
    destruct (inferObject_body settings (infer settings) obj segments st)
      as [o st'].
    split; [reflexivity|]. exact Hp.
Qed.



Lemma js_inferType_plain value :
  plain_value value = true ->
  js_inferType value settings = Returns (inferType value settings).
Proof.
  intros Hv. unfold js_inferType, inferType.
  destruct (root_rejected value).
  - destruct (js_infer_plain value Hv [] 
                (push_diagnostic
                   (mkDiagnostic error
                      "Root value must be an object or array." "")
                   initial_state)) as [-> _].
    cbn [bind]. now destruct (infer settings value [] _).
  - destruct (js_infer_plain value Hv [] initial_state) as [-> _].
    cbn [bind]. now destruct (infer settings value [] initial_state).
Qed.

End Follows.

(** ** Object merging through the prototype chain *)

(** The second object has no own [constructor]; the lookup finds the one
    of [Object.prototype], and [mergeTypes] reads [kind] of its [type],
    which is [undefined]. *)
Example js_mergeObjectTypes_chain_samples :
  own_named chain_samples = false
  /\ js_scan_key chain_samples "constructor"
     = ([Some (Primitive PNumber); None], 2%nat, 0%nat)
  /\ js_mergeObjectTypes chain_samples "Item" = Throws.
Proof. repeat split. Qed.

(** C2 (amended).  Let no key of the input objects be named like a member
    of [Object.prototype].  For every list of [N >= 2] input objects, and
    for [N = 1] when the input's properties are not already marked optional
    (as [inferObject] produces them), [mergeObjectTypes] returns an object
    with exactly the keys present in some input and marks a key optional
    exactly when it is present in fewer than [N] inputs; hence merging
    structurally identical objects yields [optional = false] everywhere,
    and a key present in [m < N] inputs gets [optional = true].  A single
    input object is returned with its properties as they are. *)
Theorem mergeObjectTypes_optional_iff_missing :
  forall objects name,
    own_named objects = true ->
    ((2 <= length objects)%nat
     \/ ((1 <= length objects)%nat /\ all_required objects = true)) ->
    exists merged,
      js_mergeObjectTypes objects name = Returns merged
      /\ typeName merged = name
      /\ (forall k,
            In k (keys (properties merged))
            <-> (0 < present_in objects k)%nat)
      /\ (forall k p,
            get_prop (properties merged) k = Some p ->
            optional p = (present_in objects k <? length objects)%nat)
      /\ ((forall a b, In a objects -> In b objects ->
                       typesEqual (ObjectT a) (ObjectT b) = true) ->
          forall k p,
            get_prop (properties merged) k = Some p -> optional p = false)
      /\ (forall k p,
            get_prop (properties merged) k = Some p ->
            (present_in objects k < length objects)%nat ->
            optional p = true)
      /\ (forall o, objects = [o] -> merged = mkObjectType (properties o) name).
Proof.
  intros objects name Hown Hcase.
  destruct (js_mergeObjectTypes_own objects name Hown)
    as (merged & Hrun & Hname & Hget).
  exists merged. split; [exact Hrun|]. split; [exact Hname|].
  assert (Hkeys : forall k,
             In k (keys (properties merged))
             <-> (0 < present_in objects k)%nat).
  { intros k. rewrite <- (mergeObjectTypes_keys objects name k).
    rewrite !get_prop_keys. split; intros [v Hv]; exists v.
    - now rewrite <- Hget.
    - now rewrite Hget. }
  assert (Hopt : forall k p,
             get_prop (properties merged) k = Some p ->
             optional p = (present_in objects k <? length objects)%nat).
  { intros k p H. rewrite Hget in H.
    exact (mergeObjectTypes_optional objects name k p Hcase H). }
  split; [exact Hkeys|]. split; [exact Hopt|]. split; [|split].
  - intros Hsame k p H. rewrite (Hopt k p H).
    apply Nat.ltb_ge. rewrite present_in_all; [lia|].
    assert (Hk : (0 < present_in objects k)%nat).
    { apply Hkeys, get_prop_keys. eauto. }
    apply present_in_positive in Hk as (o & Ho & Hk).
    intros obj Hobj. apply (typesEqual_object_keys o obj); auto.
  - intros k p H Hlt. rewrite (Hopt k p H). now apply Nat.ltb_lt.
  - intros o ->. simpl in Hrun. now injection Hrun as <-.
Qed.

Lemma mergeObjectTypes_optional_iff_missing_witness :
  exists merged,
    js_mergeObjectTypes contact_samples "Item" = Returns merged
    /\ (forall p, get_prop (properties merged) "id" = Some p ->
                  optional p = false)
    /\ (forall p, get_prop (properties merged) "phone" = Some p ->
                  optional p = true).
Proof.
  assert (Hown : own_named contact_samples = true) by reflexivity.
  assert (Hcase : (2 <= length contact_samples)%nat
                  \/ ((1 <= length contact_samples)%nat
                      /\ all_required contact_samples = true)).
  { left. simpl. lia. }
  destruct (mergeObjectTypes_optional_iff_missing contact_samples "Item"
              Hown Hcase) as (merged & Hrun & _ & _ & Hopt & _).
  exists merged. split; [exact Hrun|]. split; intros p Hp.
  - now rewrite (Hopt "id" p Hp).
  - now rewrite (Hopt "phone" p Hp).
Defined.

(** X11.  A nullable observation is never lost: when no key of the
    inputs is named like a member of [Object.prototype], the merge returns
    an object in which a key that one of the inputs marks nullable is
    nullable. *)
Theorem mergeObjectTypes_nullable_kept :
  forall objects name obj k p,
    own_named objects = true ->
    In obj objects ->
    get_prop (properties obj) k = Some p ->
    nullable p = true ->
    exists merged q,
      js_mergeObjectTypes objects name = Returns merged
      /\ get_prop (properties merged) k = Some q
      /\ nullable q = true.
Proof.
  intros objects name obj k p Hown Hobj Hp Hn.
  destruct (js_mergeObjectTypes_own objects name Hown)
    as (merged & Hrun & _ & Hget).
  destruct (mergeObjectTypes_keeps_nullable objects name obj k p Hobj Hp Hn)
    as (q & Hq & Hqn).
  exists merged, q. split; [exact Hrun|]. split; [|exact Hqn].
  now rewrite Hget.
Qed.

Lemma mergeObjectTypes_nullable_kept_witness :
  exists merged q,
    js_mergeObjectTypes sparse_samples "Item" = Returns merged
    /\ get_prop (properties merged) "tag" = Some q
    /\ nullable q = true.
Proof.
  apply (mergeObjectTypes_nullable_kept sparse_samples "Item"
           (mkObjectType
              [("id", mkPropertyInfo (Primitive PNumber) false false);
               ("tag", mkPropertyInfo (Primitive PString) false true)] "A")
           "tag" (mkPropertyInfo (Primitive PString) false true)).
  - reflexivity.
  - now left.
  - reflexivity.
  - reflexivity.
Defined.

(** X12.  The merged object lists every key once, in the order in which
    the keys are first met across the inputs: the keys of the first object
    as they stand, then each key that is new.  This is for plain keys: an
    array index such as [1] is listed before the other keys whenever it is
    met. *)
Theorem mergeObjectTypes_key_order :
  forall objects name,
    plain_objects objects = true ->
    Forall (fun o => List.NoDup (keys (properties o))) objects ->
    exists merged,
      js_mergeObjectTypes objects name = Returns merged
      /\ keys (properties merged) = collect_keys objects
      /\ List.NoDup (keys (properties merged))
      /\ (forall o rest,
            objects = o :: rest ->
            exists more,
              keys (properties merged) = keys (properties o) ++ more).
Proof.
  intros objects name Hplain Hnd.
  destruct (mergeObjectTypes_keys_collected objects name Hnd)
    as (Hk & Hd & Hfirst).
  exists (mergeObjectTypes objects name).
  split; [now apply js_mergeObjectTypes_plain|].
  rewrite Hk. auto.
Qed.

Lemma mergeObjectTypes_key_order_witness :
  exists merged,
    js_mergeObjectTypes sparse_samples "Item" = Returns merged
    /\ keys (properties merged) = ["id"; "tag"; "note"].
Proof.
  destruct (mergeObjectTypes_key_order sparse_samples "Item")
    as (merged & Hrun & Hk & _).
  - reflexivity.
  - repeat constructor; simpl; intuition discriminate.
  - exists merged. split; [exact Hrun|]. rewrite Hk. reflexivity.
Defined.

(** An array index is listed first, wherever it is met. *)
Example js_mergeObjectTypes_index_first :
  js_mergeObjectTypes
    [ mkObjectType [("b", mkPropertyInfo (Primitive PNumber) false false)] "A";
      mkObjectType [("1", mkPropertyInfo (Primitive PNumber) false false)] "B" ]
    "Item"
  = Returns
      (mkObjectType
         [("1", mkPropertyInfo (Primitive PNumber) true false);
          ("b", mkPropertyInfo (Primitive PNumber) true false)] "Item").
Proof. reflexivity. Qed.

(** ** Inference through the prototype chain *)









(** C7 (the code diverges).  [chain_input] is an array of two objects,
    valid JSON; its first object has a key [constructor] that the second
    lacks.  [mergeObjectTypes] finds [Object.prototype.constructor] on the
    second, and [inferType] throws a [TypeError]: no diagnostics are
    returned.  On values with plain keys everywhere [inferType] returns,
    and the diagnostics it returns contain an error-level entry if and only
    if the outermost value is neither an Object nor an Array; in that case
    the error diagnostic comes with the best-effort IR of the raw value. *)
Theorem inferType_throws_on_inherited_key :
  (is_object_or_array chain_input = true
   /\ forall settings, js_inferType chain_input settings = Throws)
  /\ (forall value settings,
        plain_value value = true ->
        exists r,
          js_inferType value settings = Returns r
          /\ (has_error (diagnostics r) = true
              <-> is_object_or_array value = false)
          /\ (is_object_or_array value = false ->
              result_type r = best_effort settings value
              /\ In (mkDiagnostic error
                       "Root value must be an object or array." "")
                   (diagnostics r))).
Proof.
  split; [split; reflexivity|].
  intros value settings Hplain. exists (inferType value settings).
  split; [now apply js_inferType_plain|].
  apply inferType_error_iff.
Qed.

Lemma inferType_throws_on_inherited_key_witness :
  exists r,
    js_inferType (VString "2025-01-15") (mkInferSettings "Root" true)
    = Returns r
    /\ result_type r = DateString
    /\ In (mkDiagnostic error "Root value must be an object or array." "")
         (diagnostics r).
Proof.
  destruct (proj2 inferType_throws_on_inherited_key
              (VString "2025-01-15") (mkInferSettings "Root" true) eq_refl)
    as (r & Hrun & _ & Hrejected).
  exists r. split; [exact Hrun|]. exact (Hrejected eq_refl).
Defined.

(** X17.  The root keeps its shape.  An object with plain keys everywhere
    is inferred as an [Object] named [rootTypeName] as the settings spell
    it, with the keys of the value in their order and no property optional;
    an array with plain keys everywhere is inferred as an [Array]. *)
Theorem inferType_root_shape :
  forall settings,
    (forall obj,
        plain_value (VObject obj) = true ->
        List.NoDup (keys obj) ->
        exists props ds n,
          js_inferType (VObject obj) settings
          = Returns
              (mkInferResult (Object props (rootTypeName settings)) ds n)
          /\ keys props = keys obj
          /\ Forall (fun kp => optional (snd kp) = false) props)
    /\ (forall arr,
          plain_value (VArray arr) = true ->
          exists e ds n,
            js_inferType (VArray arr) settings
            = Returns (mkInferResult (Array e) ds n)).
Proof.
  intros settings. destruct (inferType_shape settings) as [Hobj Harr]. split.
  - intros obj Hplain Hnd.
    rewrite (js_inferType_plain settings _ Hplain).
    destruct (Hobj obj Hnd) as (props & Ht & Hk & Ho).
    destruct (inferType (VObject obj) settings) as [t ds n].
    cbn [result_type] in Ht. subst t. now exists props, ds, n.
  - intros arr Hplain.
    rewrite (js_inferType_plain settings _ Hplain).
    destruct (Harr arr) as (e & Ht).
    destruct (inferType (VArray arr) settings) as [t ds n].
    cbn [result_type] in Ht. subst t. now exists e, ds, n.
Qed.

Lemma inferType_root_shape_witness :
  exists props ds n,
    js_inferType scenario_A (mkInferSettings "my_type" false)
    = Returns (mkInferResult (Object props "my_type") ds n)
    /\ keys props = ["name"; "age"]
    /\ Forall (fun kp => optional (snd kp) = false) props.
Proof.
  apply (proj1 (inferType_root_shape (mkInferSettings "my_type" false))).
  - reflexivity.
  - repeat constructor; simpl; intuition discriminate.
Defined.

(** A key [__proto__] replaces the prototype of the property object and
    is not recorded; the run is not followed beyond that. *)
Example js_inferType_proto_key :
  forall settings,
    js_inferType
      (VObject [("__proto__", VObject [("a", VNumber)]); ("b", VNumber)])
      settings
    = Beyond.
Proof. reflexivity. Qed.

(** ** Schema names of ASCII names *)

Lemma upper_char_ascii c :
  is_ascii_char c = true -> is_ascii_char (upper_char c) = true.
Proof.
  unfold upper_char. destruct (is_lower c) eqn:E; [|auto]. intros _.
  destruct c as [[] [] [] [] [] [] [] []]; try discriminate E; reflexivity.
Qed.

Lemma lower_char_ascii c :
  is_ascii_char c = true -> is_ascii_char (lower_char c) = true.
Proof.
  unfold lower_char. destruct (is_upper c) eqn:E; [|auto]. intros _.
  destruct c as [[] [] [] [] [] [] [] []]; try discriminate E; reflexivity.
Qed.

Lemma toLowerCase_ascii s :
  ascii_string s = true -> ascii_string (toLowerCase s) = true.
Proof.
  unfold ascii_string. induction s as [|c s IH]; [reflexivity|]. simpl.
  intros H. apply andb_true_iff in H as [Hc Hs].
  now rewrite lower_char_ascii, IH.
Qed.

Lemma capitalize_ascii w :
  ascii_string w = true -> ascii_string (capitalize w) = true.
Proof.
  destruct w as [|c r]; [reflexivity|]. unfold ascii_string. simpl.
  intros H. apply andb_true_iff in H as [Hc Hs].
  rewrite upper_char_ascii by exact Hc. now apply toLowerCase_ascii.
Qed.

Lemma insert_humps_ascii s :
  ascii_string s = true -> ascii_string (insert_humps s) = true.
Proof.
  unfold ascii_string.
  assert (H : forall n s, (String.length s <= n)%nat ->
                string_forall is_ascii_char s = true ->
                string_forall is_ascii_char (insert_humps s) = true).
  { induction n as [|n IH]; intros [|a r] Hlen Hs; try reflexivity;
      [simpl in Hlen; lia|].
    destruct r as [|c r']; [exact Hs|].
    change (insert_humps (String a (String c r')))
      with (if is_lower a && is_upper c
            then String a (String "_" (String c (insert_humps r')))
            else String a (insert_humps (String c r'))).
    cbn [string_forall] in Hs.
    apply andb_true_iff in Hs as [Ha Hs].
    destruct (is_lower a && is_upper c).
    - apply andb_true_iff in Hs as [Hc Hs].
      cbn [string_forall]. rewrite Ha, Hc. cbn [andb].
      change (is_ascii_char "_") with true. cbn [andb].
      apply IH; [simpl in Hlen; lia | exact Hs].
    - cbn [string_forall]. rewrite Ha. cbn [andb].
      apply IH; [simpl in Hlen |- *; lia|].
      cbn [string_forall]. exact Hs. }
  intros Hs. now apply (H (String.length s)).
Qed.

Lemma split_from_ascii s :
  forall cur in_sep,
    ascii_string cur = true -> ascii_string s = true ->
    Forall (fun w => ascii_string w = true) (split_from cur in_sep s).
Proof.
  unfold ascii_string.
  induction s as [|c s IH]; intros cur in_sep Hcur Hs; simpl.
  - now repeat constructor.
  - simpl in Hs. apply andb_true_iff in Hs as [Hc Hs].
    destruct (is_separator c).
    + destruct in_sep; [now apply IH|]. constructor; [exact Hcur|].
      now apply IH.
    + apply IH; [|exact Hs]. rewrite string_forall_append, Hcur. simpl.
      now rewrite Hc.
Qed.

Lemma toPascalCase_ascii str :
  ascii_string str = true -> ascii_string (toPascalCase str) = true.
Proof.
  intros H. unfold toPascalCase, ascii_string.
  apply string_forall_join, List.Forall_forall. intros w Hw.
  apply in_map_iff in Hw as (x & <- & Hx).
  apply List.filter_In in Hx as [Hx _].
  apply capitalize_ascii.
  pose proof (split_from_ascii (insert_humps str) "" false eq_refl
                (insert_humps_ascii str H)) as Hall.
  rewrite List.Forall_forall in Hall. now apply Hall.
Qed.

Lemma candidate_of_ascii segs :
  Forall (fun s => ascii_string s = true) segs ->
  ascii_string (candidate_of segs) = true.
Proof.
  intros H. unfold candidate_of.
  assert (Hj : ascii_string (join "" (map toPascalCase segs)) = true).
  { apply string_forall_join, List.Forall_forall. intros w Hw.
    apply in_map_iff in Hw as (x & <- & Hx). apply toPascalCase_ascii.
    rewrite List.Forall_forall in H. now apply H. }
  now destruct (join "" (map toPascalCase segs)).
Qed.

Lemma string_of_uint_ascii d :
  ascii_string (NilEmpty.string_of_uint d) = true.
Proof. induction d; simpl; auto. Qed.

Lemma string_of_nat_ascii n : ascii_string (string_of_nat n) = true.
Proof.
  unfold string_of_nat, NilZero.string_of_uint.
  destruct (Nat.to_uint n) eqn:E; try reflexivity;
    rewrite <- E; apply string_of_uint_ascii.
Qed.

Lemma generate_ascii segs used :
  Forall (fun s => ascii_string s = true) segs ->
  ascii_string (fst (generate segs used)) = true.
Proof.
  intros H. rewrite generate_unfold. cbn [fst].
  pose proof (candidate_of_ascii segs H) as Hc.
  destruct (count_of used (candidate_of segs) =? 0)%nat; [exact Hc|].
  unfold ascii_string in *.
  rewrite string_forall_append, Hc. apply string_of_nat_ascii.
Qed.

(** X22.  ASCII names that do not start with a lowercase letter keep
    apart as schema names; the names [generate] returns for ASCII path
    segments are such names, so two different generated type names never
    share a schema constant. *)
Theorem toSchemaName_injective :
  (forall a b,
      ascii_string a = true -> ascii_string b = true ->
      starts_lower a = false -> starts_lower b = false ->
      a <> b -> toSchemaName a <> toSchemaName b)
  /\ (forall segs used,
        Forall (fun s => ascii_string s = true) segs ->
        ascii_string (fst (generate segs used)) = true
        /\ starts_lower (fst (generate segs used)) = false)
  /\ (forall segs1 used1 segs2 used2,
        Forall (fun s => ascii_string s = true) segs1 ->
        Forall (fun s => ascii_string s = true) segs2 ->
        fst (generate segs1 used1) <> fst (generate segs2 used2) ->
        toSchemaName (fst (generate segs1 used1))
        <> toSchemaName (fst (generate segs2 used2))).
Proof.
  split; [|split].
  - intros a b _ _ Ha Hb Hne E. apply Hne. now apply toSchemaName_inj.
  - intros segs used H. split;
      [now apply generate_ascii | apply generate_starts_upper].
  - intros segs1 used1 segs2 used2 _ _ Hne E. apply Hne.
    apply toSchemaName_inj; [apply generate_starts_upper .. | exact E].
Qed.

Lemma toSchemaName_injective_witness :
  toSchemaName (fst (generate ["item"] ∅))
  <> toSchemaName (fst (generate ["item"] (snd (generate ["item"] ∅)))).
Proof.
  apply (proj2 (proj2 toSchemaName_injective)
           ["item"] ∅ ["item"] (snd (generate ["item"] ∅))).
  - repeat constructor.
  - repeat constructor.
  - vm_compute. discriminate.
Defined.
